(** * joincap: merging pcap files by capture time

    A shallow embedding of [main.go] (functions [joincap],
    [initHeapWithInputFiles], [readNext] and [write]) together with the
    parts of Go's [container/heap] and of the [minheap] package that the
    merge loop calls, followed by the properties of the merge. *)

From Stdlib Require Import ZArith Lia ZifyNat.
From stdpp Require Import base numbers list strings sorting.

#[local] Open Scope Z_scope.

Ltac Zify.zify_post_hook ::= Z.div_mod_to_equations.

(** ** Machine integers *)

Module Int64.

Definition min_int : Z := - 2 ^ 63.
Definition max_int : Z := 2 ^ 63 - 1.

(** Two's-complement wrap-around of Go's [int64] arithmetic. *)
Definition wrap (z : Z) : Z := (z + 2 ^ 63) mod 2 ^ 64 - 2 ^ 63.

Definition in_range (z : Z) : Prop := min_int <= z <= max_int.

Definition add (a b : Z) : Z := wrap (a + b).

End Int64.

(** ** Data model *)

(** [layers.LinkType] is a [uint8].  The program names
    [LinkTypeNull], the zero value, and [LinkTypeEthernet];
    [LinkTypeRaw] serves the examples.  The numbers are gopacket's. *)
Definition LinkType := Z.
Definition LinkTypeNull : LinkType := 0.
Definition LinkTypeEthernet : LinkType := 1.
Definition LinkTypeRaw : LinkType := 101.

Definition maxSnaplen : Z := 262144.

(** [gopacket.CaptureInfo]; the [time.Time] of the capture is kept as
    nanoseconds since the Unix epoch. *)
Record CaptureInfo := mkCaptureInfo {
  ci_Timestamp : Z;
  ci_CaptureLength : Z;
  ci_Length : Z
}.

(** [time.Time.UnixNano] returns an [int64]. *)
Definition UnixNano (t : Z) : Z := Int64.wrap t.

(** [time.Nanosecond * time.Hour] as an [int64]. *)
Definition oneHour : Z := 3600 * 1000000000.

(** [minheap.Packet], with the fields [readNext] fills.  [Reader] and
    [InputFile] are pointers in the source; here both are the index of
    the input in the table of open inputs, see [World]. *)
Record Packet := mkPacket {
  Timestamp : Z;
  CaptureInfoOf : CaptureInfo;
  Data : list Z;
  Reader : nat;
  InputFile : nat
}.

#[global] Instance CaptureInfo_eq_dec : EqDecision CaptureInfo.
Proof. solve_decision. Defined.
#[global] Instance Packet_eq_dec : EqDecision Packet.
Proof. solve_decision. Defined.

(** ** The packet heap *)

Module minheap.

(** Modelled from the spec: the package [minheap] is not part of the
    sources at hand.  Its [PacketHeap] is a slice of packets
    implementing [heap.Interface], "a binary min-heap keyed by
    timestampNanos", so [Less] compares timestamps, [Swap] exchanges
    two slots, [Push] appends and [Pop] removes the last slot. *)
Abbreviation PacketHeap := (list Packet).

(** Modelled from the spec: [PacketHeap.Len] of the missing package,
    the length of the slice. *)
Definition Len (h : PacketHeap) : nat := length h.

(** Modelled from the spec: [PacketHeap.Less] of the missing package,
    the heap being "ordered by timestamp ascending".  Go panics on an
    index out of range; [container/heap] never passes one. *)
Definition Less (h : PacketHeap) (i j : nat) : bool :=
  match h !! i, h !! j with
  | Some a, Some b => bool_decide (Timestamp a < Timestamp b)
  | _, _ => false
  end.

(** Modelled from the spec: [PacketHeap.Swap] of the missing package. *)
Definition Swap (h : PacketHeap) (i j : nat) : PacketHeap :=
  match h !! i, h !! j with
  | Some a, Some b => <[i:=b]> (<[j:=a]> h)
  | _, _ => h
  end.

(** Modelled from the spec: [PacketHeap.Push] of the missing package,
    which appends to the slice. *)
Definition Push (h : PacketHeap) (x : Packet) : PacketHeap := h ++ [x].

(** Modelled from the spec: [PacketHeap.Pop] of the missing package,
    which cuts the last slot off the slice and returns it. *)
Definition Pop (h : PacketHeap) : option (Packet * PacketHeap) :=
  match last h with
  | Some x => Some (x, take (length h - 1) h)
  | None => None
  end.

End minheap.

(** Go's [container/heap], over [minheap.PacketHeap].  The two sifting
    loops are bounded by a fuel that is never exhausted: [up] moves to a
    strictly smaller index and [down] to a strictly larger one below
    [n]. *)
Module heap.
Import minheap.

Fixpoint up (fuel : nat) (h : PacketHeap) (j : nat) : PacketHeap :=
  match fuel with
  | O => h
  | S fuel' =>
      let i := ((j - 1) / 2)%nat in (* parent *)
      if bool_decide (i = j) || negb (Less h j i) then h
      else up fuel' (Swap h i j) i
  end.

Fixpoint down (fuel : nat) (h : PacketHeap) (i n : nat) : PacketHeap :=
  match fuel with
  | O => h
  | S fuel' =>
      let j1 := (2 * i + 1)%nat in
      if bool_decide (n ≤ j1)%nat then h
      else
        let j2 := (j1 + 1)%nat in
        let j := if bool_decide (j2 < n)%nat && Less h j2 j1
                 then j2 else j1 in
        if negb (Less h j i) then h
        else down fuel' (Swap h i j) j n
  end.

(** [heap.Init] of the empty heap does nothing. *)
Definition Init : PacketHeap := [].

Definition Push (h : PacketHeap) (x : Packet) : PacketHeap :=
  let h1 := minheap.Push h x in
  up (Len h1) h1 (Len h1 - 1).

(** [heap.Pop] on an empty heap indexes out of range and panics;
    [None] stands for that. *)
Definition Pop (h : PacketHeap) : option (Packet * PacketHeap) :=
  match h with
  | [] => None
  | _ =>
      let n := (Len h - 1)%nat in
      let h1 := Swap h 0 n in
      let h2 := down n h1 0 n in
      minheap.Pop h2
  end.

End heap.

(** ** Heap order *)

Module heap_order.
Import minheap.
#[local] Open Scope nat_scope.

(** The timestamp in slot [i]. *)
Definition key (h : PacketHeap) (i : nat) : Z :=
  from_option Timestamp 0%Z (h !! i).

Definition parent (k : nat) : nat := (k - 1) / 2.

(** Slots below [n] are in heap order. *)
Definition ordered_below (n : nat) (h : PacketHeap) : Prop :=
  ∀ k, 0 < k < n → (key h (parent k) ≤ key h k)%Z.

Definition ordered (h : PacketHeap) : Prop := ordered_below (length h) h.

(** Heap order everywhere but between [j] and its parent, where the
    children of [j] are already above that parent. *)
Definition up_inv (h : PacketHeap) (j : nat) : Prop :=
  (∀ k, 0 < k < length h → k ≠ j → (key h (parent k) ≤ key h k)%Z) ∧
  (∀ k, 0 < k < length h → 0 < j → parent k = j →
        (key h (parent j) ≤ key h k)%Z).

(** Heap order below [n] everywhere but between [i] and its children,
    which are already above the parent of [i]. *)
Definition down_inv (n : nat) (h : PacketHeap) (i : nat) : Prop :=
  (∀ k, 0 < k < n → parent k ≠ i → (key h (parent k) ≤ key h k)%Z) ∧
  (∀ k, 0 < k < n → 0 < i → parent k = i →
        (key h (parent i) ≤ key h k)%Z).

End heap_order.

(** ** The environment of a run *)

(** One call of [pcapgo.Reader.ReadPacketData] that is not the end of
    the file: a decoded record, or an error other than [io.EOF]. *)
Inductive ReadOutcome :=
  | ReadOK (ci : CaptureInfo) (data : list Z)
  | ReadErr (err : string).

(** What [os.Open] and [pcapgo.NewReader] find behind a path: the file
    cannot be opened, it has no valid pcap header, or it is a capture
    of [size] bytes with a link type and the outcomes of the successive
    reads, under the snapshot length [maxSnaplen], up to the end of the
    file. *)
Inductive FileContent :=
  | NoFile (err : string)
  | NotPcap (err : string)
  | Pcap (lt : LinkType) (size : Z) (recs : list ReadOutcome).

Record CmdFlags := mkCmdFlags {
  Verbose : bool;
  Version : bool;
  OutputFilePath : string;
  InFiles : list string
}.

(** The three ways [flags.ParseArgs] returns. *)
Inductive ParseResult :=
  | ParseHelp
  | ParseError (err : string)
  | Parsed (f : CmdFlags).

(** Everything the program gets from outside: the command-line parser,
    the file system, whether the output path can be created, and
    whether the sink takes the [k]-th [WritePacket] call. *)
Record Env := mkEnv {
  ParseArgs : list string → ParseResult;
  fs : string → FileContent;
  canCreate : string → bool;
  sinkAccepts : nat → CaptureInfo → list Z → bool
}.

(** ** The state of a run *)

(** An opened input: the [*os.File] and the cursor of the
    [*pcapgo.Reader] on it. *)
Record OpenInput := mkOpenInput {
  in_name : string;
  in_linkType : LinkType;
  in_pending : list ReadOutcome;
  in_closed : bool
}.

Inductive LogMsg :=
  | MsgBanner
  | MsgOpenFailed (path err : string)
  | MsgReaderFailed (name err : string)
  | MsgNoFirstPacket (name : string)
  | MsgMerging (n : nat) (size : Z)
  | MsgWritingTo (path : string)
  | MsgDone (name : string)
  | MsgReadFailed (name err : string)
  | MsgIllegalTimestamp (name : string) (ts prev : Z)
  | MsgEmptyData (name : string)
  | MsgWriteFailed.

Inductive SkipReason := DecodeFailed | TooEarly | EmptyPayload.

#[global] Instance SkipReason_eq_dec : EqDecision SkipReason.
Proof. solve_decision. Defined.

(** A record passed over by [readNext]: the input, the read outcome and
    the branch that passed over it. *)
Record Skip := mkSkip {
  sk_input : nat;
  sk_outcome : ReadOutcome;
  sk_reason : SkipReason
}.

(** One call of [pcapgo.Writer.WritePacket] and whether it succeeded. *)
Record SinkCall := mkSinkCall {
  sc_ci : CaptureInfo;
  sc_data : list Z;
  sc_ok : bool
}.

(** The mutable state: the table of opened inputs (a packet's [Reader]
    and [InputFile] index it), the package-level variable
    [previousTimestamp], the calls made on the sink and the lines sent
    to the log, both oldest first.  [skipped] is a history variable:
    the program keeps no such list, it only logs the skips when
    verbose. *)
Record World := mkWorld {
  inputs : list OpenInput;
  previousTimestamp : Z;
  sinkCalls : list SinkCall;
  logged : list LogMsg;
  skipped : list Skip
}.

Definition logIf (verbose : bool) (m : LogMsg) (w : World) : World :=
  if verbose
  then mkWorld (inputs w) (previousTimestamp w) (sinkCalls w)
               (logged w ++ [m]) (skipped w)
  else w.

Definition noteSkip (s : Skip) (w : World) : World :=
  mkWorld (inputs w) (previousTimestamp w) (sinkCalls w) (logged w)
          (skipped w ++ [s]).

Definition setInputs (ins : list OpenInput) (w : World) : World :=
  mkWorld ins (previousTimestamp w) (sinkCalls w) (logged w) (skipped w).

Definition setPreviousTimestamp (t : Z) (w : World) : World :=
  mkWorld (inputs w) t (sinkCalls w) (logged w) (skipped w).

(** The reader moves its cursor past one record. *)
Definition advance (reader : nat) (rest : list ReadOutcome) (w : World)
  : World :=
  match inputs w !! reader with
  | Some inp =>
      setInputs (<[reader := mkOpenInput (in_name inp) (in_linkType inp)
                               rest (in_closed inp)]> (inputs w)) w
  | None => w
  end.

(** [inputFile.Close()]. *)
Definition closeFile (file : nat) (w : World) : World :=
  match inputs w !! file with
  | Some inp =>
      setInputs (<[file := mkOpenInput (in_name inp) (in_linkType inp)
                             (in_pending inp) true]> (inputs w)) w
  | None => w
  end.

Definition fileName (file : nat) (w : World) : string :=
  match inputs w !! file with
  | Some inp => in_name inp
  | None => ""%string
  end.

(** ** [readNext] *)

(** The loop of [readNext], by recursion on what the reader has left:
    [pending] is the reader's cursor on entry. *)
Fixpoint readLoop (pending : list ReadOutcome) (reader file : nat)
    (verbose isInit : bool) (w : World) : World * option Packet :=
  match pending with
  | [] =>
      (* io.EOF *)
      (closeFile file (logIf verbose (MsgDone (fileName file w)) w), None)
  | ReadErr err :: rest =>
      let w := advance reader rest w in
      let w := logIf verbose (MsgReadFailed (fileName file w) err) w in
      readLoop rest reader file verbose isInit
        (noteSkip (mkSkip reader (ReadErr err) DecodeFailed) w)
  | ReadOK captureInfo data :: rest =>
      let w := advance reader rest w in
      let timestamp := UnixNano (ci_Timestamp captureInfo) in
      if negb isInit
         && bool_decide (Int64.add timestamp oneHour < previousTimestamp w)
      then
        let w := logIf verbose
                   (MsgIllegalTimestamp (fileName file w)
                      (ci_Timestamp captureInfo) (previousTimestamp w)) w in
        readLoop rest reader file verbose isInit
          (noteSkip (mkSkip reader (ReadOK captureInfo data) TooEarly) w)
      else if bool_decide (length data = 0%nat)
      then
        let w := logIf verbose (MsgEmptyData (fileName file w)) w in
        readLoop rest reader file verbose isInit
          (noteSkip (mkSkip reader (ReadOK captureInfo data) EmptyPayload) w)
      else
        (w, Some (mkPacket timestamp captureInfo data reader file))
  end.

(** [readNext]; [None] is the [io.EOF] return.  A [reader] outside the
    table has nothing to read. *)
Definition readNext (reader file : nat) (verbose isInit : bool) (w : World)
  : World * option Packet :=
  match inputs w !! reader with
  | Some inp => readLoop (in_pending inp) reader file verbose isInit w
  | None => (w, None)
  end.

(** ** [write] *)

Definition write (env : Env) (packetToWrite : Packet) (verbose : bool)
    (w : World) : World :=
  let ok := sinkAccepts env (length (sinkCalls w))
              (CaptureInfoOf packetToWrite) (Data packetToWrite) in
  let w := mkWorld (inputs w) (previousTimestamp w)
             (sinkCalls w ++
                [mkSinkCall (CaptureInfoOf packetToWrite)
                   (Data packetToWrite) ok])
             (logged w) (skipped w) in
  let w := logIf (negb ok && verbose) MsgWriteFailed w in
  setPreviousTimestamp (Timestamp packetToWrite) w.

(** ** [initHeapWithInputFiles] *)

(** The locals of [initHeapWithInputFiles] that outlive an iteration. *)
Record InitState := mkInitState {
  totalInputSizeBytes : Z;
  linkType : LinkType;
  minTimeHeap : minheap.PacketHeap;
  world : World
}.

(** The body of the loop over the input paths. *)
Definition initOne (env : Env) (verbose : bool) (st : InitState)
    (inputPcapPath : string) : InitState :=
  let w := world st in
  match fs env inputPcapPath with
  | NoFile err =>
      mkInitState (totalInputSizeBytes st) (linkType st) (minTimeHeap st)
        (logIf verbose (MsgOpenFailed inputPcapPath err) w)
  | NotPcap err =>
      let w := setInputs
                 (inputs w ++
                    [mkOpenInput inputPcapPath LinkTypeNull [] false]) w in
      mkInitState (totalInputSizeBytes st) (linkType st) (minTimeHeap st)
        (logIf verbose (MsgReaderFailed inputPcapPath err) w)
  | Pcap lt size recs =>
      let reader := length (inputs w) in
      let w := setInputs
                 (inputs w ++ [mkOpenInput inputPcapPath lt recs false]) w in
      let total := totalInputSizeBytes st + size in
      let linkType :=
        if bool_decide (linkType st = LinkTypeNull) then lt
        else if bool_decide (linkType st ≠ lt) then LinkTypeEthernet
        else linkType st in
      match readNext reader reader verbose true w with
      | (w, None) =>
          mkInitState total linkType (minTimeHeap st)
            (logIf verbose (MsgNoFirstPacket inputPcapPath) w)
      | (w, Some nextPacket) =>
          let h := heap.Push (minTimeHeap st) nextPacket in
          let w :=
            if bool_decide (previousTimestamp w = 0)
            then setPreviousTimestamp (Timestamp nextPacket) w
            else if bool_decide (Timestamp nextPacket < previousTimestamp w)
            then setPreviousTimestamp (Timestamp nextPacket) w
            else w in
          mkInitState total linkType h w
      end
  end.

(** [initHeapWithInputFiles]: the result pairs the link type with the
    returned error, and comes with the heap and the state it leaves. *)
Definition initHeapWithInputFiles (env : Env) (inputFilePaths : list string)
    (h : minheap.PacketHeap) (verbose : bool) (w : World)
  : (LinkType * option string) * minheap.PacketHeap * World :=
  let st := foldl (initOne env verbose) (mkInitState 0 LinkTypeNull h w)
              inputFilePaths in
  let w := logIf verbose
             (MsgMerging (minheap.Len (minTimeHeap st))
                (totalInputSizeBytes st)) (world st) in
  ((linkType st, None), minTimeHeap st, w).

(** ** The merge loop *)

(** How a loop of the model ends: normally, by a Go panic, or because
    the model's bound on the number of iterations was reached (which
    the termination lemmas exclude). *)
Inductive Run (A : Type) :=
  | Ok (a : A)
  | Panics
  | OutOfFuel.
Arguments Ok {A} a.
Arguments Panics {A}.
Arguments OutOfFuel {A}.

(** The inner [for] of [joincap]: read on from the input of the packet
    just written. *)
Fixpoint innerLoop (fuel : nat) (env : Env) (verbose : bool)
    (earliestPacket : Packet) (earliestHeapTime : Z)
    (h : minheap.PacketHeap) (w : World)
  : Run (minheap.PacketHeap * World) :=
  match fuel with
  | O => OutOfFuel
  | S fuel' =>
      match readNext (Reader earliestPacket) (InputFile earliestPacket)
              verbose false w with
      | (w, None) => Ok (h, w)
      | (w, Some nextPacket) =>
          if bool_decide (Timestamp nextPacket <= earliestHeapTime)
          then innerLoop fuel' env verbose earliestPacket earliestHeapTime h
                 (write env nextPacket verbose w)
          else Ok (heap.Push h nextPacket, w)
      end
  end.

(** Reads left to the reader with index [reader]. *)
Definition pendingOf (reader : nat) (w : World) : list ReadOutcome :=
  match inputs w !! reader with
  | Some inp => in_pending inp
  | None => []
  end.

Definition totalPending (w : World) : nat :=
  sum_list_with (λ inp, length (in_pending inp)) (inputs w).

(** The outer [for minTimeHeap.Len() > 0]. *)
Fixpoint mergeLoop (fuel : nat) (env : Env) (verbose : bool)
    (h : minheap.PacketHeap) (w : World) : Run World :=
  match fuel with
  | O => OutOfFuel
  | S fuel' =>
      if bool_decide (0 < minheap.Len h)%nat then
        match heap.Pop h with
        | None => Panics
        | Some (earliestPacket, h) =>
            let w := write env earliestPacket verbose w in
            let earliestHeapTime :=
              match h with
              | p :: _ => Timestamp p
              | [] => 0
              end in
            match innerLoop (S (length (pendingOf (Reader earliestPacket) w)))
                    env verbose earliestPacket earliestHeapTime h w with
            | Ok (h, w) => mergeLoop fuel' env verbose h w
            | Panics => Panics
            | OutOfFuel => OutOfFuel
            end
        end
      else Ok w
  end.

Definition mergeFuel (h : minheap.PacketHeap) (w : World) : nat :=
  S (2 * totalPending w + length h).

(** ** [joincap] *)

Inductive JoincapError :=
  | ErrCmdFlags (err : string)
  | ErrCannotInitialize (err : string)
  | ErrCannotOpenOutput (path : string).

(** What a call of [joincap] leaves behind: the returned error ([Ok
    None] is the nil return), the arguments of [WriteFileHeader] when it
    was called, and the final state. *)
Record Outcome := mkOutcome {
  returned : Run (option JoincapError);
  fileHeader : option (Z * LinkType);
  final : World
}.

(** [joincap], from a state [w] of the process.  What it prints on
    standard output for [-h] and [-V] is left out. *)
Definition joincap (env : Env) (args : list string) (w : World) : Outcome :=
  match ParseArgs env args with
  | ParseHelp => mkOutcome (Ok None) None w
  | ParseError err => mkOutcome (Ok (Some (ErrCmdFlags err))) None w
  | Parsed cmdFlags =>
      if Version cmdFlags then mkOutcome (Ok None) None w
      else
        let w := logIf (Verbose cmdFlags) MsgBanner w in
        let minTimeHeap := heap.Init in
        match InFiles cmdFlags with
        | [] => mkOutcome Panics None w (* InFiles[1:] of an empty slice *)
        | _ :: inputFilePaths =>
            match initHeapWithInputFiles env inputFilePaths minTimeHeap
                    (Verbose cmdFlags) w with
            | ((_, Some err), _, w) =>
                mkOutcome (Ok (Some (ErrCannotInitialize err))) None w
            | ((linkType, None), minTimeHeap, w) =>
                if negb (String.eqb (OutputFilePath cmdFlags) "-")
                   && negb (canCreate env (OutputFilePath cmdFlags))
                then mkOutcome
                       (Ok (Some (ErrCannotOpenOutput
                                    (OutputFilePath cmdFlags)))) None w
                else
                  let w := logIf (Verbose cmdFlags)
                             (MsgWritingTo
                                (if String.eqb (OutputFilePath cmdFlags) "-"
                                 then "/dev/stdout"
                                 else OutputFilePath cmdFlags)) w in
                  let header := Some (maxSnaplen, linkType) in
                  match mergeLoop (mergeFuel minTimeHeap w) env
                          (Verbose cmdFlags) minTimeHeap w with
                  | Ok w => mkOutcome (Ok None) header w
                  | Panics => mkOutcome Panics header w
                  | OutOfFuel => mkOutcome OutOfFuel header w
                  end
            end
        end
  end.

(** The state of a fresh process. *)
Definition freshWorld : World := mkWorld [] 0 [] [] [].

(** ** Reading, as a function of the stream *)

Inductive Verdict :=
  | Reject (why : SkipReason)
  | Accept (ci : CaptureInfo) (data : list Z).

(** What the body of [readNext]'s loop decides for one read outcome,
    given the value of [previousTimestamp]. *)
Definition judge (prev : Z) (isInit : bool) (o : ReadOutcome) : Verdict :=
  match o with
  | ReadErr _ => Reject DecodeFailed
  | ReadOK ci data =>
      if negb isInit
         && bool_decide (Int64.add (UnixNano (ci_Timestamp ci)) oneHour < prev)
      then Reject TooEarly
      else if bool_decide (length data = 0%nat) then Reject EmptyPayload
      else Accept ci data
  end.

(** The records [readNext] passes over, and the packet it returns with
    the reads left after it ([None] at the end of the file). *)
Fixpoint scan (prev : Z) (isInit : bool) (reader : nat)
    (pending : list ReadOutcome)
  : list Skip * option (Packet * list ReadOutcome) :=
  match pending with
  | [] => ([], None)
  | o :: rest =>
      match judge prev isInit o with
      | Reject why =>
          let '(sk, r) := scan prev isInit reader rest in
          (mkSkip reader o why :: sk, r)
      | Accept ci data =>
          ([], Some (mkPacket (UnixNano (ci_Timestamp ci)) ci data
                       reader reader, rest))
      end
  end.

(** The input [inp] after a [readNext] that ended as [r]. *)
Definition afterRead (inp : OpenInput)
    (r : option (Packet * list ReadOutcome)) : OpenInput :=
  match r with
  | Some (_, rest) =>
      mkOpenInput (in_name inp) (in_linkType inp) rest (in_closed inp)
  | None => mkOpenInput (in_name inp) (in_linkType inp) [] true
  end.

(** ** One iteration of the merge loop *)

(** The body of the outer loop of [joincap], for a heap that is not
    empty: pop, write, and read on from the same input. *)
Definition mergeIter (env : Env) (verbose : bool) (h : minheap.PacketHeap)
    (w : World) : Run (minheap.PacketHeap * World) :=
  match heap.Pop h with
  | None => Panics
  | Some (earliestPacket, h) =>
      let w := write env earliestPacket verbose w in
      let earliestHeapTime :=
        match h with
        | p :: _ => Timestamp p
        | [] => 0
        end in
      innerLoop (S (length (pendingOf (Reader earliestPacket) w)))
        env verbose earliestPacket earliestHeapTime h w
  end.

(** The threshold the inner loop compares with: the timestamp at the
    root of the heap, or 0 for the empty heap. *)
Definition thresholdOf (h : minheap.PacketHeap) : Z :=
  match h with
  | p :: _ => Timestamp p
  | [] => 0
  end.

(** Packets as [readNext] builds them, for inputs of the table. *)
Definition wfPacket (w : World) (p : Packet) : Prop :=
  (Reader p < length (inputs w))%nat ∧
  InputFile p = Reader p ∧
  Timestamp p = UnixNano (ci_Timestamp (CaptureInfoOf p)).

(** ** Initialisation, case by case *)

(** The link type after an input with link type [lt] has been opened,
    when it was [cur] before. *)
Definition resolveLinkType (cur lt : LinkType) : LinkType :=
  if bool_decide (cur = LinkTypeNull) then lt
  else if bool_decide (cur ≠ lt) then LinkTypeEthernet
  else cur.

(** What one iteration of the loop of [initHeapWithInputFiles] does,
    apart from the log and from [previousTimestamp]: nothing for a path
    that cannot be opened; a new entry of the table for a file that is
    no capture; and for a capture, a new entry and the first accepted
    record pushed on the heap, or a closed entry when no record is
    accepted. *)
Inductive InitStep (env : Env) (path : string) (st st' : InitState) : Prop :=
  | InitNoFile err :
      fs env path = NoFile err →
      inputs (world st') = inputs (world st) →
      skipped (world st') = skipped (world st) →
      minTimeHeap st' = minTimeHeap st →
      linkType st' = linkType st →
      InitStep env path st st'
  | InitNotPcap err :
      fs env path = NotPcap err →
      inputs (world st') =
        inputs (world st) ++ [mkOpenInput path LinkTypeNull [] false] →
      skipped (world st') = skipped (world st) →
      minTimeHeap st' = minTimeHeap st →
      linkType st' = linkType st →
      InitStep env path st st'
  | InitNoPacket lt size recs sk :
      fs env path = Pcap lt size recs →
      recs = map sk_outcome sk →
      Forall (λ s, sk_input s = length (inputs (world st)) ∧
                   judge (previousTimestamp (world st)) true (sk_outcome s)
                     = Reject (sk_reason s)) sk →
      inputs (world st') =
        inputs (world st) ++ [mkOpenInput path lt [] true] →
      skipped (world st') = skipped (world st) ++ sk →
      minTimeHeap st' = minTimeHeap st →
      linkType st' = resolveLinkType (linkType st) lt →
      InitStep env path st st'
  | InitPacket lt size recs sk ci data rest :
      fs env path = Pcap lt size recs →
      recs = map sk_outcome sk ++ ReadOK ci data :: rest →
      Forall (λ s, sk_input s = length (inputs (world st)) ∧
                   judge (previousTimestamp (world st)) true (sk_outcome s)
                     = Reject (sk_reason s)) sk →
      data ≠ [] →
      inputs (world st') =
        inputs (world st) ++ [mkOpenInput path lt rest false] →
      skipped (world st') = skipped (world st) ++ sk →
      minTimeHeap st' =
        heap.Push (minTimeHeap st)
          (mkPacket (UnixNano (ci_Timestamp ci)) ci data
             (length (inputs (world st))) (length (inputs (world st)))) →
      linkType st' = resolveLinkType (linkType st) lt →
      InitStep env path st st'.

(** ** The stages of [joincap] *)

(** The call gets to the merge: the command line parses to the flags
    [f] without [-V], it names the program and the input [paths], and
    the output is standard output or can be created. *)
Definition Merges (env : Env) (args : list string) (f : CmdFlags)
    (paths : list string) : Prop :=
  ParseArgs env args = Parsed f ∧
  Version f = false ∧
  (∃ prog, InFiles f = prog :: paths) ∧
  (OutputFilePath f = "-"%string ∨ canCreate env (OutputFilePath f) = true).

(** The locals of [initHeapWithInputFiles] when its loop ends, in a
    call of [joincap] from the state [w]. *)
Definition afterInit (env : Env) (f : CmdFlags) (paths : list string)
    (w : World) : InitState :=
  foldl (initOne env (Verbose f))
    (mkInitState 0 LinkTypeNull heap.Init (logIf (Verbose f) MsgBanner w))
    paths.

(** The state in which the merge loop starts. *)
Definition mergeStart (env : Env) (f : CmdFlags) (paths : list string)
    (w : World) : World :=
  logIf (Verbose f)
    (MsgWritingTo (if String.eqb (OutputFilePath f) "-"
                   then "/dev/stdout" else OutputFilePath f))
    (logIf (Verbose f)
       (MsgMerging (minheap.Len (minTimeHeap (afterInit env f paths w)))
          (totalInputSizeBytes (afterInit env f paths w)))
       (world (afterInit env f paths w))).

(** The link types of the paths that open as captures, in order. *)
Definition parsedLinkTypes (env : Env) (paths : list string)
  : list LinkType :=
  omap (λ path, match fs env path with
                | Pcap lt _ _ => Some lt
                | _ => None
                end) paths.

(** [initHeapWithInputFiles] passes over the input: it does not open,
    it is no capture, or none of its reads gives a record that an
    initialisation read accepts. *)
Definition skipsInput (env : Env) (path : string) : Prop :=
  match fs env path with
  | NoFile _ | NotPcap _ => True
  | Pcap _ _ recs =>
      Forall (λ o, ∃ why, judge 0 true o = Reject why) recs
  end.

(** The records handed to the sink, and those it took. *)
Definition handed (w : World) : list (CaptureInfo * list Z) :=
  map (λ c, (sc_ci c, sc_data c)) (sinkCalls w).

Definition outputRecords (w : World) : list (CaptureInfo * list Z) :=
  map (λ c, (sc_ci c, sc_data c)) (filter (λ c, sc_ok c = true) (sinkCalls w)).

(** ** A small file system to run the program on *)

Module demo.
#[local] Open Scope string_scope.

Definition pkt (t : Z) : ReadOutcome := ReadOK (mkCaptureInfo t 1 1) [0].

(** [a.pcap] and [b.pcap] are two Ethernet captures in time order;
    [lo.pcap] is a capture of a loopback interface (link type 0),
    [raw.pcap] a raw IP capture, [empty.pcap] a capture without records,
    [hollow.pcap] one whose first record has no payload, [late.pcap] one
    whose second record is two hours before its first, [junk] no capture
    at all; nothing else exists. *)
Definition files (path : string) : FileContent :=
  if String.eqb path "a.pcap" then
    Pcap LinkTypeEthernet 72 [pkt 10; pkt 20; pkt 30]
  else if String.eqb path "b.pcap" then
    Pcap LinkTypeEthernet 56 [pkt 15; pkt 25]
  else if String.eqb path "lo.pcap" then Pcap LinkTypeNull 40 [pkt 5]
  else if String.eqb path "raw.pcap" then Pcap LinkTypeRaw 40 [pkt 7]
  else if String.eqb path "empty.pcap" then Pcap LinkTypeEthernet 24 []
  else if String.eqb path "hollow.pcap" then
    Pcap LinkTypeEthernet 56 [ReadOK (mkCaptureInfo 40 0 0) []; pkt 50]
  else if String.eqb path "late.pcap" then
    Pcap LinkTypeEthernet 56 [pkt (3 * oneHour); pkt oneHour; pkt (4 * oneHour)]
  else if String.eqb path "junk" then NotPcap "unknown magic"
  else NoFile "no such file or directory".

(** Every argument is positional, the first being the program name;
    the output goes to standard output. *)
Definition parse (verbose : bool) (args : list string) : ParseResult :=
  match args with
  | [] => ParseError "the required argument was not provided"
  | _ => Parsed (mkCmdFlags verbose false "-" args)
  end.

Definition env : Env := mkEnv (parse false) files (λ _, true) (λ _ _ _, true).

(** The same, with a sink that fails from its second call on. *)
Definition envFailing : Env :=
  mkEnv (parse true) files (λ _, true) (λ k _ _, bool_decide (k < 1)%nat).

Definition flagsOf (args : list string) : CmdFlags :=
  mkCmdFlags false false "-" args.

End demo.

(** ** A run without its log and without the answers of the sink *)

(** The state with the log and the answers of the sink forgotten. *)
Definition quiet (w : World) : World :=
  mkWorld (inputs w) (previousTimestamp w)
    (map (λ c, mkSinkCall (sc_ci c) (sc_data c) true) (sinkCalls w))
    [] (skipped w).

Definition quietOutcome (o : Outcome) : Outcome :=
  mkOutcome (returned o) (fileHeader o) (quiet (final o)).

Definition quietFlags (f : CmdFlags) : CmdFlags :=
  mkCmdFlags false (Version f) (OutputFilePath f) (InFiles f).

(** The same environment, with a sink that takes every record. *)
Definition alwaysAccepts (env : Env) : Env :=
  mkEnv (ParseArgs env) (fs env) (canCreate env) (λ _ _ _, true).

(** The same environment, with a sink that takes every record and a
    command line that never asks for the log. *)
Definition quietEnv (env : Env) : Env :=
  mkEnv (λ args, match ParseArgs env args with
                 | Parsed f => Parsed (quietFlags f)
                 | r => r
                 end)
    (fs env) (canCreate env) (λ _ _ _, true).

Definition quietRun {A} (r : Run (A * World)) : Run (A * World) :=
  match r with
  | Ok (a, w) => Ok (a, quiet w)
  | Panics => Panics
  | OutOfFuel => OutOfFuel
  end.

Definition quietInit (st : InitState) : InitState :=
  mkInitState (totalInputSizeBytes st) (linkType st) (minTimeHeap st)
    (quiet (world st)).

(** ** One pending record per source *)

(** The input with index [r] is open. *)
Definition activeReader (w : World) (r : nat) : Prop :=
  ∃ inp, inputs w !! r = Some inp ∧ in_closed inp = false.

(** No two packets of the heap come from the same input, and each
    comes from an open input. *)
Definition onePerSource (h : minheap.PacketHeap) (w : World) : Prop :=
  NoDup (map Reader h) ∧
  Forall (λ p, activeReader w (Reader p) ∧ InputFile p = Reader p) h.

(** An initialisation read accepts the outcome. *)
Definition acceptsInit (o : ReadOutcome) : bool :=
  match judge 0 true o with
  | Accept _ _ => true
  | Reject _ => false
  end.

(** The input survives initialisation: it is a capture with a record
    that an initialisation read accepts. *)
Definition survives (env : Env) (path : string) : bool :=
  match fs env path with
  | Pcap _ _ recs => existsb acceptsInit recs
  | _ => false
  end.

(** The heaps and states at the head of the iterations of the merge
    loop started with [h0] in [w0]. *)
Inductive Reachable (env : Env) (v : bool) (h0 : minheap.PacketHeap)
    (w0 : World) : minheap.PacketHeap → World → Prop :=
  | ReachStart : Reachable env v h0 w0 h0 w0
  | ReachIter h w h' w' :
      Reachable env v h0 w0 h w →
      mergeIter env v h w = Ok (h', w') →
      Reachable env v h0 w0 h' w'.

(** ** Counting records *)

(** The state of the process when [joincap] is called: nothing is open
    and nothing was written; [prev] is what earlier calls in the same
    process left in [previousTimestamp]. *)
Definition startWorld (prev : Z) : World := mkWorld [] prev [] [] [].

(** The reads, up to the end of the file, of the captures among the
    paths. *)
Definition totalRecords (env : Env) (paths : list string) : nat :=
  sum_list_with (λ path, match fs env path with
                         | Pcap _ _ recs => length recs
                         | _ => 0%nat
                         end) paths.

(** Every read of every input is accounted for: it was passed over, or
    handed to the sink, or it waits on the heap or in its input; and an
    input with reads left has a packet on the heap. *)
Definition accounted (N : nat) (h : minheap.PacketHeap) (w : World) : Prop :=
  (length (sinkCalls w) + length (skipped w) + length h + totalPending w
   = N)%nat ∧
  (∀ r inp, inputs w !! r = Some inp → in_pending inp ≠ [] →
            ∃ p, p ∈ h ∧ Reader p = r) ∧
  Forall (λ p, InputFile p = Reader p) h.

Definition decodes (o : ReadOutcome) : Prop :=
  match o with
  | ReadOK _ _ => True
  | ReadErr _ => False
  end.

(** The records dropped by the checks on the timestamp and on the
    payload. *)
Definition anomalyRejections (w : World) : list Skip :=
  filter (λ s, sk_reason s ≠ DecodeFailed) (skipped w).

(** Every pending read decodes, and so did every record passed over. *)
Definition allDecode (w : World) : Prop :=
  Forall (λ inp, Forall decodes (in_pending inp)) (inputs w) ∧
  Forall (λ s, sk_reason s ≠ DecodeFailed) (skipped w).

(** Each recorded answer of the sink is an answer of the sink. *)
Definition answered (env : Env) (w : World) : Prop :=
  Forall (λ c, ∃ k, sc_ok c = sinkAccepts env k (sc_ci c) (sc_data c))
    (sinkCalls w).

(** ** Time order *)

(** The timestamps of the records that decode, in the order of the
    reads. *)
Definition stamps (pending : list ReadOutcome) : list Z :=
  omap (λ o, match o with
             | ReadOK ci _ => Some (UnixNano (ci_Timestamp ci))
             | ReadErr _ => None
             end) pending.

(** A capture is in time order when the timestamps of its records never
    decrease from one record to the next. *)
Definition timeOrdered (recs : list ReadOutcome) : Prop :=
  Sorted Z.le (stamps recs).

Definition callStamp (c : SinkCall) : Z := UnixNano (ci_Timestamp (sc_ci c)).

Definition recordStamp (r : CaptureInfo * list Z) : Z :=
  UnixNano (ci_Timestamp r.1).

Definition sourcesSorted (w : World) : Prop :=
  Forall (λ inp, StronglySorted Z.le (stamps (in_pending inp))) (inputs w).

(** The invariant of the merge of inputs in time order: the heap is in
    heap order; what an input still holds is in time order and not
    before the packet it has on the heap; what was handed to the sink
    is in time order and not after any packet of the heap. *)
Definition inOrder (h : minheap.PacketHeap) (w : World) : Prop :=
  Forall (wfPacket w) h ∧
  heap_order.ordered h ∧
  sourcesSorted w ∧
  (∀ p, p ∈ h →
        Forall (λ t, Timestamp p <= t) (stamps (pendingOf (Reader p) w))) ∧
  StronglySorted Z.le (map callStamp (sinkCalls w)) ∧
  (∀ c p, c ∈ sinkCalls w → p ∈ h → callStamp c <= Timestamp p).

(** ** Calls in the same process *)

(** The state in which the next call of [joincap] in the same process
    starts: of the state a call leaves, only the package-level variable
    [previousTimestamp] is seen by the next call. *)
Definition nextRun (w : World) : World := startWorld (previousTimestamp w).

(** The state, [previousTimestamp] apart. *)
Definition forget (w : World) : World := setPreviousTimestamp 0 w.

(** What a call did, the final value of [previousTimestamp] apart: what
    it returned, the file header, the records handed to the sink with
    the answers of the sink, the records passed over, the log and the
    inputs as the call left them. *)
Definition forgetOutcome (o : Outcome) : Outcome :=
  mkOutcome (returned o) (fileHeader o) (forget (final o)).

Definition forgetInit (st : InitState) : InitState :=
  mkInitState (totalInputSizeBytes st) (linkType st) (minTimeHeap st)
    (forget (world st)).

(** ** One input read to its end *)

(** The records of one input that non-initialisation reads accept when
    the input is read to its end, each record being judged against the
    timestamp of the record accepted before it ([prev] for the
    first). *)
Fixpoint drain (prev : Z) (pending : list ReadOutcome)
  : list (CaptureInfo * list Z) :=
  match pending with
  | [] => []
  | o :: rest =>
      match judge prev false o with
      | Accept ci data =>
          (ci, data) :: drain (UnixNano (ci_Timestamp ci)) rest
      | Reject _ => drain prev rest
      end
  end.

(** ** [main] *)

(** [main]: [joincap] on the arguments of the process; the error it
    returns, if any, goes to the log through [log.Println].  The result
    pairs what [joincap] left with the errors printed. *)
Definition main (env : Env) (osArgs : list string) (w : World)
  : Outcome * list JoincapError :=
  let o := joincap env osArgs w in
  (o, match returned o with
      | Ok (Some err) => [err]
      | _ => []
      end).


(** ** More to run the program on *)

Module scenario.
#[local] Open Scope string_scope.

(** The files of [demo], an output path [-w /ro/out.pcap] that cannot
    be created, and a sink that takes every record. *)
Definition readOnly : Env :=
  mkEnv (λ args, Parsed (mkCmdFlags false false "/ro/out.pcap" args))
    demo.files (λ _, false) (λ _ _ _, true).

End scenario.


(** ** The link type of the header *)

(** The link types from the first that is not [LinkTypeNull] on. *)
Fixpoint afterNull (lts : list LinkType) : list LinkType :=
  match lts with
  | [] => []
  | lt :: rest =>
      if bool_decide (lt = LinkTypeNull) then afterNull rest else lts
  end.


(** ** What becomes of every read *)

(** The reads, up to the end of the file, of what is behind a path:
    none unless it is a capture. *)
Definition recordsOf (env : Env) (path : string) : list ReadOutcome :=
  match fs env path with
  | Pcap _ _ recs => recs
  | _ => []
  end.

(** The reads of all the inputs, in the order of the command line. *)
Definition allReads (env : Env) (paths : list string) : list ReadOutcome :=
  concat (map (recordsOf env) paths).

(** Records, as the reads that yielded them. *)
Definition readBack (rs : list (CaptureInfo * list Z)) : list ReadOutcome :=
  map (λ r, ReadOK r.1 r.2) rs.

Definition onHeap (h : minheap.PacketHeap) : list ReadOutcome :=
  map (λ p, ReadOK (CaptureInfoOf p) (Data p)) h.

Definition passedOver (w : World) : list ReadOutcome :=
  map sk_outcome (skipped w).

Definition allPending (w : World) : list ReadOutcome :=
  concat (map in_pending (inputs w)).

(** Each of the reads [all] is in exactly one place: handed to the
    sink, passed over, on the heap, or still in its input. *)
Definition conserved (all : list ReadOutcome) (h : minheap.PacketHeap)
    (w : World) : Prop :=
  readBack (handed w) ++ passedOver w ++ onHeap h ++ allPending w ≡ₚ all.


(** No packet of the heap and no record handed to the sink has an
    empty payload. *)
Definition withPayload (h : minheap.PacketHeap) (w : World) : Prop :=
  Forall (λ p, Data p ≠ []) h ∧ Forall (λ c, sc_data c ≠ []) (sinkCalls w).


(** ** How far back the output steps *)

(** The timestamp check of [readNext] lets a record with the timestamp
    [t] pass when [previousTimestamp] is [prev]; a record not before
    [prev] counts as well. *)
Definition tolerates (prev t : Z) : Prop :=
  prev <= t ∨ ¬ Int64.add t oneHour < prev.

(** From one call of the sink to the next the timestamp goes back by
    one hour at most. *)
Definition withinOneHour (calls : list SinkCall) : Prop :=
  ∀ i a b, calls !! i = Some a → calls !! S i = Some b →
           callStamp a - oneHour <= callStamp b.

(** The invariant of the merge of arbitrary inputs: the heap is in heap
    order, the calls of the sink are within one hour of each other,
    [previousTimestamp] is the timestamp of the last record handed to
    the sink, and the check lets every packet of the heap pass after
    that record. *)
Definition bounded (h : minheap.PacketHeap) (w : World) : Prop :=
  Forall (wfPacket w) h ∧
  heap_order.ordered h ∧
  withinOneHour (sinkCalls w) ∧
  match last (sinkCalls w) with
  | Some c =>
      previousTimestamp w = callStamp c ∧
      ∀ q, q ∈ h → tolerates (callStamp c) (Timestamp q)
  | None => True
  end.


(** ** Reads that no check rejects *)

(** The read decodes, the record has a payload, and its timestamp plus
    one hour is an [int64]. *)
Definition intact (o : ReadOutcome) : Prop :=
  match o with
  | ReadOK ci data =>
      data ≠ [] ∧ UnixNano (ci_Timestamp ci) + oneHour <= Int64.max_int
  | ReadErr _ => False
  end.

Definition allIntact (w : World) : Prop :=
  Forall (λ inp, Forall intact (in_pending inp)) (inputs w).


(** ** Files left open *)

(** [os.Open] succeeds on the path. *)
Definition opens (env : Env) (path : string) : bool :=
  match fs env path with
  | NoFile _ => false
  | _ => true
  end.

(** [pcapgo.NewReader] succeeds on the file of that name. *)
Definition isCapture (env : Env) (path : string) : bool :=
  match fs env path with
  | Pcap _ _ _ => true
  | _ => false
  end.

(** An open capture has a packet on the heap; a file that is no capture
    is open and no packet of the heap comes from it. *)
Definition tidy (env : Env) (h : minheap.PacketHeap) (w : World) : Prop :=
  Forall (wfPacket w) h ∧
  ∀ r inp, inputs w !! r = Some inp →
    if isCapture env (in_name inp)
    then in_closed inp = false → ∃ p, p ∈ h ∧ Reader p = r
    else in_closed inp = false ∧ ∀ p, p ∈ h → Reader p ≠ r.


(** ** The helpers of the tests *)

Module Uint64.

(** Wrap-around of Go's [uint64] arithmetic. *)
Definition wrap (z : Z) : Z := z mod 2 ^ 64.

End Uint64.

(** What the helpers of main_test.go find behind a path: [os.Open]
    fails, [pcapgo.NewReader] fails, or the file is a capture, with the
    outcomes of the successive calls of [ReadPacketData] up to the end
    of the file.  The helpers never call [SetSnaplen]: their reader
    works under the snapshot length of the header of the file, where
    the reader of [joincap] works under [maxSnaplen].  The reads of one
    file can so differ between the two, and [FileContent], which has
    those of [joincap], does not give those of the helpers. *)
Inductive TestFile :=
  | CannotOpen (err : string)
  | NotACapture (err : string)
  | Capture (reads : list ReadOutcome).

(** The loop of [packetCount], on what the reader has left; the
    argument [packetCount] is the counter on entry. *)
Fixpoint packetCountLoop (pending : list ReadOutcome) (packetCount : Z)
  : Z * option string :=
  match pending with
  | [] => (packetCount, None) (* io.EOF *)
  | ReadErr err :: _ => (0, Some err)
  | ReadOK _ _ :: rest =>
      packetCountLoop rest (Uint64.wrap (packetCount + 1))
  end.

(** [packetCount] of main_test.go, on the [files] as the helpers read
    them: the count and the returned error ([None] is nil). *)
Definition packetCount (files : string → TestFile) (pcapPath : string)
  : Z * option string :=
  match files pcapPath with
  | CannotOpen err => (0, Some err)
  | NotACapture err => (0, Some err)
  | Capture reads => packetCountLoop reads 0
  end.

(** The loop of [isTimeOrdered]; [previousTime] is the local of that
    name on entry. *)
Fixpoint isTimeOrderedLoop (pending : list ReadOutcome) (previousTime : Z)
  : bool * option string :=
  match pending with
  | [] => (true, None) (* io.EOF *)
  | ReadErr err :: _ => (false, Some err)
  | ReadOK capInfo _ :: rest =>
      let currentTime := UnixNano (ci_Timestamp capInfo) in
      if bool_decide (currentTime < previousTime) then (false, None)
      else isTimeOrderedLoop rest currentTime
  end.

(** [isTimeOrdered] of main_test.go, on the [files] as the helpers read
    them. *)
Definition isTimeOrdered (files : string → TestFile) (pcapPath : string)
  : bool * option string :=
  match files pcapPath with
  | CannotOpen err => (false, Some err)
  | NotACapture err => (false, Some err)
  | Capture reads => isTimeOrderedLoop reads 0
  end.

(** The error of the first read that fails, if any. *)
Definition firstError (pending : list ReadOutcome) : option string :=
  head (omap (λ o, match o with
                   | ReadErr err => Some err
                   | ReadOK _ _ => None
                   end) pending).

(** The helpers read the file as [joincap] does: it opens for both or
    for neither, it is a capture for both or for neither, and the reads
    under the snapshot length of its header are those under
    [maxSnaplen].  A capture with a record longer than the snapshot
    length of its header is not read alike: that read is a record for
    [joincap] and an error for the helpers. *)
Definition readsAlike (c : FileContent) (t : TestFile) : Prop :=
  match c, t with
  | NoFile err, CannotOpen err' => err' = err
  | NotPcap err, NotACapture err' => err' = err
  | Pcap _ _ recs, Capture reads => reads = recs
  | _, _ => False
  end.

(** The helpers find at [out] the records the sink took: the file is a
    capture, each of its reads decodes, and the timestamps read are, in
    order, those of the records the sink took, each as the file keeps
    it.  [stored] is what a capture file keeps of a timestamp given as
    [int64] nanoseconds; the file has no nanoseconds when it is written
    with microsecond resolution. *)
Definition holdsOutput (stored : Z → Z) (files : string → TestFile)
    (out : string) (w : World) : Prop :=
  ∃ reads, files out = Capture reads ∧
           Forall decodes reads ∧
           stamps reads = map (λ r, stored (recordStamp r)) (outputRecords w).

(** What the file keeps of the timestamps [ts] is in their order, and
    not below 0 where they are not. *)
Definition keepsOrder (stored : Z → Z) (ts : list Z) : Prop :=
  (∀ a b, a ∈ ts → b ∈ ts → a <= b → stored a <= stored b) ∧
  (∀ a, a ∈ ts → 0 <= a → 0 <= stored a).

(** The sum, in [uint64] arithmetic, of what [packetCount] counts in
    each of the paths. *)
Definition totalCount (files : string → TestFile) (paths : list string) : Z :=
  foldr (λ path n, Uint64.wrap ((packetCount files path).1 + n)) 0 paths.


(** ** A run without its log *)

(** The state with the log forgotten. *)
Definition silent (w : World) : World :=
  mkWorld (inputs w) (previousTimestamp w) (sinkCalls w) [] (skipped w).

Definition silentOutcome (o : Outcome) : Outcome :=
  mkOutcome (returned o) (fileHeader o) (silent (final o)).

(** The same environment, with a command line that never asks for the
    log: [-v] is dropped. *)
Definition silentEnv (env : Env) : Env :=
  mkEnv (λ args, match ParseArgs env args with
                 | Parsed f => Parsed (quietFlags f)
                 | r => r
                 end)
    (fs env) (canCreate env) (sinkAccepts env).

Definition silentRun {A} (r : Run (A * World)) : Run (A * World) :=
  match r with
  | Ok (a, w) => Ok (a, silent w)
  | Panics => Panics
  | OutOfFuel => OutOfFuel
  end.

Definition silentInit (st : InitState) : InitState :=
  mkInitState (totalInputSizeBytes st) (linkType st) (minTimeHeap st)
    (silent (world st)).


(** ** What the log explains *)

(** The reason a line of the log gives for passing over a record. *)
Definition reasonOfMsg (m : LogMsg) : option SkipReason :=
  match m with
  | MsgReadFailed _ _ => Some DecodeFailed
  | MsgIllegalTimestamp _ _ _ => Some TooEarly
  | MsgEmptyData _ => Some EmptyPayload
  | _ => None
  end.

(** The file a line of the log says is skipped. *)
Definition fileOfMsg (m : LogMsg) : option string :=
  match m with
  | MsgOpenFailed path _ => Some path
  | MsgReaderFailed name _ => Some name
  | MsgNoFirstPacket name => Some name
  | _ => None
  end.

(** The log explains every read passed over, in order, and says that
    the [files] are skipped. *)
Definition explained (files : list string) (w : World) : Prop :=
  omap reasonOfMsg (logged w) = map sk_reason (skipped w) ∧
  omap fileOfMsg (logged w) = files.


(** ** The same run on other inputs *)

(** The packet, had it been read from the input with the index that
    [ρ] gives to its input. *)
Definition reindex (ρ : nat → nat) (p : Packet) : Packet :=
  mkPacket (Timestamp p) (CaptureInfoOf p) (Data p)
    (ρ (Reader p)) (ρ (InputFile p)).

(** The state [wb] holds what the state [ws] holds: the same
    [previousTimestamp], the same calls of the sink, and the reads
    pending in each input of [ws] are pending in the input of [wb] that
    [ρ] names, different inputs being given different names. *)
Definition sameRun (ρ : nat → nat) (ws wb : World) : Prop :=
  previousTimestamp ws = previousTimestamp wb ∧
  sinkCalls ws = sinkCalls wb ∧
  (∀ i j, (i < length (inputs ws))%nat → (j < length (inputs ws))%nat →
          ρ i = ρ j → i = j) ∧
  ∀ i inp, inputs ws !! i = Some inp →
    ∃ inp', inputs wb !! ρ i = Some inp' ∧ in_pending inp' = in_pending inp.


(** After the same inputs that survive, the initialisation of [stb]
    is like that of [sts]: the heaps hold the same packets in the same
    slots, and the states hold the same. *)
Definition initRel (ρ : nat → nat) (sts stb : InitState) : Prop :=
  minTimeHeap stb = map (reindex ρ) (minTimeHeap sts) ∧
  sameRun ρ (world sts) (world stb) ∧
  Forall (wfPacket (world sts)) (minTimeHeap sts).


(** ** Why a read is passed over *)

(** The cause recorded for a read passed over is a real one: the read
    failed; or the record has no payload; or its timestamp plus one
    hour, as an [int64], is below the timestamp of a record among the
    [calls] of the sink. *)
Definition justified (calls : list SinkCall) (s : Skip) : Prop :=
  match sk_outcome s, sk_reason s with
  | ReadErr _, DecodeFailed => True
  | ReadOK _ data, EmptyPayload => data = []
  | ReadOK ci _, TooEarly =>
      ∃ c, c ∈ calls ∧
           Int64.add (UnixNano (ci_Timestamp ci)) oneHour < callStamp c
  | _, _ => False
  end.

(** [previousTimestamp] is the timestamp of the last record handed to
    the sink, and every read passed over so far has its cause. *)
Definition droppedForCause (w : World) : Prop :=
  (∀ c, last (sinkCalls w) = Some c → previousTimestamp w = callStamp c) ∧
  Forall (justified (sinkCalls w)) (skipped w).


(** ** One input alone *)

(** The first record that an initialisation read accepts, with the
    reads after it. *)
Fixpoint firstAccepted (pending : list ReadOutcome)
  : option ((CaptureInfo * list Z) * list ReadOutcome) :=
  match pending with
  | [] => None
  | o :: rest =>
      match judge 0 true o with
      | Accept ci data => Some ((ci, data), rest)
      | Reject _ => firstAccepted rest
      end
  end.

(** What is kept of a capture merged alone: the first record that
    decodes and has a payload and, after it, the records that decode,
    have a payload and are not more than an hour before the record kept
    last. *)
Definition kept (recs : list ReadOutcome) : list (CaptureInfo * list Z) :=
  match firstAccepted recs with
  | Some ((ci, data), rest) =>
      (ci, data) :: drain (UnixNano (ci_Timestamp ci)) rest
  | None => []
  end.

(* ================================================================= *)
(** * Properties *)

(** ** The heap *)

Module heap_facts.
Import minheap heap.
Export heap_order.
#[local] Open Scope nat_scope.

Lemma Less_key h i j :
  i < length h → j < length h →
  Less h i j = bool_decide (key h i < key h j)%Z.
Proof.
  intros Hi Hj. unfold Less, key.
  destruct (lookup_lt_is_Some_2 h i Hi) as [a Ha].
  destruct (lookup_lt_is_Some_2 h j Hj) as [b Hb].
  by rewrite Ha, Hb.
Qed.

Lemma Swap_length h i j : length (Swap h i j) = length h.
Proof.
  unfold Swap. destruct (h !! i), (h !! j); try done.
  by rewrite !length_insert.
Qed.

Lemma Swap_lookup h i j k :
  i < length h → j < length h →
  Swap h i j !! k =
    if decide (k = i) then h !! j
    else if decide (k = j) then h !! i else h !! k.
Proof.
  intros Hi Hj. unfold Swap.
  destruct (lookup_lt_is_Some_2 h i Hi) as [a Ha].
  destruct (lookup_lt_is_Some_2 h j Hj) as [b Hb].
  rewrite Ha, Hb.
  destruct (decide (k = i)) as [->|Hki].
  - rewrite list_lookup_insert_eq; [done|]. by rewrite length_insert.
  - rewrite list_lookup_insert_ne by done.
    destruct (decide (k = j)) as [->|Hkj].
    + by rewrite list_lookup_insert_eq.
    + by rewrite list_lookup_insert_ne.
Qed.

Lemma key_Swap h i j k :
  i < length h → j < length h →
  key (Swap h i j) k =
    if decide (k = i) then key h j
    else if decide (k = j) then key h i else key h k.
Proof.
  intros Hi Hj. unfold key. rewrite Swap_lookup by done.
  repeat case_decide; done.
Qed.

Lemma insert_head_perm (l : list Packet) j a b :
  l !! j = Some b → b :: <[j:=a]> l ≡ₚ a :: l.
Proof.
  revert j. induction l as [|c l IH]; intros [|j] Hj; simplify_eq/=.
  - apply perm_swap.
  - rewrite (perm_swap c b), (IH _ Hj). apply perm_swap.
Qed.

Lemma Swap_perm h i j : Swap h i j ≡ₚ h.
Proof.
  unfold Swap.
  destruct (h !! i) as [a|] eqn:Ha; [|done].
  destruct (h !! j) as [b|] eqn:Hb; [|done].
  revert i j Ha Hb.
  induction h as [|c h IH]; intros [|i] [|j] Ha Hb; simplify_eq/=.
  - done.
  - by apply insert_head_perm.
  - by apply insert_head_perm.
  - f_equiv. by apply IH.
Qed.

Lemma up_S fuel h j :
  up (S fuel) h j =
    if bool_decide (parent j = j) || negb (Less h j (parent j)) then h
    else up fuel (Swap h (parent j) j) (parent j).
Proof. reflexivity. Qed.

Lemma down_S fuel h i n :
  down (S fuel) h i n =
    if bool_decide (n ≤ 2 * i + 1) then h
    else
      let j := if bool_decide (2 * i + 1 + 1 < n)
                  && Less h (2 * i + 1 + 1) (2 * i + 1)
               then 2 * i + 1 + 1 else 2 * i + 1 in
      if negb (Less h j i) then h else down fuel (Swap h i j) j n.
Proof. reflexivity. Qed.

Lemma up_length fuel h j : length (up fuel h j) = length h.
Proof.
  revert h j. induction fuel as [|fuel IH]; intros h j; [done|].
  rewrite up_S. destruct (_ || _); [done|]. by rewrite IH, Swap_length.
Qed.

Lemma up_perm fuel h j : up fuel h j ≡ₚ h.
Proof.
  revert h j. induction fuel as [|fuel IH]; intros h j; [done|].
  rewrite up_S. destruct (_ || _); [done|]. by rewrite IH, Swap_perm.
Qed.

Lemma down_length fuel h i n : length (down fuel h i n) = length h.
Proof.
  revert h i. induction fuel as [|fuel IH]; intros h i; [done|].
  rewrite down_S. case_bool_decide; [done|]. simpl.
  destruct (negb _); [done|]. by rewrite IH, Swap_length.
Qed.

Lemma down_perm fuel h i n : down fuel h i n ≡ₚ h.
Proof.
  revert h i. induction fuel as [|fuel IH]; intros h i; [done|].
  rewrite down_S. case_bool_decide; [done|]. simpl.
  destruct (negb _); [done|]. by rewrite IH, Swap_perm.
Qed.

(** [down] below [n] leaves the slots from [n] on alone. *)
Lemma down_lookup_ge fuel h i n k :
  n ≤ length h → i < n → n ≤ k →
  down fuel h i n !! k = h !! k.
Proof.
  revert h i. induction fuel as [|fuel IH]; intros h i Hn Hi Hk; [done|].
  rewrite down_S. case_bool_decide as Hj1; [done|].
  set (j := if _ && _ then _ else _). simpl.
  assert (i < j < n) as Hj.
  { subst j. destruct (_ && _) eqn:E; [|lia].
    apply andb_prop in E as [?%bool_decide_eq_true _]. lia. }
  destruct (negb _); [done|].
  rewrite IH by (rewrite ?Swap_length; lia).
  rewrite Swap_lookup by lia. repeat case_decide; (done || lia).
Qed.

(** *** Sifting up *)

Lemma up_ordered fuel h j :
  j ≤ fuel → j < length h → up_inv h j → ordered (up fuel h j).
Proof.
  revert h j. induction fuel as [|fuel IH]; intros h j Hf Hj [H1 H2].
  - simpl. intros k Hk. apply H1; lia.
  - rewrite up_S.
    destruct (decide (j = 0)) as [->|Hj0].
    { rewrite bool_decide_eq_true_2 by done. simpl.
      intros k Hk. apply H1; lia. }
    assert (parent j < j) as Hp by (unfold parent; lia).
    rewrite bool_decide_eq_false_2 by lia. simpl.
    rewrite Less_key by lia.
    case_bool_decide as Hlt; simpl.
    + apply IH; [lia|rewrite Swap_length; lia|].
      assert (parent j ≠ j) by lia.
      split.
      * intros k Hk Hne. rewrite Swap_length in Hk.
        rewrite !key_Swap by lia.
        destruct (decide (k = j)) as [->|Hkj].
        { clear H1 H2 IH. generalize dependent (parent j).
          intros. repeat case_decide; subst; lia. }
        pose proof (H1 k Hk) as F1. pose proof (H2 k Hk) as F2.
        assert (parent k < k) by (unfold parent; lia).
        clear H1 H2 IH.
        generalize dependent (parent k). generalize dependent (parent j).
        intros. repeat case_decide; subst; lia.
      * intros k Hk Hpos Hpk. rewrite Swap_length in Hk.
        rewrite !key_Swap by lia.
        pose proof (H1 k Hk) as F1.
        assert (key h (parent (parent j)) ≤ key h (parent j))%Z as Hgp
          by (apply H1; lia).
        assert (parent (parent j) < parent j)
          by (unfold parent in *; lia).
        assert (k ≠ parent j) by (unfold parent in *; lia).
        rewrite Hpk in F1. clear H1 H2 IH Hpk.
        generalize dependent (parent (parent j)).
        generalize dependent (parent j).
        intros. repeat case_decide; subst; lia.
    + intros k Hk. destruct (decide (k = j)) as [->|Hkj]; [lia|].
      by apply H1.
Qed.

(** *** Sifting down *)

Lemma down_ordered fuel h i n :
  n - i ≤ fuel → n ≤ length h → down_inv n h i →
  ordered_below n (down fuel h i n).
Proof.
  revert h i. induction fuel as [|fuel IH]; intros h i Hf Hn [H1 H2].
  - cbn [down]. intros k Hk. apply H1; [done|]. unfold parent. lia.
  - rewrite down_S. case_bool_decide as Hj1.
    { intros k Hk. apply H1; [done|]. unfold parent. lia. }
    set (j := if _ && _ then _ else _). cbv zeta.
    assert (i < j < n ∧ parent j = i ∧
            ∀ c, 0 < c < n → parent c = i → (key h j ≤ key h c)%Z)
      as (Hj & Hpj & Hmin).
    { subst j. case_bool_decide as Hj2; cbn [andb].
      - rewrite Less_key by lia. case_bool_decide as Hlt.
        + split; [lia|]. split; [unfold parent; lia|].
          intros c Hc Hpc.
          assert (c = 2 * i + 1 ∨ c = 2 * i + 1 + 1) as [->| ->]
            by (unfold parent in Hpc; lia); lia.
        + split; [lia|]. split; [unfold parent; lia|].
          intros c Hc Hpc.
          assert (c = 2 * i + 1 ∨ c = 2 * i + 1 + 1) as [->| ->]
            by (unfold parent in Hpc; lia); lia.
      - split; [lia|]. split; [unfold parent; lia|].
        intros c Hc Hpc.
        assert (c = 2 * i + 1) as -> by (unfold parent in Hpc; lia).
        lia. }
    clearbody j. rewrite Less_key by lia.
    case_bool_decide as Hlt; cbn [negb].
    + apply IH; [lia|rewrite Swap_length; lia|].
      split.
      * intros k Hk Hne. rewrite !key_Swap by lia.
        destruct (decide (k = i)) as [->|Hki].
        { assert (parent i < i) by (unfold parent; lia).
          assert (key h (parent i) ≤ key h j)%Z by (apply H2; lia).
          generalize dependent (parent i).
          intros. repeat case_decide; subst; lia. }
        pose proof (H1 k Hk) as F1. pose proof (Hmin k Hk) as F2.
        assert (parent k < k) by (unfold parent; lia).
        clear H1 H2 IH Hmin Hpj.
        generalize dependent (parent k).
        intros. repeat case_decide; subst; lia.
      * intros k Hk Hpos Hpk. rewrite !key_Swap by lia.
        assert (j < k) by (unfold parent in Hpk; lia).
        assert (key h (parent k) ≤ key h k)%Z as F1 by (apply H1; lia).
        rewrite Hpk in F1. rewrite Hpj.
        repeat case_decide; subst; lia.
    + intros k Hk. destruct (decide (parent k = i)) as [Hpk|Hpk].
      * rewrite Hpk. specialize (Hmin k Hk Hpk). lia.
      * by apply H1.
Qed.

Lemma key_app_l (h : PacketHeap) x k :
  k < length h → key (h ++ [x]) k = key h k.
Proof. intros Hk. unfold key. by rewrite lookup_app_l. Qed.

Lemma Push_perm h x : heap.Push h x ≡ₚ x :: h.
Proof.
  unfold heap.Push, minheap.Push. rewrite up_perm.
  by rewrite Permutation_app_comm.
Qed.

Lemma Push_length h x : length (heap.Push h x) = S (length h).
Proof. by rewrite Push_perm. Qed.

Lemma Push_ordered h x : ordered h → ordered (heap.Push h x).
Proof.
  intros Hord. unfold heap.Push, minheap.Push, Len.
  rewrite length_app. simpl.
  apply up_ordered; [lia|rewrite length_app; simpl; lia|].
  split.
  - intros k Hk Hne. rewrite length_app in Hk. simpl in Hk.
    assert (parent k ≤ k) by (unfold parent; lia).
    rewrite !key_app_l by lia. apply Hord. lia.
  - intros k Hk _ Hpk. rewrite length_app in Hk. simpl in Hk.
    unfold parent in Hpk. lia.
Qed.

(** *** Popping *)

Lemma ordered_root_min h k :
  ordered h → k < length h → (key h 0 ≤ key h k)%Z.
Proof.
  intros Hord. induction (lt_wf k) as [k _ IH]. intros Hk.
  destruct (decide (k = 0)) as [->|Hk0]; [done|].
  assert (parent k < k) as Hp by (unfold parent; lia).
  specialize (IH _ Hp). specialize (Hord k). lia.
Qed.

(** The root of an ordered heap carries a least timestamp. *)
Lemma ordered_head_min p t q :
  ordered (p :: t) → q ∈ t → (Timestamp p ≤ Timestamp q)%Z.
Proof.
  intros Hord [k Hk]%list_elem_of_lookup.
  pose proof (ordered_root_min (p :: t) (S k) Hord) as Hmin.
  unfold key in Hmin. simpl in Hmin. rewrite Hk in Hmin. apply Hmin.
  apply lookup_lt_Some in Hk. lia.
Qed.

Lemma Pop_nil : heap.Pop [] = None.
Proof. reflexivity. Qed.

(** [heap.Pop] returns the root and keeps the other packets, in heap
    order when they were. *)
Lemma Pop_cons x t :
  ∃ h', heap.Pop (x :: t) = Some (x, h') ∧ h' ≡ₚ t ∧
        (ordered (x :: t) → ordered h').
Proof.
  unfold heap.Pop, Len. cbn [length].
  replace (S (length t) - 1) with (length t) by lia.
  set (h := x :: t). set (n := length t).
  set (h2 := down n (Swap h 0 n) 0 n).
  assert (length h = S n) as Hlen by done.
  assert (length h2 = S n) as Hlen2
    by (unfold h2; by rewrite down_length, Swap_length).
  assert (h2 !! n = Some x) as Hlast.
  { unfold h2. destruct (decide (n = 0)) as [Hn0|Hn0].
    - rewrite Hn0. cbn [down]. rewrite Swap_lookup by lia. done.
    - rewrite down_lookup_ge by (rewrite ?Swap_length; lia).
      rewrite Swap_lookup by lia. rewrite decide_False by done.
      by rewrite decide_True. }
  assert (take n h2 ++ [x] = h2) as Hsplit.
  { rewrite <- (take_drop_middle h2 n x Hlast) at 2.
    by rewrite drop_ge by lia. }
  exists (take n h2). split; [|split].
  - unfold minheap.Pop. rewrite last_lookup, Hlen2. simpl.
    rewrite Hlast. by rewrite Nat.sub_0_r.
  - apply (Permutation_cons_inv (a := x)).
    rewrite (Permutation_cons_append (take n h2) x), Hsplit.
    unfold h2. by rewrite down_perm, Swap_perm.
  - intros Hord k Hk. rewrite length_take_le in Hk by lia.
    assert (parent k < k) by (unfold parent; lia).
    unfold key. rewrite !lookup_take_lt by lia.
    apply (down_ordered n (Swap h 0 n) 0 n); [lia| |split|done].
    + rewrite Swap_length. lia.
    + intros k' Hk' Hpk'. rewrite !key_Swap by lia.
      assert (parent k' < k') by (unfold parent; lia).
      rewrite (decide_False (P := parent k' = 0)) by done.
      rewrite (decide_False (P := parent k' = n)) by lia.
      rewrite (decide_False (P := k' = 0)) by lia.
      rewrite (decide_False (P := k' = n)) by lia.
      apply Hord. lia.
    + intros; lia.
Qed.

Lemma Pop_None h : heap.Pop h = None ↔ h = [].
Proof.
  split; [|by intros ->]. destruct h as [|x t]; [done|].
  destruct (Pop_cons x t) as (h' & -> & _). done.
Qed.

Lemma ordered_nil : ordered [].
Proof. intros k Hk. simpl in Hk. lia. Qed.

End heap_facts.


(** ** Machine integers *)

Lemma wrap_in_range z : Int64.in_range (Int64.wrap z).
Proof. unfold Int64.in_range, Int64.wrap, Int64.min_int, Int64.max_int. lia. Qed.

Lemma wrap_id z : Int64.in_range z → Int64.wrap z = z.
Proof. unfold Int64.in_range, Int64.wrap, Int64.min_int, Int64.max_int. lia. Qed.

(** Above the least [int64], wrapping never increases a number. *)
Lemma wrap_le z : Int64.min_int <= z → Int64.wrap z <= z.
Proof. unfold Int64.wrap, Int64.min_int. lia. Qed.

Lemma UnixNano_in_range t : Int64.in_range (UnixNano t).
Proof. apply wrap_in_range. Qed.

(** ** The state *)

Section world_facts.
Implicit Types (w : World) (m : LogMsg) (s : Skip).

Lemma inputs_logIf v m w : inputs (logIf v m w) = inputs w.
Proof. by destruct v. Qed.
Lemma previousTimestamp_logIf v m w :
  previousTimestamp (logIf v m w) = previousTimestamp w.
Proof. by destruct v. Qed.
Lemma sinkCalls_logIf v m w : sinkCalls (logIf v m w) = sinkCalls w.
Proof. by destruct v. Qed.
Lemma skipped_logIf v m w : skipped (logIf v m w) = skipped w.
Proof. by destruct v. Qed.

Lemma inputs_advance reader rest w inp :
  inputs w !! reader = Some inp →
  inputs (advance reader rest w) =
    <[reader := mkOpenInput (in_name inp) (in_linkType inp) rest
                  (in_closed inp)]> (inputs w).
Proof. intros H. unfold advance. by rewrite H. Qed.
Lemma previousTimestamp_advance reader rest w :
  previousTimestamp (advance reader rest w) = previousTimestamp w.
Proof. unfold advance. by destruct (_ !! _). Qed.
Lemma sinkCalls_advance reader rest w :
  sinkCalls (advance reader rest w) = sinkCalls w.
Proof. unfold advance. by destruct (_ !! _). Qed.
Lemma skipped_advance reader rest w :
  skipped (advance reader rest w) = skipped w.
Proof. unfold advance. by destruct (_ !! _). Qed.

Lemma inputs_closeFile file w inp :
  inputs w !! file = Some inp →
  inputs (closeFile file w) =
    <[file := mkOpenInput (in_name inp) (in_linkType inp) (in_pending inp)
                true]> (inputs w).
Proof. intros H. unfold closeFile. by rewrite H. Qed.
Lemma previousTimestamp_closeFile file w :
  previousTimestamp (closeFile file w) = previousTimestamp w.
Proof. unfold closeFile. by destruct (_ !! _). Qed.
Lemma sinkCalls_closeFile file w :
  sinkCalls (closeFile file w) = sinkCalls w.
Proof. unfold closeFile. by destruct (_ !! _). Qed.
Lemma skipped_closeFile file w : skipped (closeFile file w) = skipped w.
Proof. unfold closeFile. by destruct (_ !! _). Qed.

End world_facts.

Create Rewrite HintDb world.
#[local] Hint Rewrite inputs_logIf previousTimestamp_logIf sinkCalls_logIf
  skipped_logIf previousTimestamp_advance sinkCalls_advance skipped_advance
  previousTimestamp_closeFile sinkCalls_closeFile skipped_closeFile : world.

(** ** [readNext] against [scan] *)

Lemma readLoop_scan pending reader v isInit w inp w' r :
  inputs w !! reader = Some inp →
  in_pending inp = pending →
  readLoop pending reader reader v isInit w = (w', r) →
  r = fst <$> (scan (previousTimestamp w) isInit reader pending).2 ∧
  previousTimestamp w' = previousTimestamp w ∧
  sinkCalls w' = sinkCalls w ∧
  skipped w' =
    skipped w ++ (scan (previousTimestamp w) isInit reader pending).1 ∧
  inputs w' =
    <[reader := afterRead inp
                  (scan (previousTimestamp w) isInit reader pending).2]>
      (inputs w).
Proof.
  revert w inp. induction pending as [|o rest IH]; intros w inp Hin Hpend.
  - cbn [readLoop scan]. intros [= <- <-].
    autorewrite with world. rewrite app_nil_r.
    erewrite inputs_closeFile by (by rewrite inputs_logIf).
    rewrite inputs_logIf, Hpend. done.
  - assert (reader < length (inputs w))%nat as Hlt
      by (by eapply lookup_lt_Some).
    set (inp' := mkOpenInput (in_name inp) (in_linkType inp) rest
                   (in_closed inp)).
    assert (∀ why m,
      readLoop rest reader reader v isInit
        (noteSkip (mkSkip reader o why)
           (logIf v m (advance reader rest w))) = (w', r) →
      judge (previousTimestamp w) isInit o = Reject why →
      r = fst <$> (scan (previousTimestamp w) isInit reader (o :: rest)).2 ∧
      previousTimestamp w' = previousTimestamp w ∧
      sinkCalls w' = sinkCalls w ∧
      skipped w' =
        skipped w ++
          (scan (previousTimestamp w) isInit reader (o :: rest)).1 ∧
      inputs w' =
        <[reader := afterRead inp
             (scan (previousTimestamp w) isInit reader (o :: rest)).2]>
          (inputs w)) as Hskip.
    { intros why m Hrun Hj.
      apply (IH _ inp') in Hrun as (Hr & Hp & Hc & Hs & Hi); [|simpl|done].
      2:{ rewrite inputs_logIf, (inputs_advance _ _ _ inp) by done.
          by apply list_lookup_insert_eq. }
      simpl in Hp, Hc, Hs, Hi, Hr.
      autorewrite with world in Hp, Hc, Hs, Hi, Hr.
      rewrite (inputs_advance _ _ _ inp), list_insert_insert_eq in Hi by done.
      cbn [scan]. rewrite Hj.
      destruct (scan (previousTimestamp w) isInit reader rest) as [sk res].
      simpl in *. rewrite <- app_assoc in Hs. simpl in Hs.
      repeat split; try done; rewrite Hi; by destruct res as [[]|]. }
    destruct o as [ci data|err].
    + cbn [readLoop]. rewrite previousTimestamp_advance.
      destruct (negb isInit && _) eqn:Early.
      { intros Hrun. eapply Hskip; [done|]. simpl. by rewrite Early. }
      destruct (bool_decide (length data = 0%nat)) eqn:Hempty.
      { intros Hrun. eapply Hskip; [done|]. simpl. by rewrite Early, Hempty. }
      intros [= <- <-]. cbn [scan judge]. rewrite Early, Hempty. simpl.
      autorewrite with world. rewrite app_nil_r.
      by rewrite (inputs_advance _ _ _ inp).
    + cbn [readLoop]. intros Hrun. eapply Hskip; [done|]. done.
Qed.

Lemma readNext_scan reader v isInit w inp w' r :
  inputs w !! reader = Some inp →
  readNext reader reader v isInit w = (w', r) →
  r = fst <$> (scan (previousTimestamp w) isInit reader (in_pending inp)).2 ∧
  previousTimestamp w' = previousTimestamp w ∧
  sinkCalls w' = sinkCalls w ∧
  skipped w' =
    skipped w ++
      (scan (previousTimestamp w) isInit reader (in_pending inp)).1 ∧
  inputs w' =
    <[reader := afterRead inp
         (scan (previousTimestamp w) isInit reader (in_pending inp)).2]>
      (inputs w).
Proof.
  intros Hin. unfold readNext. rewrite Hin. by apply readLoop_scan.
Qed.

(** ** Facts about [scan] *)

Section scan_facts.
Context (prev : Z) (isInit : bool) (reader : nat).

Lemma scan_length pending :
  length pending =
    (length (scan prev isInit reader pending).1 +
     match (scan prev isInit reader pending).2 with
     | Some (_, rest) => S (length rest)
     | None => 0
     end)%nat.
Proof.
  induction pending as [|o rest IH]; [done|]. cbn [scan].
  destruct (judge prev isInit o); [|done].
  destruct (scan prev isInit reader rest) as [sk r]. simpl in *. lia.
Qed.

Lemma scan_Some pending p rest :
  (scan prev isInit reader pending).2 = Some (p, rest) →
  ∃ ci data,
    pending =
      map sk_outcome (scan prev isInit reader pending).1 ++
        ReadOK ci data :: rest ∧
    p = mkPacket (UnixNano (ci_Timestamp ci)) ci data reader reader ∧
    judge prev isInit (ReadOK ci data) = Accept ci data.
Proof.
  induction pending as [|o tl IH]; [done|]. cbn [scan].
  destruct (judge prev isInit o) as [why|ci data] eqn:Hj.
  - destruct (scan prev isInit reader tl) as [sk r]. simpl in *.
    intros Hr. destruct (IH Hr) as (ci & data & -> & -> & Hacc).
    by exists ci, data.
  - simpl. intros [= <- <-]. destruct o as [ci' data'|]; [|done].
    assert (ci' = ci ∧ data' = data) as [-> ->].
    { unfold judge in Hj. repeat case_match; by simplify_eq. }
    by exists ci, data.
Qed.

Lemma scan_None pending :
  (scan prev isInit reader pending).2 = None →
  map sk_outcome (scan prev isInit reader pending).1 = pending.
Proof.
  induction pending as [|o tl IH]; [done|]. cbn [scan].
  destruct (judge prev isInit o) as [why|ci data] eqn:Hj; [|done].
  destruct (scan prev isInit reader tl) as [sk r]. simpl in *.
  intros Hr. by rewrite IH.
Qed.

Lemma scan_skips pending :
  Forall (λ s, sk_input s = reader ∧
               judge prev isInit (sk_outcome s) = Reject (sk_reason s))
    (scan prev isInit reader pending).1.
Proof.
  induction pending as [|o tl IH]; [by constructor|]. cbn [scan].
  destruct (judge prev isInit o) as [why|ci data] eqn:Hj; [|by constructor].
  destruct (scan prev isInit reader tl) as [sk r]. simpl in *.
  by constructor.
Qed.

End scan_facts.

Lemma judge_Accept prev isInit ci data :
  judge prev isInit (ReadOK ci data) = Accept ci data ↔
  data ≠ [] ∧
  (isInit = false →
   ¬ Int64.add (UnixNano (ci_Timestamp ci)) oneHour < prev).
Proof.
  unfold judge. destruct isInit; simpl.
  - case_bool_decide as He; split; try done.
    + intros [Hd _]. by destruct data.
    + intros _. split; [|done]. by intros ->.
  - case_bool_decide as Hlt; simpl.
    + split; [done|]. intros [_ H]. by destruct H.
    + case_bool_decide as He; split; try done.
      * intros [Hd _]. by destruct data.
      * intros _. split; [|done]. by intros ->.
Qed.

(** ** Facts about [write] *)

Section write_facts.
Context (env : Env) (p : Packet) (v : bool) (w : World).

Lemma inputs_write : inputs (write env p v w) = inputs w.
Proof. unfold write. simpl. by rewrite inputs_logIf. Qed.

Lemma skipped_write : skipped (write env p v w) = skipped w.
Proof. unfold write. simpl. by rewrite skipped_logIf. Qed.

Lemma previousTimestamp_write :
  previousTimestamp (write env p v w) = Timestamp p.
Proof. done. Qed.

Lemma sinkCalls_write :
  sinkCalls (write env p v w) =
    sinkCalls w ++
      [mkSinkCall (CaptureInfoOf p) (Data p)
         (sinkAccepts env (length (sinkCalls w)) (CaptureInfoOf p) (Data p))].
Proof. unfold write. simpl. by rewrite sinkCalls_logIf. Qed.

Lemma pendingOf_write reader :
  pendingOf reader (write env p v w) = pendingOf reader w.
Proof. unfold pendingOf. by rewrite inputs_write. Qed.

Lemma totalPending_write : totalPending (write env p v w) = totalPending w.
Proof. unfold totalPending. by rewrite inputs_write. Qed.

End write_facts.

(** ** Invariant rules for the two loops *)

Lemma mergeLoop_S fuel env v h w :
  mergeLoop (S fuel) env v h w =
    if bool_decide (0 < minheap.Len h)%nat then
      match mergeIter env v h w with
      | Ok (h, w) => mergeLoop fuel env v h w
      | Panics => Panics
      | OutOfFuel => OutOfFuel
      end
    else Ok w.
Proof.
  cbn [mergeLoop]. unfold mergeIter. case_bool_decide; [|done].
  by destruct (heap.Pop h) as [[]|].
Qed.

(** An invariant of the inner loop holds when it ends: [P] holds of the
    states in which the loop reads, [Q] of the heap and state it leaves. *)
Lemma innerLoop_rule env v p0 T h (P : World → Prop)
    (Q : minheap.PacketHeap → World → Prop) :
  (∀ w w1, P w →
     readNext (Reader p0) (InputFile p0) v false w = (w1, None) → Q h w1) →
  (∀ w w1 p, P w →
     readNext (Reader p0) (InputFile p0) v false w = (w1, Some p) →
     Timestamp p <= T → P (write env p v w1)) →
  (∀ w w1 p, P w →
     readNext (Reader p0) (InputFile p0) v false w = (w1, Some p) →
     ¬ Timestamp p <= T → Q (heap.Push h p) w1) →
  ∀ fuel w h' w',
    P w → innerLoop fuel env v p0 T h w = Ok (h', w') → Q h' w'.
Proof.
  intros Heof Hemit Hpush. induction fuel as [|fuel IH]; intros w h' w' HP;
    [done|].
  cbn [innerLoop].
  destruct (readNext _ _ _ _ _) as [w1 [p|]] eqn:Hread.
  - case_bool_decide as Hle.
    + apply IH. by eapply Hemit.
    + intros [= <- <-]. by eapply Hpush.
  - intros [= <- <-]. by eapply Heof.
Qed.

(** An invariant of the iterations of the outer loop holds, with the
    empty heap, when the loop ends. *)
Lemma mergeLoop_rule env v (I : minheap.PacketHeap → World → Prop) :
  (∀ h w h' w', I h w → mergeIter env v h w = Ok (h', w') → I h' w') →
  ∀ fuel h w w', I h w → mergeLoop fuel env v h w = Ok w' → I [] w'.
Proof.
  intros Hstep. induction fuel as [|fuel IH]; intros h w w' HI; [done|].
  rewrite mergeLoop_S. case_bool_decide as Hlen.
  - destruct (mergeIter env v h w) as [[h1 w1]| |] eqn:Hiter; [|done..].
    apply IH. by eapply Hstep.
  - intros [= <-]. destruct h; [done|]. unfold minheap.Len in Hlen.
    simpl in Hlen. lia.
Qed.

(** ** What one [readNext] does *)

Lemma sum_list_insert {A} (f : A → nat) (l : list A) i x y :
  l !! i = Some x →
  (sum_list_with f (<[i:=y]> l) + f x = sum_list_with f l + f y)%nat.
Proof.
  revert i. induction l as [|a l IH]; intros [|i] Hi; simplify_eq/=.
  - lia.
  - specialize (IH _ Hi). lia.
Qed.

Lemma pendingOf_lookup reader w inp :
  inputs w !! reader = Some inp → pendingOf reader w = in_pending inp.
Proof. intros H. unfold pendingOf. by rewrite H. Qed.

(** Everything the rest of the development uses about a call of
    [readNext]: it touches only the cursor (and, at the end of the file,
    the closed flag) of its own input, passes over a prefix of the
    pending reads, each of them rejected by [judge], and returns the
    first accepted one. *)
Lemma readNext_inv reader v isInit w w' r :
  readNext reader reader v isInit w = (w', r) →
  previousTimestamp w' = previousTimestamp w ∧
  sinkCalls w' = sinkCalls w ∧
  length (inputs w') = length (inputs w) ∧
  (∀ k, k ≠ reader → inputs w' !! k = inputs w !! k) ∧
  (∀ inp, inputs w !! reader = Some inp →
     inputs w' !! reader =
       Some (mkOpenInput (in_name inp) (in_linkType inp)
               (pendingOf reader w')
               (match r with Some _ => in_closed inp | None => true end))) ∧
  (totalPending w' + length (pendingOf reader w) =
     totalPending w + length (pendingOf reader w'))%nat ∧
  ∃ sk,
    skipped w' = skipped w ++ sk ∧
    Forall (λ s, sk_input s = reader ∧
                 judge (previousTimestamp w) isInit (sk_outcome s)
                   = Reject (sk_reason s)) sk ∧
    match r with
    | Some p =>
        ∃ ci data,
          pendingOf reader w =
            map sk_outcome sk ++ ReadOK ci data :: pendingOf reader w' ∧
          p = mkPacket (UnixNano (ci_Timestamp ci)) ci data reader reader ∧
          judge (previousTimestamp w) isInit (ReadOK ci data)
            = Accept ci data ∧
          (reader < length (inputs w))%nat
    | None =>
        pendingOf reader w = map sk_outcome sk ∧ pendingOf reader w' = []
    end.
Proof.
  intros Hread.
  destruct (inputs w !! reader) as [inp|] eqn:Hin.
  - destruct (readNext_scan _ _ _ _ _ _ _ Hin Hread)
      as (Hr & Hp & Hc & Hs & Hi).
    assert (reader < length (inputs w))%nat as Hlt
      by (by eapply lookup_lt_Some).
    set (sc := scan (previousTimestamp w) isInit reader (in_pending inp))
      in *.
    assert (inputs w' !! reader = Some (afterRead inp sc.2)) as Hin'
      by (rewrite Hi; by apply list_lookup_insert_eq).
    assert (pendingOf reader w' = from_option snd [] sc.2) as Hpend'.
    { rewrite (pendingOf_lookup _ _ _ Hin'). by destruct sc.2 as [[]|]. }
    split; [done|]. split; [done|].
    split; [by rewrite Hi, length_insert|].
    split; [intros k Hk; rewrite Hi; by apply list_lookup_insert_ne|].
    split.
    { intros ? [= <-]. rewrite Hin', Hpend', Hr.
      by destruct sc.2 as [[]|]. }
    split.
    { unfold totalPending. rewrite Hi.
      rewrite (pendingOf_lookup _ _ _ Hin), Hpend'.
      pose proof (sum_list_insert (λ i, length (in_pending i)) (inputs w)
                    reader inp (afterRead inp sc.2) Hin) as Hsum.
      simpl in Hsum. rewrite Hsum. by destruct sc.2 as [[]|]. }
    exists sc.1. split; [done|]. split; [apply scan_skips|].
    rewrite (pendingOf_lookup _ _ _ Hin), Hpend', Hr.
    destruct sc.2 as [[p rest]|] eqn:Hres; simpl.
    + destruct (scan_Some _ _ _ _ _ _ Hres) as (ci & data & ? & ? & ?).
      by exists ci, data.
    + split; [|done]. symmetry. by apply scan_None.
  - unfold readNext in Hread. rewrite Hin in Hread.
    injection Hread as <- <-. unfold pendingOf. rewrite Hin.
    repeat split; try done. exists []. by rewrite app_nil_r.
Qed.

Lemma readNext_pendingOf_ne reader v isInit w w' r k :
  readNext reader reader v isInit w = (w', r) → k ≠ reader →
  pendingOf k w' = pendingOf k w.
Proof.
  intros (_ & _ & _ & Hk & _)%readNext_inv Hne. unfold pendingOf.
  by rewrite Hk.
Qed.

(** ** Termination of the merge *)

Lemma wfPacket_length w w' p :
  length (inputs w') = length (inputs w) → wfPacket w p → wfPacket w' p.
Proof. unfold wfPacket. by intros ->. Qed.

Lemma innerLoop_terminates env v p0 T h fuel w :
  InputFile p0 = Reader p0 →
  (length (pendingOf (Reader p0) w) < fuel)%nat →
  ∃ h' w', innerLoop fuel env v p0 T h w = Ok (h', w').
Proof.
  intros Hfile.
  revert w. induction fuel as [|fuel IH]; intros w Hfuel; [lia|].
  cbn [innerLoop]. rewrite Hfile.
  destruct (readNext _ _ _ _ _) as [w1 [p|]] eqn:Hread; [|by eauto].
  case_bool_decide; [|by eauto].
  apply IH. rewrite pendingOf_write.
  apply readNext_inv in Hread
    as (_ & _ & _ & _ & _ & _ & sk & _ & _ & ci & data & Hpend & _).
  rewrite Hpend, length_app in Hfuel. simpl in Hfuel. lia.
Qed.

Lemma mergeIter_cons env v x t w :
  ∃ h1, h1 ≡ₚ t ∧ heap.Pop (x :: t) = Some (x, h1) ∧
        (heap_order.ordered (x :: t) → heap_order.ordered h1) ∧
        mergeIter env v (x :: t) w =
          innerLoop (S (length (pendingOf (Reader x) (write env x v w))))
            env v x (thresholdOf h1) h1 (write env x v w).
Proof.
  destruct (heap_facts.Pop_cons x t) as (h1 & Hpop & Hperm & Hord).
  exists h1. unfold mergeIter. rewrite Hpop. by destruct h1.
Qed.

(** One iteration keeps the packets of the heap well formed and lowers
    the measure [2 * totalPending + length] of the loop. *)
Lemma mergeIter_measure env v h w h' w' :
  Forall (wfPacket w) h →
  mergeIter env v h w = Ok (h', w') →
  Forall (wfPacket w') h' ∧
  (2 * totalPending w' + length h' < 2 * totalPending w + length h)%nat.
Proof.
  intros Hwf. destruct h as [|x t]; [done|].
  destruct (mergeIter_cons env v x t w) as (h1 & Hperm & _ & _ & ->).
  apply Forall_cons in Hwf as [Hx Ht]. rewrite <- Hperm in Ht.
  destruct Hx as (Hx & Hfile & _).
  apply (innerLoop_rule env v x (thresholdOf h1) h1
    (λ w0, length (inputs w0) = length (inputs w) ∧
           (totalPending w0 ≤ totalPending w)%nat)
    (λ h0 w0, Forall (wfPacket w0) h0 ∧
              (2 * totalPending w0 + length h0
               < 2 * totalPending w + length (x :: t))%nat)).
  - intros w0 w1 [Hlen Htot]. rewrite Hfile.
    intros (_ & _ & Hlen1 & _ & _ & Hsum & sk & _ & _ & Hp & Hp')
      %readNext_inv.
    split.
    + eapply Forall_impl; [done|]. intros p. apply wfPacket_length. congruence.
    + rewrite <- Hperm. simpl. rewrite Hp' in Hsum. simpl in Hsum. lia.
  - intros w0 w1 p [Hlen Htot]. rewrite Hfile.
    intros (_ & _ & Hlen1 & _ & _ & Hsum & sk & _ & _ & ci & data & Hp & _)
      %readNext_inv _.
    rewrite inputs_write, totalPending_write. split; [congruence|].
    rewrite Hp, length_app in Hsum. simpl in Hsum. lia.
  - intros w0 w1 p [Hlen Htot]. rewrite Hfile.
    intros (_ & _ & Hlen1 & _ & _ & Hsum & sk & _ & _ & ci & data & Hp & -> & _ & Hlt)
      %readNext_inv _.
    split.
    + rewrite heap_facts.Push_perm. constructor.
      * unfold wfPacket. simpl. split; [lia|done].
      * eapply Forall_impl; [done|]. intros q. apply wfPacket_length.
        congruence.
    + rewrite heap_facts.Push_length, <- Hperm. simpl.
      rewrite Hp, length_app in Hsum. simpl in Hsum. lia.
  - rewrite inputs_write, totalPending_write. done.
Qed.

Lemma mergeLoop_terminates env v fuel h w :
  Forall (wfPacket w) h →
  (2 * totalPending w + length h < fuel)%nat →
  ∃ w', mergeLoop fuel env v h w = Ok w'.
Proof.
  revert h w. induction fuel as [|fuel IH]; intros h w Hwf Hfuel; [lia|].
  rewrite mergeLoop_S. case_bool_decide as Hlen; [|by eauto].
  destruct h as [|x t]; [unfold minheap.Len in Hlen; simpl in Hlen; lia|].
  destruct (mergeIter_cons env v x t w) as (h1 & Hperm & _ & _ & Hiter).
  destruct (innerLoop_terminates env v x (thresholdOf h1) h1
              (S (length (pendingOf (Reader x) (write env x v w))))
              (write env x v w)) as (h' & w' & Hinner).
  { apply Forall_cons in Hwf as [(_ & ? & _) _]. done. }
  { lia. }
  rewrite <- Hiter in Hinner.
  destruct (mergeIter_measure _ _ _ _ _ _ Hwf Hinner) as [Hwf' Hlt].
  rewrite Hinner. apply IH; [done|lia].
Qed.

(** ** Initialisation *)

Lemma sinkCalls_initOne env v st path :
  sinkCalls (world (initOne env v st path)) = sinkCalls (world st).
Proof.
  unfold initOne. destruct (fs env path) as [err|err|lt size recs]; simpl.
  - by rewrite sinkCalls_logIf.
  - by rewrite sinkCalls_logIf.
  - destruct (readNext _ _ _ _ _) as [w1 [p|]] eqn:Hread; simpl;
      apply readNext_inv in Hread as (_ & Hc & _);
      repeat case_bool_decide; simpl; by rewrite ?sinkCalls_logIf.
Qed.

Lemma initOne_step env v st path :
  InitStep env path st (initOne env v st path).
Proof.
  unfold initOne. destruct (fs env path) as [err|err|lt size recs] eqn:Hfs.
  - eapply InitNoFile; simpl; by autorewrite with world.
  - eapply InitNotPcap; simpl; by autorewrite with world.
  - set (new := mkOpenInput path lt recs false).
    set (reader := length (inputs (world st))).
    set (w1 := setInputs (inputs (world st) ++ [new]) (world st)).
    assert (inputs w1 !! reader = Some new) as Hin.
    { simpl. rewrite lookup_app_r by done.
      by replace (reader - _)%nat with 0%nat by (unfold reader; lia). }
    destruct (readNext reader reader v true w1) as [w2 r] eqn:Hread.
    destruct (readNext_scan _ _ _ _ _ _ _ Hin Hread)
      as (Hr & _ & _ & Hs & Hi).
    simpl in Hs, Hi, Hr.
    set (sc := scan (previousTimestamp (world st)) true reader recs) in *.
    rewrite insert_app_r_alt in Hi by done.
    replace (reader - _)%nat with 0%nat in Hi by (unfold reader; lia).
    simpl in Hi.
    assert (Forall (λ s, sk_input s = reader ∧
                   judge (previousTimestamp (world st)) true (sk_outcome s)
                     = Reject (sk_reason s)) sc.1) as Hrej
      by apply scan_skips.
    destruct sc.2 as [[p rest]|] eqn:Hres; simpl in Hr; subst r.
    + destruct (scan_Some _ _ _ _ _ _ Hres) as (ci & data & Hrecs & -> & Hacc).
      apply judge_Accept in Hacc as [Hdata _].
      eapply (InitPacket _ _ _ _ lt size recs sc.1 ci data rest);
        try done; simpl; repeat case_bool_decide; simpl; done.
    + eapply (InitNoPacket _ _ _ _ lt size recs sc.1); try done; simpl;
        autorewrite with world; try done.
      symmetry. by apply scan_None.
Qed.

(** An invariant of the iterations holds of the state the loop over the
    paths leaves. *)
Lemma init_rule env v (I : InitState → Prop) paths st :
  (∀ st path, I st → path ∈ paths → I (initOne env v st path)) →
  I st → I (foldl (initOne env v) st paths).
Proof.
  revert st. induction paths as [|path paths IH]; intros st Hstep HI;
    [done|].
  simpl. apply IH.
  - intros st' path' HI' Hel. apply Hstep; [done|]. by right.
  - apply Hstep; [done|]. by left.
Qed.

(** [initHeapWithInputFiles] never reports an error. *)
Lemma initHeapWithInputFiles_nil_error env paths h v w :
  (initHeapWithInputFiles env paths h v w).1.1.2 = None.
Proof. reflexivity. Qed.

(** The packets on the heap after initialisation are well formed. *)
Lemma init_wf env v paths st :
  Forall (wfPacket (world st)) (minTimeHeap st) →
  Forall (wfPacket (world (foldl (initOne env v) st paths)))
    (minTimeHeap (foldl (initOne env v) st paths)).
Proof.
  apply (init_rule env v (λ st, Forall (wfPacket (world st)) (minTimeHeap st))).
  clear st. intros st path Hwf _.
  assert (∀ w', (length (inputs (world st)) ≤ length (inputs w'))%nat →
                Forall (wfPacket w') (minTimeHeap st)) as Hmono.
  { intros w' Hle. eapply Forall_impl; [done|].
    intros p (? & ? & ?). split; [lia|done]. }
  destruct (initOne_step env v st path)
    as [err _ Hi _ Hh _|err _ Hi _ Hh _|lt size recs sk _ _ _ Hi _ Hh _
       |lt size recs sk ci data rest _ _ _ _ Hi _ Hh _]; rewrite Hh.
  - apply Hmono. by rewrite Hi.
  - apply Hmono. rewrite Hi, length_app. lia.
  - apply Hmono. rewrite Hi, length_app. lia.
  - rewrite heap_facts.Push_perm. constructor.
    + unfold wfPacket. rewrite Hi, length_app. simpl. split; [lia|done].
    + apply Hmono. rewrite Hi, length_app. lia.
Qed.

(** ** [joincap] up to the merge *)

Lemma joincap_merges env args f paths w :
  Merges env args f paths →
  ∃ w',
    mergeLoop (mergeFuel (minTimeHeap (afterInit env f paths w))
                 (mergeStart env f paths w)) env (Verbose f)
      (minTimeHeap (afterInit env f paths w)) (mergeStart env f paths w)
      = Ok w' ∧
    joincap env args w =
      mkOutcome (Ok None)
        (Some (maxSnaplen, linkType (afterInit env f paths w))) w'.
Proof.
  intros (Hparse & Hver & [prog Hfiles] & Hout).
  destruct (mergeLoop_terminates env (Verbose f)
              (mergeFuel (minTimeHeap (afterInit env f paths w))
                 (mergeStart env f paths w))
              (minTimeHeap (afterInit env f paths w))
              (mergeStart env f paths w)) as [w' Hloop].
  { eapply Forall_impl; [apply init_wf; by constructor|].
    intros p. apply wfPacket_length. unfold mergeStart.
    by rewrite !inputs_logIf. }
  { unfold mergeFuel. lia. }
  exists w'. split; [done|].
  unfold joincap. rewrite Hparse, Hver, Hfiles.
  unfold initHeapWithInputFiles.
  fold (afterInit env f paths w).
  assert (negb (String.eqb (OutputFilePath f) "-")
          && negb (canCreate env (OutputFilePath f)) = false) as ->.
  { destruct Hout as [->| ->]; [done|]. by rewrite andb_false_r. }
  fold (mergeStart env f paths w). by rewrite Hloop.
Qed.

(** An invariant of the iterations of the merge loop that holds when the
    loop starts holds, with the empty heap, of the final state. *)
Lemma joincap_rule env args f paths w
    (I : minheap.PacketHeap → World → Prop) :
  Merges env args f paths →
  I (minTimeHeap (afterInit env f paths w)) (mergeStart env f paths w) →
  (∀ h w h' w', I h w → mergeIter env (Verbose f) h w = Ok (h', w') →
                I h' w') →
  returned (joincap env args w) = Ok None ∧
  fileHeader (joincap env args w) =
    Some (maxSnaplen, linkType (afterInit env f paths w)) ∧
  I [] (final (joincap env args w)).
Proof.
  intros Hm Hstart Hstep.
  destruct (joincap_merges env args f paths w Hm) as (w' & Hloop & ->).
  simpl. repeat split. by eapply mergeLoop_rule.
Qed.

(** The link type after initialisation folds [resolveLinkType] over the
    link types of the captures among the paths. *)
Lemma init_linkType env v paths st :
  linkType (foldl (initOne env v) st paths) =
    foldl resolveLinkType (linkType st) (parsedLinkTypes env paths).
Proof.
  revert st. induction paths as [|path paths IH]; intros st; [done|].
  simpl. rewrite IH. unfold parsedLinkTypes. simpl.
  destruct (initOne_step env v st path)
    as [err Hfs _ _ _ Hl|err Hfs _ _ _ Hl|lt size recs sk Hfs _ _ _ _ _ Hl
       |lt size recs sk ci data rest Hfs _ _ _ _ _ _ Hl];
    rewrite Hfs, Hl; done.
Qed.

(** ** Examples *)

Example heap_push_example :
  map Timestamp
    (foldl heap.Push heap.Init
       (map (λ t, mkPacket t (mkCaptureInfo t 1 1) [0] 0 0) [5; 3; 8; 1; 4]))
  = [1; 3; 8; 5; 4].
Proof. reflexivity. Qed.

Example heap_pop_example :
  (λ '(p, h), (Timestamp p, map Timestamp h)) <$>
    heap.Pop
      (map (λ t, mkPacket t (mkCaptureInfo t 1 1) [0] 0 0) [1; 3; 8; 5; 4])
  = Some (1, [3; 4; 8; 5]).
Proof. reflexivity. Qed.

(** The scenario of the specification: [a.pcap] at 10, 20, 30 and
    [b.pcap] at 15, 25 merge to 10, 15, 20, 25, 30. *)
Example merge_scenario :
  map (λ r, ci_Timestamp r.1)
    (outputRecords
       (final (joincap demo.env ["joincap"; "a.pcap"; "b.pcap"]%string
                 freshWorld)))
  = [10; 15; 20; 25; 30].
Proof. vm_compute. reflexivity. Qed.

(** A record two hours before the last one written is passed over. *)
Example late_scenario :
  map (λ r, ci_Timestamp r.1)
    (outputRecords
       (final (joincap demo.env ["joincap"; "late.pcap"]%string freshWorld)))
  = [3 * oneHour; 4 * oneHour] ∧
  map sk_reason
    (skipped
       (final (joincap demo.env ["joincap"; "late.pcap"]%string freshWorld)))
  = [TooEarly].
Proof. vm_compute. done. Qed.

(** ** Initialisation never fails (C10) *)

Lemma judge_init_prev prev prev' o : judge prev true o = judge prev' true o.
Proof. by destruct o. Qed.

(** When every input is passed over, the heap is as before. *)
Lemma init_all_skipped env v paths st :
  (∀ path, path ∈ paths → skipsInput env path) →
  minTimeHeap (foldl (initOne env v) st paths) = minTimeHeap st.
Proof.
  intros Hskip.
  apply (init_rule env v (λ st', minTimeHeap st' = minTimeHeap st));
    [|done].
  intros st' path <- Hel. specialize (Hskip path Hel).
  destruct (initOne_step env v st' path)
    as [err _ _ _ Hh _|err _ _ _ Hh _|lt size recs sk _ _ _ _ _ Hh _
       |lt size recs sk ci data rest Hfs Hrecs _ Hdata _ _ _ _]; try done.
  unfold skipsInput in Hskip. rewrite Hfs, Hrecs in Hskip.
  apply Forall_app in Hskip as [_ Hacc].
  apply Forall_cons in Hacc as [[why Hj] _].
  assert (judge 0 true (ReadOK ci data) = Accept ci data) as Hacc.
  { apply judge_Accept. by split. }
  congruence.
Qed.

(** C10, as the code has it: [initHeapWithInputFiles] returns a nil error
    for every list of input paths, so [joincap] never returns its
    "cannot initialize merge" error; and when every input is passed
    over, a call that gets to the merge writes a file header with the
    snapshot length 262144 and the link type resolved from the inputs
    that opened as captures (the Null link type when none did), hands
    no record to the sink and returns nil. *)
Theorem C10_init_never_fails env :
  (∀ paths h v w, (initHeapWithInputFiles env paths h v w).1.1.2 = None) ∧
  (∀ args w err,
     returned (joincap env args w) ≠ Ok (Some (ErrCannotInitialize err))) ∧
  (∀ args f paths w,
     Merges env args f paths →
     (∀ path, path ∈ paths → skipsInput env path) →
     returned (joincap env args w) = Ok None ∧
     fileHeader (joincap env args w) =
       Some (262144,
             foldl resolveLinkType LinkTypeNull (parsedLinkTypes env paths)) ∧
     (parsedLinkTypes env paths = [] →
      fileHeader (joincap env args w) = Some (262144, LinkTypeNull)) ∧
     sinkCalls (final (joincap env args w)) = sinkCalls w).
Proof.
  split; [done|]. split.
  - intros args w err. unfold joincap.
    destruct (ParseArgs env args) as [|e|f]; [done..|].
    destruct (Version f); [done|].
    destruct (InFiles f) as [|prog paths]; [done|].
    unfold initHeapWithInputFiles.
    destruct (_ && _); [done|]. by destruct (mergeLoop _ _ _ _ _).
  - intros args f paths w Hm Hskip.
    destruct (joincap_merges env args f paths w Hm) as (w' & Hloop & ->).
    unfold afterInit in *. rewrite init_linkType. simpl.
    split; [done|]. split; [done|]. split; [by intros ->|].
    rewrite init_all_skipped in Hloop by done.
    unfold mergeFuel in Hloop. rewrite mergeLoop_S in Hloop.
    simpl in Hloop. injection Hloop as <-.
    unfold mergeStart. rewrite !sinkCalls_logIf.
    assert (∀ st, sinkCalls (world (foldl (initOne env (Verbose f)) st paths))
                  = sinkCalls (world st)) as Hcalls.
    { intros st.
      apply (init_rule env (Verbose f)
               (λ st', sinkCalls (world st') = sinkCalls (world st)));
        [|done].
      intros st' path <- _. apply sinkCalls_initOne. }
    unfold afterInit. rewrite Hcalls. simpl. by rewrite sinkCalls_logIf.
Qed.

Lemma C10_init_never_fails_witness :
  returned (joincap demo.env ["joincap"; "junk"; "nowhere"]%string freshWorld)
    = Ok None ∧
  fileHeader (joincap demo.env ["joincap"; "junk"; "nowhere"]%string
                freshWorld)
    = Some (262144, LinkTypeNull) ∧
  sinkCalls (final (joincap demo.env ["joincap"; "junk"; "nowhere"]%string
                      freshWorld)) = [].
Proof.
  destruct (C10_init_never_fails demo.env) as (_ & _ & H).
  destruct (H ["joincap"; "junk"; "nowhere"]%string
              (demo.flagsOf ["joincap"; "junk"; "nowhere"]%string)
              ["junk"; "nowhere"]%string freshWorld)
    as (Hret & _ & Hhead & Hcalls).
  - repeat split; [by exists "joincap"%string | by left].
  - intros path Hel. apply list_elem_of_In in Hel. simpl in Hel.
    destruct Hel as [<-|[<-|[]]]; exact I.
  - split; [exact Hret|]. split; [by apply Hhead | exact Hcalls].
Defined.

(** The claim fails as it is stated: [empty.pcap] is a capture without
    records, so it is passed over, yet its Ethernet link type is in the
    header: the link type is taken when the input opens, before its
    first read. *)
Lemma C10_counterexample :
  Merges demo.env ["joincap"; "empty.pcap"]%string
    (demo.flagsOf ["joincap"; "empty.pcap"]%string) ["empty.pcap"]%string ∧
  (∀ path, path ∈ ["empty.pcap"]%string → skipsInput demo.env path) ∧
  sinkCalls (final (joincap demo.env ["joincap"; "empty.pcap"]%string
                      freshWorld)) = [] ∧
  fileHeader (joincap demo.env ["joincap"; "empty.pcap"]%string freshWorld)
    ≠ Some (262144, LinkTypeNull).
Proof.
  split; [repeat split; [by exists "joincap"%string | by left]|].
  split.
  { intros path Hel. apply list_elem_of_In in Hel. simpl in Hel.
    destruct Hel as [<-|[]]. by constructor. }
  split; [by vm_compute|]. by vm_compute.
Qed.

(** ** The link type of the output (C7) *)

(** Once two different link types have been seen, or the Ethernet link
    type, the resolved type is Ethernet for good. *)
Lemma resolveLinkType_Ethernet lts :
  foldl resolveLinkType LinkTypeEthernet lts = LinkTypeEthernet.
Proof.
  induction lts as [|lt lts IH]; [done|]. simpl.
  unfold resolveLinkType at 2.
  rewrite bool_decide_eq_false_2 by done. by case_bool_decide.
Qed.

(** What the claim says does hold when the first capture does not have
    the link type 0. *)
Lemma linkType_resolution lt lts :
  lt ≠ LinkTypeNull →
  foldl resolveLinkType LinkTypeNull (lt :: lts) =
    if bool_decide (Forall (λ lt', lt' = lt) lts) then lt
    else LinkTypeEthernet.
Proof.
  intros Hne. simpl. unfold resolveLinkType at 2.
  rewrite bool_decide_eq_true_2 by done.
  induction lts as [|lt' lts IH]; [done|]. simpl.
  unfold resolveLinkType at 2. rewrite bool_decide_eq_false_2 by done.
  destruct (decide (lt = lt')) as [<-|Hdiff].
  - rewrite bool_decide_eq_false_2 by (by intros []). rewrite IH.
    repeat case_bool_decide; try done.
    + exfalso. eauto using Forall_cons_2.
    + exfalso. by decompose_Forall_hyps.
  - rewrite bool_decide_eq_true_2 by done. rewrite resolveLinkType_Ethernet.
    rewrite bool_decide_eq_false_2; [done|].
    intros [? _]%Forall_cons. congruence.
Qed.

(** C7 fails when the first capture has the link type 0, which the code
    takes for "no link type yet": after [lo.pcap] (link type 0) the raw
    IP capture [raw.pcap] seeds the link type anew, and the header says
    raw IP (101), not Ethernet. *)
Theorem C7_null_link_type_is_reseeded :
  parsedLinkTypes demo.env ["lo.pcap"; "raw.pcap"]%string
    = [LinkTypeNull; LinkTypeRaw] ∧
  fileHeader (joincap demo.env ["joincap"; "lo.pcap"; "raw.pcap"]%string
                freshWorld)
    = Some (maxSnaplen, LinkTypeRaw) ∧
  LinkTypeRaw ≠ LinkTypeEthernet.
Proof. split; [by vm_compute|]. split; by vm_compute. Qed.

(** ** Records passed over by [readNext] (C3, C6) *)

Lemma fileName_advance reader rest w inp :
  inputs w !! reader = Some inp →
  fileName reader (advance reader rest w) = in_name inp.
Proof.
  intros Hin. unfold fileName. rewrite (inputs_advance _ _ _ inp) by done.
  rewrite list_lookup_insert_eq; [done|]. by eapply lookup_lt_Some.
Qed.

Lemma lookup_advance reader rest w inp :
  inputs w !! reader = Some inp →
  inputs (advance reader rest w) !! reader =
    Some (mkOpenInput (in_name inp) (in_linkType inp) rest (in_closed inp)).
Proof.
  intros Hin. rewrite (inputs_advance _ _ _ inp) by done.
  rewrite list_lookup_insert_eq; [done|]. by eapply lookup_lt_Some.
Qed.

(** C3: in a read that is not an initialisation read, a decoded record
    whose timestamp plus one hour is below [previousTimestamp] is passed
    over: [readNext] goes on with the next read of the same input, in a
    state where the input is past that record and is as open or closed
    as before, where nothing was handed to the sink and where
    [previousTimestamp] is unchanged; the record is noted as skipped,
    and the packet [readNext] returns, if any, is a later record of the
    input. *)
Theorem C3_early_record_dropped reader v w inp ci data rest :
  inputs w !! reader = Some inp →
  in_pending inp = ReadOK ci data :: rest →
  UnixNano (ci_Timestamp ci) + oneHour < previousTimestamp w →
  let w1 :=
    noteSkip (mkSkip reader (ReadOK ci data) TooEarly)
      (logIf v (MsgIllegalTimestamp (in_name inp) (ci_Timestamp ci)
                  (previousTimestamp w))
         (advance reader rest w)) in
  readNext reader reader v false w = readNext reader reader v false w1 ∧
  inputs w1 !! reader =
    Some (mkOpenInput (in_name inp) (in_linkType inp) rest (in_closed inp)) ∧
  sinkCalls w1 = sinkCalls w ∧
  previousTimestamp w1 = previousTimestamp w ∧
  skipped w1 = skipped w ++ [mkSkip reader (ReadOK ci data) TooEarly] ∧
  ∀ w' p, readNext reader reader v false w = (w', Some p) →
          ReadOK (CaptureInfoOf p) (Data p) ∈ rest.
Proof.
  intros Hin Hpend Hearly w1.
  assert (inputs w1 !! reader =
    Some (mkOpenInput (in_name inp) (in_linkType inp) rest (in_closed inp)))
    as Hin1.
  { unfold w1. simpl. rewrite inputs_logIf. by apply lookup_advance. }
  assert (readNext reader reader v false w = readNext reader reader v false w1)
    as Heq.
  { unfold readNext at 1. rewrite Hin, Hpend. cbn [readLoop].
    rewrite previousTimestamp_advance, (fileName_advance _ _ _ inp) by done.
    rewrite bool_decide_eq_true_2.
    + unfold readNext. rewrite Hin1. done.
    + pose proof (UnixNano_in_range (ci_Timestamp ci)) as [Hlo _].
      pose proof (wrap_le (UnixNano (ci_Timestamp ci) + oneHour)).
      unfold Int64.add, Int64.min_int, oneHour in *. lia. }
  split; [done|]. split; [done|].
  split; [unfold w1; simpl; by autorewrite with world|].
  split; [unfold w1; simpl; by autorewrite with world|].
  split; [unfold w1; simpl; by autorewrite with world|].
  intros w' p. rewrite Heq.
  intros (_ & _ & _ & _ & _ & _ & sk & _ & _ & ci' & data' & Hp & -> & _)
    %readNext_inv.
  rewrite (pendingOf_lookup _ _ _ Hin1) in Hp. simpl in Hp. rewrite Hp.
  simpl. apply elem_of_app. right. by left.
Qed.

Lemma C3_early_record_dropped_witness :
  let w :=
    mkWorld [mkOpenInput "late.pcap" LinkTypeEthernet
               [demo.pkt oneHour; demo.pkt (4 * oneHour)] false]
      (3 * oneHour) [] [] [] in
  (readNext 0 0 false false w).2 =
    Some (mkPacket (4 * oneHour) (mkCaptureInfo (4 * oneHour) 1 1) [0] 0 0).
Proof.
  intros w.
  destruct (C3_early_record_dropped 0 false w
              (mkOpenInput "late.pcap" LinkTypeEthernet
                 [demo.pkt oneHour; demo.pkt (4 * oneHour)] false)
              (mkCaptureInfo oneHour 1 1) [0] [demo.pkt (4 * oneHour)])
    as (Heq & _); [reflexivity | reflexivity | by vm_compute |].
  rewrite Heq. reflexivity.
Defined.

(** C6 fails as it is stated: the first record of [hollow.pcap] decodes
    and has no payload, and the initialisation read passes over it and
    returns the second record. *)
Lemma C6_counterexample :
  let w :=
    mkWorld [mkOpenInput "hollow.pcap" LinkTypeEthernet
               [ReadOK (mkCaptureInfo 40 0 0) []; demo.pkt 50] false]
      0 [] [] [] in
  (readNext 0 0 false true w).2 =
    Some (mkPacket 50 (mkCaptureInfo 50 1 1) [0] 0 0) ∧
  skipped (readNext 0 0 false true w).1 =
    [mkSkip 0 (ReadOK (mkCaptureInfo 40 0 0) []) EmptyPayload].
Proof. by vm_compute. Qed.

(** C6, as the code has it: in an initialisation read the one-hour check
    rejects nothing, so a decoded record with a payload is returned
    whatever its timestamp and whatever [previousTimestamp]; a decoded
    record without payload is passed over all the same. *)
Theorem C6_init_read reader v w inp ci data rest :
  inputs w !! reader = Some inp →
  in_pending inp = ReadOK ci data :: rest →
  (data ≠ [] →
   readNext reader reader v true w =
     (advance reader rest w,
      Some (mkPacket (UnixNano (ci_Timestamp ci)) ci data reader reader))) ∧
  (data = [] →
   readNext reader reader v true w =
     readNext reader reader v true
       (noteSkip (mkSkip reader (ReadOK ci data) EmptyPayload)
          (logIf v (MsgEmptyData (in_name inp)) (advance reader rest w)))).
Proof.
  intros Hin Hpend. unfold readNext at 1 2. rewrite Hin, Hpend.
  cbn [readLoop negb andb]. split.
  - intros Hdata. rewrite bool_decide_eq_false_2; [done|].
    by destruct data.
  - intros ->. simpl. rewrite (fileName_advance _ _ _ inp) by done.
    unfold readNext. simpl. rewrite inputs_logIf.
    by rewrite (lookup_advance _ _ _ inp).
Qed.

Lemma C6_init_read_witness :
  let w :=
    mkWorld [mkOpenInput "b.pcap" LinkTypeEthernet
               [demo.pkt 15; demo.pkt 25] false]
      (100 * oneHour) [] [] [] in
  (readNext 0 0 false true w).2 =
    Some (mkPacket 15 (mkCaptureInfo 15 1 1) [0] 0 0).
Proof.
  intros w.
  destruct (C6_init_read 0 false w
              (mkOpenInput "b.pcap" LinkTypeEthernet
                 [demo.pkt 15; demo.pkt 25] false)
              (mkCaptureInfo 15 1 1) [0] [demo.pkt 25])
    as (Hacc & _); [reflexivity | reflexivity |].
  rewrite Hacc by done. reflexivity.
Defined.

(** ** The run does not depend on the log or on the sink (C9) *)

Section quiet_facts.
Implicit Types (w : World).

Lemma quiet_logIf v m w : quiet (logIf v m w) = quiet w.
Proof. by destruct v. Qed.

Lemma quiet_noteSkip s w : quiet (noteSkip s w) = noteSkip s (quiet w).
Proof. done. Qed.

Lemma quiet_advance reader rest w :
  quiet (advance reader rest w) = advance reader rest (quiet w).
Proof. unfold advance. simpl. by destruct (_ !! _). Qed.

Lemma quiet_closeFile file w :
  quiet (closeFile file w) = closeFile file (quiet w).
Proof. unfold closeFile. simpl. by destruct (_ !! _). Qed.

Lemma quiet_setPreviousTimestamp t w :
  quiet (setPreviousTimestamp t w) = setPreviousTimestamp t (quiet w).
Proof. done. Qed.

Lemma quiet_setInputs ins w : quiet (setInputs ins w) = setInputs ins (quiet w).
Proof. done. Qed.

Lemma readLoop_quiet pending reader file v isInit w :
  readLoop pending reader file false isInit (quiet w) =
    ((quiet (readLoop pending reader file v isInit w).1),
     (readLoop pending reader file v isInit w).2).
Proof.
  revert w. induction pending as [|o rest IH]; intros w.
  { cbn [readLoop logIf fst snd]. by rewrite quiet_closeFile, quiet_logIf. }
  assert (∀ s m,
    readLoop rest reader file false isInit
      (noteSkip s (advance reader rest (quiet w))) =
    ((quiet (readLoop rest reader file v isInit
               (noteSkip s (logIf v m (advance reader rest w)))).1),
     (readLoop rest reader file v isInit
        (noteSkip s (logIf v m (advance reader rest w)))).2)) as Hstep.
  { intros s m. rewrite <- IH.
    by rewrite quiet_noteSkip, quiet_logIf, quiet_advance. }
  destruct o as [ci data|err]; cbn [readLoop logIf].
  - rewrite !previousTimestamp_advance.
    change (previousTimestamp (quiet w)) with (previousTimestamp w).
    destruct (negb isInit && _); [apply Hstep|].
    case_bool_decide; [apply Hstep|].
    cbn [fst snd]. by rewrite quiet_advance.
  - apply Hstep.
Qed.

Lemma readNext_quiet reader file v isInit w :
  readNext reader file false isInit (quiet w) =
    ((quiet (readNext reader file v isInit w).1),
     (readNext reader file v isInit w).2).
Proof.
  unfold readNext. simpl. destruct (inputs w !! reader); [|done].
  apply readLoop_quiet.
Qed.

Lemma write_quiet env p v w :
  write (quietEnv env) p false (quiet w) = quiet (write env p v w).
Proof.
  unfold write, quiet. simpl.
  rewrite inputs_logIf, skipped_logIf, sinkCalls_logIf. simpl.
  by rewrite map_app.
Qed.

Lemma pendingOf_quiet reader w : pendingOf reader (quiet w) = pendingOf reader w.
Proof. done. Qed.

Lemma innerLoop_quiet env v p0 T h fuel w :
  innerLoop fuel (quietEnv env) false p0 T h (quiet w) =
    quietRun (innerLoop fuel env v p0 T h w).
Proof.
  revert w. induction fuel as [|fuel IH]; intros w; [done|].
  cbn [innerLoop]. rewrite (readNext_quiet _ _ v).
  destruct (readNext _ _ v _ w) as [w1 [p|]]; simpl; [|done].
  case_bool_decide; [|done]. by rewrite (write_quiet env p v), IH.
Qed.

Lemma mergeLoop_quiet env v fuel h w :
  mergeLoop fuel (quietEnv env) false h (quiet w) =
    match mergeLoop fuel env v h w with
    | Ok w' => Ok (quiet w')
    | Panics => Panics
    | OutOfFuel => OutOfFuel
    end.
Proof.
  revert h w. induction fuel as [|fuel IH]; intros h w; [done|].
  cbn [mergeLoop]. case_bool_decide; [|done].
  destruct (heap.Pop h) as [[p h1]|]; [|done].
  rewrite (write_quiet env p v), pendingOf_quiet.
  rewrite (innerLoop_quiet env v).
  destruct (innerLoop _ env _ _ _ _ _) as [[h2 w2]| |]; simpl; [|done..].
  apply IH.
Qed.

Lemma initOne_quiet env v st path :
  initOne (quietEnv env) false (quietInit st) path =
    quietInit (initOne env v st path).
Proof.
  unfold initOne. simpl. destruct (fs env path) as [err|err|lt size recs].
  - unfold quietInit. simpl. by rewrite quiet_logIf.
  - unfold quietInit. simpl. by rewrite quiet_logIf.
  - rewrite <- quiet_setInputs, (readNext_quiet _ _ v).
    destruct (readNext _ _ v _ _) as [w1 [p|]]; simpl.
    + unfold quietInit. simpl. repeat case_bool_decide; done.
    + unfold quietInit. simpl. by rewrite quiet_logIf.
Qed.

Lemma init_quiet env v paths st :
  foldl (initOne (quietEnv env) false) (quietInit st) paths =
    quietInit (foldl (initOne env v) st paths).
Proof.
  revert st. induction paths as [|path paths IH]; intros st; [done|].
  simpl. by rewrite (initOne_quiet env v), IH.
Qed.

(** The run with the log and the answers of the sink forgotten is the
    run of the program that never logs, on a sink that never fails. *)
Lemma joincap_quiet env args w :
  joincap (quietEnv env) args (quiet w) = quietOutcome (joincap env args w).
Proof.
  unfold joincap. cbn [ParseArgs canCreate quietEnv].
  destruct (ParseArgs env args) as [| |f]; [done..|].
  cbn [quietFlags Verbose Version OutputFilePath InFiles].
  destruct (Version f); [done|].
  destruct (InFiles f) as [|prog paths].
  { unfold quietOutcome. cbn [final logIf]. by rewrite quiet_logIf. }
  unfold initHeapWithInputFiles. cbn [logIf].
  replace (mkInitState 0 LinkTypeNull heap.Init (quiet w))
    with (quietInit (mkInitState 0 LinkTypeNull heap.Init
                        (logIf (Verbose f) MsgBanner w)))
    by (unfold quietInit; cbn [world]; by rewrite quiet_logIf).
  rewrite (init_quiet env (Verbose f)).
  set (st := foldl (initOne env (Verbose f)) _ paths).
  cbn [quietInit minTimeHeap world linkType].
  destruct (_ && _).
  { unfold quietOutcome. cbn [final returned fileHeader].
    by rewrite quiet_logIf. }
  set (w0 := logIf (Verbose f) (MsgWritingTo _) _).
  assert (mergeFuel (minTimeHeap st) (quiet (world st)) =
          mergeFuel (minTimeHeap st) w0) as ->.
  { unfold mergeFuel, totalPending, w0. cbn [quiet inputs].
    by rewrite !inputs_logIf. }
  replace (quiet (world st)) with (quiet w0)
    by (unfold w0; by rewrite !quiet_logIf).
  rewrite (mergeLoop_quiet env (Verbose f)).
  by destruct (mergeLoop _ env _ _ _).
Qed.

End quiet_facts.

(** C9: when the sink refuses a record, [write] still sets
    [previousTimestamp] to the timestamp of that record, returns no
    error, and at most logs the failure; and the whole run, log and
    answers of the sink apart, is the run on a sink that takes every
    record. *)
Theorem C9_write_failure_ignored env p v w :
  sinkAccepts env (length (sinkCalls w)) (CaptureInfoOf p) (Data p) = false →
  write env p v w =
    mkWorld (inputs w) (Timestamp p)
      (sinkCalls w ++ [mkSinkCall (CaptureInfoOf p) (Data p) false])
      (if v then logged w ++ [MsgWriteFailed] else logged w)
      (skipped w) ∧
  quiet (write env p v w) = quiet (write (alwaysAccepts env) p v w) ∧
  ∀ args w0,
    quietOutcome (joincap env args w0) =
      quietOutcome (joincap (alwaysAccepts env) args w0).
Proof.
  intros Hfail. split; [|split].
  - unfold write. rewrite Hfail. by destruct v.
  - by rewrite <- !write_quiet.
  - intros args w0. by rewrite <- !joincap_quiet.
Qed.

Lemma C9_write_failure_ignored_witness :
  let w := mkWorld [] 10 [mkSinkCall (mkCaptureInfo 10 1 1) [0] true] [] [] in
  previousTimestamp
    (write demo.envFailing (mkPacket 15 (mkCaptureInfo 15 1 1) [0] 0 0) true w)
    = 15 ∧
  quietOutcome (joincap demo.envFailing
                  ["joincap"; "a.pcap"; "b.pcap"]%string freshWorld)
    = quietOutcome (joincap (alwaysAccepts demo.envFailing)
                      ["joincap"; "a.pcap"; "b.pcap"]%string freshWorld).
Proof.
  intros w.
  destruct (C9_write_failure_ignored demo.envFailing
              (mkPacket 15 (mkCaptureInfo 15 1 1) [0] 0 0) true w)
    as (Hw & _ & Hrun); [reflexivity|].
  split; [by rewrite Hw | apply Hrun].
Defined.

(** ** At most one pending record per source (C4) *)

Lemma activeReader_inputs w w' r :
  inputs w' = inputs w → activeReader w r → activeReader w' r.
Proof. unfold activeReader. by intros ->. Qed.

Lemma activeReader_app w w' r more :
  inputs w' = inputs w ++ more → activeReader w r → activeReader w' r.
Proof.
  unfold activeReader. intros -> (inp & Hin & Hopen). exists inp.
  split; [|done]. by apply lookup_app_l_Some.
Qed.

Lemma existsb_acceptsInit_false prev (sk : list Skip) :
  Forall (λ s, judge prev true (sk_outcome s) = Reject (sk_reason s)) sk →
  existsb acceptsInit (map sk_outcome sk) = false.
Proof.
  induction 1 as [|s sk Hj _ IH]; [done|]. simpl.
  unfold acceptsInit at 1. rewrite (judge_init_prev 0 prev), Hj. done.
Qed.

(** Initialisation pushes one packet for each input that survives, and
    none for the others. *)
Lemma initOne_heap_length env v st path :
  length (minTimeHeap (initOne env v st path)) =
    (length (minTimeHeap st) + if survives env path then 1 else 0)%nat.
Proof.
  unfold survives.
  destruct (initOne_step env v st path)
    as [err Hfs _ _ Hh _|err Hfs _ _ Hh _
       |lt size recs sk Hfs Hrecs Hrej _ _ Hh _
       |lt size recs sk ci data rest Hfs Hrecs Hrej Hdata _ _ Hh _];
    rewrite Hfs, Hh.
  - lia.
  - lia.
  - rewrite Hrecs, (existsb_acceptsInit_false (previousTimestamp (world st))).
    + lia.
    + eapply Forall_impl; [done|]. by intros s [_ ?].
  - rewrite heap_facts.Push_length.
    assert (existsb acceptsInit recs = true) as ->; [|lia].
    rewrite Hrecs, existsb_app. apply orb_true_iff. right. simpl.
    unfold acceptsInit.
    assert (judge 0 true (ReadOK ci data) = Accept ci data) as ->
      by (apply judge_Accept; by split).
    done.
Qed.

Lemma init_heap_length env v paths st :
  length (minTimeHeap (foldl (initOne env v) st paths)) =
    (length (minTimeHeap st) +
     length (filter (λ path, survives env path = true) paths))%nat.
Proof.
  revert st. induction paths as [|path paths IH]; intros st; [simpl; lia|].
  simpl. rewrite IH, initOne_heap_length, filter_cons.
  destruct (survives env path).
  - rewrite decide_True by done. simpl. lia.
  - rewrite decide_False by done. lia.
Qed.

Lemma elem_of_map_1 {A B} (f : A → B) (l : list A) (x : A) :
  x ∈ l → f x ∈ map f l.
Proof. rewrite !list_elem_of_In. apply in_map. Qed.

Lemma elem_of_map_inv {A B} (f : A → B) (l : list A) (y : B) :
  y ∈ map f l → ∃ x, x ∈ l ∧ f x = y.
Proof.
  rewrite list_elem_of_In, in_map_iff. intros (x & ? & ?). exists x.
  by rewrite list_elem_of_In.
Qed.

Lemma init_onePerSource env v paths st :
  onePerSource (minTimeHeap st) (world st) →
  onePerSource (minTimeHeap (foldl (initOne env v) st paths))
    (world (foldl (initOne env v) st paths)).
Proof.
  apply (init_rule env v (λ st, onePerSource (minTimeHeap st) (world st))).
  clear st. intros st path [Hnd Hact] _.
  assert (∀ w' more, inputs w' = inputs (world st) ++ more →
            Forall (λ p, activeReader w' (Reader p) ∧ InputFile p = Reader p)
              (minTimeHeap st)) as Hmono.
  { intros w' more Hi. eapply Forall_impl; [done|].
    intros p [? ?]. split; [|done]. by eapply activeReader_app. }
  destruct (initOne_step env v st path)
    as [err _ Hi _ Hh _|err _ Hi _ Hh _|lt size recs sk _ _ _ Hi _ Hh _
       |lt size recs sk ci data rest _ _ _ _ Hi _ Hh _];
    unfold onePerSource; rewrite Hh.
  - split; [done|]. apply (Hmono _ []). by rewrite app_nil_r.
  - split; [done|]. by eapply Hmono.
  - split; [done|]. by eapply Hmono.
  - rewrite heap_facts.Push_perm. simpl. split.
    + constructor; [|done]. intros (q & Hel & Hq)%elem_of_map_inv.
      rewrite Forall_forall in Hact.
      destruct (Hact q Hel) as [(inp & Hin & _) _].
      apply lookup_lt_Some in Hin. lia.
    + constructor; [|by eapply Hmono]. simpl. split; [|done].
      unfold activeReader. rewrite Hi. eexists.
      split; [by apply list_lookup_middle | done].
Qed.

(** One iteration: the root is popped, and the heap gets back at most
    one packet, read from the input of the popped one.  In every state
    in which the inner loop reads, that input is open: the merge never
    reads from an input it has closed. *)
Lemma mergeIter_onePerSource env v h w h' w' :
  onePerSource h w →
  mergeIter env v h w = Ok (h', w') →
  onePerSource h' w' ∧
  ∃ p h1, heap.Pop h = Some (p, h1) ∧
          onePerSource h1 (write env p v w) ∧
          (h' = h1 ∨ ∃ q, h' = heap.Push h1 q ∧ Reader q = Reader p).
Proof.
  intros [Hnd Hact]. destruct h as [|x t]; [done|].
  destruct (mergeIter_cons env v x t w) as (h1 & Hperm & Hpop & _ & ->).
  simpl in Hnd. apply NoDup_cons in Hnd as [Hfresh Hnd].
  apply Forall_cons in Hact as [[Hx Hfile] Ht].
  assert (Reader x ∉ map Reader h1) as Hfresh1.
  { by rewrite Hperm. }
  assert (onePerSource h1 (write env x v w)) as Hone1.
  { split; [by rewrite Hperm|]. rewrite Hperm.
    eapply Forall_impl; [done|]. intros q [? ?]. split; [|done].
    eapply activeReader_inputs; [|done]. apply inputs_write. }
  intros Hinner. cut (onePerSource h' w' ∧
    (h' = h1 ∨ ∃ q, h' = heap.Push h1 q ∧ Reader q = Reader x)).
  { intros [? ?]. split; [done|]. by exists x, h1. }
  revert Hinner.
  apply (innerLoop_rule env v x (thresholdOf h1) h1
    (λ w0, activeReader w0 (Reader x) ∧
           Forall (λ p, activeReader w0 (Reader p) ∧ InputFile p = Reader p)
             h1)
    (λ h0 w0, onePerSource h0 w0 ∧
       (h0 = h1 ∨ ∃ q, h0 = heap.Push h1 q ∧ Reader q = Reader x))).
  - intros w0 w1 [Hax Hah]. rewrite Hfile.
    intros (_ & _ & _ & Hother & _)%readNext_inv.
    split; [|by left]. split; [by destruct Hone1|].
    apply Forall_forall. intros q Hq.
    rewrite Forall_forall in Hah. destruct (Hah q Hq) as [Haq Hfq].
    split; [|done]. unfold activeReader. rewrite Hother; [done|].
    intros Heq. apply Hfresh1. rewrite <- Heq. by apply elem_of_map_1.
  - intros w0 w1 p [Hax Hah]. rewrite Hfile.
    intros (_ & _ & _ & Hother & Hself & _)%readNext_inv _.
    split.
    + destruct Hax as (inp & Hin & Hopen).
      exists (mkOpenInput (in_name inp) (in_linkType inp)
                (pendingOf (Reader x) w1) (in_closed inp)).
      rewrite inputs_write. split; [by apply Hself|done].
    + apply Forall_forall. intros q Hq.
      rewrite Forall_forall in Hah. destruct (Hah q Hq) as [Haq Hfq].
      split; [|done]. unfold activeReader. rewrite inputs_write, Hother; [done|].
      intros Heq. apply Hfresh1. rewrite <- Heq. by apply elem_of_map_1.
  - intros w0 w1 p [Hax Hah]. rewrite Hfile.
    intros (_ & _ & _ & Hother & Hself & _ & sk & _ & _ & ci & data & _ & -> & _)
      %readNext_inv _.
    split; [|right; by eexists].
    split.
    + rewrite heap_facts.Push_perm. simpl. constructor; [done|].
      by destruct Hone1.
    + rewrite heap_facts.Push_perm. constructor.
      * simpl. split; [|done].
        destruct Hax as (inp & Hin & Hopen).
        exists (mkOpenInput (in_name inp) (in_linkType inp)
                  (pendingOf (Reader x) w1) (in_closed inp)).
        split; [by apply Hself|done].
      * apply Forall_forall. intros q Hq.
        rewrite Forall_forall in Hah. destruct (Hah q Hq) as [Haq Hfq].
        split; [|done]. unfold activeReader. rewrite Hother; [done|].
        intros Heq. apply Hfresh1. rewrite <- Heq. by apply elem_of_map_1.
  - split; [|by destruct Hone1].
    eapply activeReader_inputs; [apply inputs_write|done].
Qed.

(** An iteration from a heap that is not empty, whose packets name
    their own inputs, comes to its end. *)
Lemma mergeIter_returns env v h w :
  Forall (λ p, InputFile p = Reader p) h → h ≠ [] →
  ∃ h' w', mergeIter env v h w = Ok (h', w').
Proof.
  intros Hfile Hne. destruct h as [|x t]; [done|].
  destruct (mergeIter_cons env v x t w) as (h1 & _ & _ & _ & ->).
  apply Forall_cons in Hfile as [Hx _].
  apply innerLoop_terminates; [done|lia].
Qed.

(** The loop passes through the state of every iteration head: from
    the start it does what it does from there, with the fuel of the
    iterations in between. *)
Lemma Reachable_mergeLoop env v h0 w0 h w :
  Reachable env v h0 w0 h w →
  ∃ k, ∀ n, mergeLoop (k + n) env v h0 w0 = mergeLoop n env v h w.
Proof.
  induction 1 as [|h w h' w' _ [k IH] Hiter].
  - by exists 0%nat.
  - exists (S k). intros n.
    replace (S k + n)%nat with (k + S n)%nat by lia.
    rewrite IH, mergeLoop_S, Hiter.
    rewrite bool_decide_eq_true_2; [done|].
    destruct h; [done|]. unfold minheap.Len. simpl. lia.
Qed.

(** C4: [initHeapWithInputFiles] leaves on the heap one packet for each
    input that survives it, no two from the same input and each from an
    input that is open; a call of [joincap] that gets to the merge is
    the run of [mergeLoop] from that heap; that run passes through
    every iteration head, where again no two packets of the heap come
    from the same input and each comes from an input that is still
    open; with the empty heap the loop ends, and otherwise the
    iteration pops one packet (leaving a heap with the same property),
    pushes at most one, read from the input of the popped packet, and
    the loop goes on from the heap and state so reached. *)
Theorem C4_one_pending_record_per_source env f paths w0 :
  let v := Verbose f in
  let init :=
    initHeapWithInputFiles env paths heap.Init v (logIf v MsgBanner w0) in
  let h0 := init.1.2 in
  let ws :=
    logIf v (MsgWritingTo (if String.eqb (OutputFilePath f) "-"
                           then "/dev/stdout" else OutputFilePath f))
      init.2 in
  (length h0 = length (filter (λ path, survives env path = true) paths) ∧
   onePerSource h0 ws) ∧
  (∀ args, Merges env args f paths →
     ∃ w', mergeLoop (mergeFuel h0 ws) env v h0 ws = Ok w' ∧
           joincap env args w0 =
             mkOutcome (Ok None) (Some (maxSnaplen, init.1.1.1)) w') ∧
  ∀ h w,
    Reachable env v h0 ws h w →
    onePerSource h w ∧
    (∃ k, ∀ n, mergeLoop (k + n) env v h0 ws = mergeLoop n env v h w) ∧
    (h = [] → ∀ fuel, mergeLoop (S fuel) env v h w = Ok w) ∧
    (h ≠ [] →
     ∃ p h1 h' w',
       heap.Pop h = Some (p, h1) ∧
       onePerSource h1 (write env p v w) ∧
       (h' = h1 ∨ ∃ q, h' = heap.Push h1 q ∧ Reader q = Reader p) ∧
       mergeIter env v h w = Ok (h', w') ∧
       onePerSource h' w' ∧
       ∀ fuel, mergeLoop (S fuel) env v h w = mergeLoop fuel env v h' w').
Proof.
  intros v init h0 ws.
  change h0 with (minTimeHeap (afterInit env f paths w0)).
  change ws with (mergeStart env f paths w0).
  change init.1.1.1 with (linkType (afterInit env f paths w0)).
  assert (onePerSource (minTimeHeap (afterInit env f paths w0))
            (mergeStart env f paths w0)) as Hstart.
  { destruct (init_onePerSource env (Verbose f) paths
                (mkInitState 0 LinkTypeNull heap.Init
                   (logIf (Verbose f) MsgBanner w0))) as [Hnd Hact].
    { split; [constructor|constructor]. }
    split; [done|]. eapply Forall_impl; [done|].
    intros p [? ?]. split; [|done]. eapply activeReader_inputs; [|done].
    unfold mergeStart. by rewrite !inputs_logIf. }
  split; [split; [unfold afterInit; by rewrite init_heap_length|done]|].
  split; [intros args Hm; apply (joincap_merges env args f paths w0 Hm)|].
  intros h w Hreach.
  assert (onePerSource h w) as Hone.
  { induction Hreach as [|h w h' w' _ IH Hiter]; [done|].
    by destruct (mergeIter_onePerSource _ _ _ _ _ _ IH Hiter). }
  split; [done|]. split; [by apply Reachable_mergeLoop|]. split.
  - intros -> fuel. by rewrite mergeLoop_S.
  - intros Hne.
    destruct (mergeIter_returns env v h w) as (h' & w' & Hiter); [|done|].
    { destruct Hone as [_ Hact]. eapply Forall_impl; [done|].
      by intros p [_ ?]. }
    destruct (mergeIter_onePerSource _ _ _ _ _ _ Hone Hiter)
      as (Hone' & p & h1 & Hpop & Hone1 & Hpush).
    exists p, h1, h', w'. repeat (split; [done|]).
    intros fuel. rewrite mergeLoop_S, Hiter.
    rewrite bool_decide_eq_true_2; [done|].
    destruct h; [done|]. unfold minheap.Len. simpl. lia.
Qed.

Lemma C4_one_pending_record_per_source_witness :
  let paths := ["a.pcap"; "b.pcap"]%string in
  let init :=
    initHeapWithInputFiles demo.env paths heap.Init false
      (logIf false MsgBanner freshWorld) in
  let h0 := init.1.2 in
  let ws := logIf false (MsgWritingTo "/dev/stdout") init.2 in
  map Reader h0 = [0; 1]%nat ∧
  onePerSource h0 ws ∧
  ∃ h' w',
    mergeIter demo.env false h0 ws = Ok (h', w') ∧
    map (λ p, (Timestamp p, Reader p)) h' = [(15, 1%nat); (20, 0%nat)] ∧
    onePerSource h' w' ∧
    ∀ fuel, mergeLoop (S fuel) demo.env false h0 ws
            = mergeLoop fuel demo.env false h' w'.
Proof.
  intros paths init h0 ws.
  destruct (C4_one_pending_record_per_source demo.env
              (demo.flagsOf ("joincap"%string :: paths)) paths freshWorld)
    as ([_ Hone] & _ & Hloop).
  split; [by vm_compute|]. split; [exact Hone|].
  destruct (Hloop h0 ws) as (_ & _ & _ & Hstep); [constructor|].
  destruct Hstep as (p & h1 & h' & w' & _ & _ & _ & Hiter & Hone' & Hgo);
    [by vm_compute|].
  exists h', w'. split; [exact Hiter|]. split; [|by split].
  vm_compute in Hiter. by injection Hiter as <- _.
Defined.

(** ** Every record is written or passed over (C2) *)

Lemma totalPending_app w w' more :
  inputs w' = inputs w ++ more →
  totalPending w' =
    (totalPending w + sum_list_with (λ inp, length (in_pending inp)) more)%nat.
Proof.
  unfold totalPending. intros ->. by rewrite sum_list_with_app.
Qed.

Lemma accounted_app N h w w' :
  accounted N h w →
  sinkCalls w' = sinkCalls w → skipped w' = skipped w →
  (inputs w' = inputs w ∨
   ∃ name lt closed, inputs w' = inputs w ++ [mkOpenInput name lt [] closed]) →
  accounted N h w'.
Proof.
  intros (Hcount & Hcover & Hfile) Hc Hs Hi. split; [|split; [|done]].
  - rewrite Hc, Hs. destruct Hi as [Hi|(name & lt & closed & Hi)].
    + unfold totalPending. by rewrite Hi.
    + rewrite (totalPending_app w w' _ Hi). simpl. lia.
  - intros r inp Hin Hne. destruct Hi as [Hi|(name & lt & closed & Hi)].
    + rewrite Hi in Hin. by eapply Hcover.
    + rewrite Hi in Hin. apply lookup_app_Some in Hin as [Hin|[_ Hin]].
      * by eapply Hcover.
      * apply list_lookup_singleton_Some in Hin as [_ <-]. done.
Qed.

Lemma initOne_accounted env v st path N :
  accounted N (minTimeHeap st) (world st) →
  accounted (N + totalRecords env [path])
    (minTimeHeap (initOne env v st path)) (world (initOne env v st path)).
Proof.
  intros Hacc. unfold totalRecords. simpl.
  pose proof (sinkCalls_initOne env v st path) as Hc.
  destruct (initOne_step env v st path)
    as [err Hfs Hi Hs Hh _|err Hfs Hi Hs Hh _
       |lt size recs sk Hfs Hrecs _ Hi Hs Hh _
       |lt size recs sk ci data rest Hfs Hrecs _ _ Hi Hs Hh _];
    rewrite Hfs, Hh.
  - rewrite !Nat.add_0_r. eapply accounted_app; eauto.
  - rewrite !Nat.add_0_r. eapply accounted_app; eauto 10.
  - destruct Hacc as (Hcount & Hcover & Hfile). split; [|split; [|done]].
    + rewrite Hc, Hs, length_app, (totalPending_app _ _ _ Hi). simpl.
      rewrite Hrecs, length_map. lia.
    + intros r inp Hin Hne. rewrite Hi in Hin.
      apply lookup_app_Some in Hin as [Hin|[_ Hin]].
      * by eapply Hcover.
      * apply list_lookup_singleton_Some in Hin as [_ <-]. done.
  - destruct Hacc as (Hcount & Hcover & Hfile). split; [|split].
    + rewrite Hc, Hs, length_app, (totalPending_app _ _ _ Hi).
      rewrite heap_facts.Push_length. simpl.
      rewrite Hrecs, length_app, length_map. simpl. lia.
    + intros r inp Hin Hne. rewrite Hi in Hin.
      apply lookup_app_Some in Hin as [Hin|[Hlen Hin]].
      * destruct (Hcover r inp Hin Hne) as (p & Hp & Hr).
        exists p. split; [|done]. rewrite heap_facts.Push_perm. by right.
      * apply list_lookup_singleton_Some in Hin as [Hr _].
        eexists. split; [rewrite heap_facts.Push_perm; by left|].
        simpl. lia.
    + rewrite heap_facts.Push_perm. by constructor.
Qed.

Lemma init_accounted env v paths st N :
  accounted N (minTimeHeap st) (world st) →
  accounted (N + totalRecords env paths)
    (minTimeHeap (foldl (initOne env v) st paths))
    (world (foldl (initOne env v) st paths)).
Proof.
  revert st N. induction paths as [|path paths IH]; intros st N Hacc.
  - unfold totalRecords. simpl. by rewrite Nat.add_0_r.
  - cbn [foldl]. replace (N + totalRecords env (path :: paths))%nat
      with (N + totalRecords env [path] + totalRecords env paths)%nat
      by (unfold totalRecords; simpl; lia).
    apply IH. by apply initOne_accounted.
Qed.

Lemma mergeIter_accounted env v N h w h' w' :
  accounted N h w → mergeIter env v h w = Ok (h', w') → accounted N h' w'.
Proof.
  intros (Hcount & Hcover & Hfile). destruct h as [|x t]; [done|].
  destruct (mergeIter_cons env v x t w) as (h1 & Hperm & _ & _ & ->).
  apply Forall_cons in Hfile as [Hfx Hft]. rewrite <- Hperm in Hft.
  apply (innerLoop_rule env v x (thresholdOf h1) h1
    (λ w0, (length (sinkCalls w0) + length (skipped w0) + length h1
            + totalPending w0 = N)%nat ∧
           (∀ r inp, r ≠ Reader x → inputs w0 !! r = Some inp →
                     in_pending inp ≠ [] → ∃ p, p ∈ h1 ∧ Reader p = r))
    (accounted N)).
  - intros w0 w1 [Hn Hcov]. rewrite Hfx.
    intros (_ & Hc & Hlen & Hother & Hself & Hsum & sk & Hs & _ & Hp & Hp')
      %readNext_inv.
    split; [|split; [|done]].
    + rewrite Hc, Hs, length_app. rewrite Hp, Hp', length_map in Hsum.
      simpl in Hsum. lia.
    + intros r inp Hin Hne. destruct (decide (r = Reader x)) as [->|Hr].
      * destruct (inputs w0 !! Reader x) as [inp0|] eqn:Hin0.
        -- rewrite (Hself _ eq_refl) in Hin. injection Hin as <-.
           simpl in Hne. by rewrite Hp' in Hne.
        -- apply lookup_lt_Some in Hin. apply lookup_ge_None in Hin0. lia.
      * rewrite Hother in Hin by done. by eapply Hcov.
  - intros w0 w1 p [Hn Hcov]. rewrite Hfx.
    intros (_ & Hc & _ & Hother & _ & Hsum & sk & Hs & _ & ci & data & Hp & _)
      %readNext_inv _.
    split.
    + rewrite sinkCalls_write, skipped_write, totalPending_write.
      rewrite Hc, Hs, !length_app. rewrite Hp, length_app, length_map in Hsum.
      simpl in *. lia.
    + intros r inp Hr Hin Hne. rewrite inputs_write, Hother in Hin by done.
      by eapply Hcov.
  - intros w0 w1 p [Hn Hcov]. rewrite Hfx.
    intros (_ & Hc & _ & Hother & _ & Hsum & sk & Hs & _ & ci & data & Hp & -> & _)
      %readNext_inv _.
    split; [|split].
    + rewrite Hc, Hs, length_app, heap_facts.Push_length.
      rewrite Hp, length_app, length_map in Hsum. simpl in *. lia.
    + intros r inp Hin Hne. destruct (decide (r = Reader x)) as [->|Hr].
      * eexists. split; [rewrite heap_facts.Push_perm; by left|done].
      * rewrite Hother in Hin by done.
        destruct (Hcov r inp Hr Hin Hne) as (q & Hq & Hrq).
        exists q. split; [|done]. rewrite heap_facts.Push_perm. by right.
    + rewrite heap_facts.Push_perm. by constructor.
  - split.
    + rewrite sinkCalls_write, skipped_write, totalPending_write.
      rewrite length_app, Hperm. simpl in *. lia.
    + intros r inp Hr. rewrite inputs_write. intros Hin Hne.
      destruct (Hcover r inp Hin Hne) as (q & Hq & Hrq).
      exists q. split; [|done]. rewrite Hperm.
      apply elem_of_cons in Hq as [->|Hq]; [done|done].
Qed.

Lemma judge_decodes prev isInit o why :
  decodes o → judge prev isInit o = Reject why → why ≠ DecodeFailed.
Proof.
  destruct o as [ci data|err]; [|done]. intros _. unfold judge.
  repeat case_match; by intros [= <-].
Qed.

Lemma readNext_allDecode reader v isInit w w' r :
  allDecode w → readNext reader reader v isInit w = (w', r) → allDecode w'.
Proof.
  intros [Hin Hsk]
    (_ & _ & Hlen & Hother & Hself & _ & sk & Hs & Hrej & Hres)%readNext_inv.
  assert (Forall decodes (pendingOf reader w)) as Hpend.
  { unfold pendingOf. destruct (inputs w !! reader) as [inp|] eqn:Hl;
      [|constructor].
    apply (Forall_lookup_1 _ _ _ _ Hin Hl). }
  assert (Forall decodes (map sk_outcome sk) ∧
          Forall decodes (pendingOf reader w')) as [Hpre Hpend'].
  { destruct r as [p|].
    - destruct Hres as (ci & data & Hp & _). rewrite Hp in Hpend.
      apply Forall_app in Hpend as [? Hpend].
      by apply Forall_cons in Hpend as [_ ?].
    - destruct Hres as [Hp ->]. rewrite Hp in Hpend. split; [done|constructor]. }
  split.
  - apply Forall_lookup_2. intros k inp' Hk.
    destruct (decide (k = reader)) as [->|Hne].
    + destruct (inputs w !! reader) as [inp|] eqn:Hl.
      * rewrite (Hself _ eq_refl) in Hk. by injection Hk as <-.
      * apply lookup_lt_Some in Hk. apply lookup_ge_None in Hl. lia.
    + rewrite Hother in Hk by done. apply (Forall_lookup_1 _ _ _ _ Hin Hk).
  - rewrite Hs. apply Forall_app. split; [done|].
    apply Forall_forall. intros s Hel.
    rewrite Forall_forall in Hrej. destruct (Hrej s Hel) as [_ Hj].
    eapply judge_decodes; [|done].
    rewrite Forall_forall in Hpre. apply Hpre. by apply elem_of_map_1.
Qed.

Lemma mergeIter_allDecode env v h w h' w' :
  Forall (λ p, InputFile p = Reader p) h →
  allDecode w → mergeIter env v h w = Ok (h', w') → allDecode w'.
Proof.
  intros Hfile Hall. destruct h as [|x t]; [done|].
  destruct (mergeIter_cons env v x t w) as (h1 & _ & _ & _ & ->).
  apply Forall_cons in Hfile as [Hfx _].
  apply (innerLoop_rule env v x (thresholdOf h1) h1 allDecode
           (λ _ w0, allDecode w0)).
  - intros w0 w1 ?. rewrite Hfx. by apply readNext_allDecode.
  - intros w0 w1 p ?. rewrite Hfx. intros ?%readNext_allDecode _; [|done].
    unfold allDecode. by rewrite inputs_write, skipped_write.
  - intros w0 w1 p ?. rewrite Hfx. intros ?%readNext_allDecode _; done.
  - unfold allDecode. by rewrite inputs_write, skipped_write.
Qed.

Lemma init_allDecode env v paths st :
  (∀ path lt size recs, path ∈ paths → fs env path = Pcap lt size recs →
                        Forall decodes recs) →
  allDecode (world st) →
  allDecode (world (foldl (initOne env v) st paths)).
Proof.
  intros Hvalid.
  apply (init_rule env v (λ st, allDecode (world st))).
  clear st. intros st path [Hin Hsk] Hel.
  assert (∀ s recs, Forall decodes recs → s ∈ recs →
            judge (previousTimestamp (world st)) true s ≠ Reject DecodeFailed)
    as Hnot.
  { intros s recs Hrecs Hs Hj. rewrite Forall_forall in Hrecs.
    by eapply judge_decodes; [by apply Hrecs| |]. }
  destruct (initOne_step env v st path)
    as [err _ Hi Hs _ _|err _ Hi Hs _ _
       |lt size recs sk Hfs Hrecs Hrej Hi Hs _ _
       |lt size recs sk ci data rest Hfs Hrecs Hrej _ Hi Hs _ _];
    unfold allDecode; rewrite Hi, Hs.
  - done.
  - split; [|done]. apply Forall_app. split; [done|]. by repeat constructor.
  - specialize (Hvalid _ _ _ _ Hel Hfs).
    split; [apply Forall_app; split; [done|]; by repeat constructor|].
    apply Forall_app. split; [done|].
    apply Forall_forall. intros s Hs' Hr.
    rewrite Forall_forall in Hrej. destruct (Hrej s Hs') as [_ Hj].
    rewrite Hr in Hj. apply (Hnot (sk_outcome s) recs); [done| |done].
    rewrite Hrecs. by apply elem_of_map_1.
  - specialize (Hvalid _ _ _ _ Hel Hfs).
    split.
    + apply Forall_app; split; [done|]. repeat constructor. simpl.
      rewrite Hrecs in Hvalid. apply Forall_app in Hvalid as [_ Hvalid].
      by apply Forall_cons in Hvalid as [_ ?].
    + apply Forall_app. split; [done|].
      apply Forall_forall. intros s Hs' Hr.
      rewrite Forall_forall in Hrej. destruct (Hrej s Hs') as [_ Hj].
      rewrite Hr in Hj. apply (Hnot (sk_outcome s) recs); [done| |done].
      rewrite Hrecs. apply elem_of_app. left. by apply elem_of_map_1.
Qed.

Lemma start_accounted env f paths prev :
  accounted (totalRecords env paths)
    (minTimeHeap (afterInit env f paths (startWorld prev)))
    (mergeStart env f paths (startWorld prev)).
Proof.
  assert (accounted (0 + totalRecords env paths)
            (minTimeHeap (afterInit env f paths (startWorld prev)))
            (world (afterInit env f paths (startWorld prev)))) as Hacc.
  { apply init_accounted. cbn [world minTimeHeap]. split; [|split].
    - unfold totalPending.
      by rewrite sinkCalls_logIf, skipped_logIf, inputs_logIf.
    - intros r inp. by rewrite inputs_logIf.
    - constructor. }
  eapply accounted_app; [apply Hacc|unfold mergeStart..].
  - by rewrite !sinkCalls_logIf.
  - by rewrite !skipped_logIf.
  - left. by rewrite !inputs_logIf.
Qed.

(** With the empty heap, nothing is pending any more. *)
Lemma accounted_nil N w :
  accounted N [] w → (length (sinkCalls w) + length (skipped w) = N)%nat.
Proof.
  intros (Hcount & Hcover & _).
  assert (totalPending w = 0%nat) as Hzero; [|simpl in Hcount; lia].
  unfold totalPending.
  induction (inputs w) as [|inp ins IH] using rev_ind; [done|].
  rewrite sum_list_with_app. simpl. rewrite IH.
  - destruct (in_pending inp) eqn:Hp; [done|].
    destruct (Hcover (length ins) inp) as (p & Hp' & _).
    + by apply list_lookup_middle.
    + by rewrite Hp.
    + by apply elem_of_nil in Hp'.
  - intros r inp' Hin. apply (Hcover r inp'). by apply lookup_app_l_Some.
Qed.

(** Conservation in general: in a call that gets to the merge, every
    read of every capture among the inputs ends up handed to the sink or
    passed over. *)
Lemma joincap_accounted env args f paths prev :
  Merges env args f paths →
  returned (joincap env args (startWorld prev)) = Ok None ∧
  (length (sinkCalls (final (joincap env args (startWorld prev)))) +
   length (skipped (final (joincap env args (startWorld prev))))
   = totalRecords env paths)%nat.
Proof.
  intros Hm.
  destruct (joincap_rule env args f paths (startWorld prev)
              (accounted (totalRecords env paths)) Hm)
    as (Hret & _ & Hacc).
  - apply start_accounted.
  - intros h w h' w'. apply mergeIter_accounted.
  - split; [done|]. by apply accounted_nil.
Qed.

Lemma mergeIter_answered env v h w h' w' :
  Forall (λ p, InputFile p = Reader p) h →
  answered env w → mergeIter env v h w = Ok (h', w') → answered env w'.
Proof.
  intros Hfile Hans. destruct h as [|x t]; [done|].
  destruct (mergeIter_cons env v x t w) as (h1 & _ & _ & _ & ->).
  apply Forall_cons in Hfile as [Hfx _].
  assert (∀ p w0, answered env w0 → answered env (write env p v w0)) as Hw.
  { intros p w0 Hw0. unfold answered. rewrite sinkCalls_write.
    apply Forall_app. split; [done|]. repeat constructor. simpl. eauto. }
  apply (innerLoop_rule env v x (thresholdOf h1) h1 (answered env)
           (λ _ w0, answered env w0)).
  - intros w0 w1 ?. rewrite Hfx. intros (_ & Hc & _)%readNext_inv.
    unfold answered. by rewrite Hc.
  - intros w0 w1 p ?. rewrite Hfx. intros (_ & Hc & _)%readNext_inv _.
    apply Hw. unfold answered. by rewrite Hc.
  - intros w0 w1 p ?. rewrite Hfx. intros (_ & Hc & _)%readNext_inv _.
    unfold answered. by rewrite Hc.
  - by apply Hw.
Qed.

Lemma filter_all {A} (P : A → Prop) `{∀ x, Decision (P x)} (l : list A) :
  Forall P l → filter P l = l.
Proof.
  induction 1 as [|x l Hx _ IH]; [done|].
  by rewrite filter_cons, decide_True, IH.
Qed.

(** ** Inputs in time order merge in time order (C1) *)

Lemma stamps_app l1 l2 : stamps (l1 ++ l2) = stamps l1 ++ stamps l2.
Proof. apply omap_app. Qed.

Lemma readNext_inputs_Forall (Φ : list ReadOutcome → Prop)
    reader v isInit w w' r :
  (∀ l1 l2, Φ (l1 ++ l2) → Φ l2) →
  Forall (λ inp, Φ (in_pending inp)) (inputs w) →
  readNext reader reader v isInit w = (w', r) →
  Forall (λ inp, Φ (in_pending inp)) (inputs w').
Proof.
  intros Hsuffix Hin
    (_ & _ & Hlen & Hother & Hself & _ & sk & _ & _ & Hres)%readNext_inv.
  apply Forall_lookup_2. intros k inp' Hk.
  destruct (decide (k = reader)) as [->|Hne].
  - destruct (inputs w !! reader) as [inp|] eqn:Hl.
    + rewrite (Hself _ eq_refl) in Hk. injection Hk as <-. simpl.
      pose proof (Forall_lookup_1 _ _ _ _ Hin Hl) as Hinp. simpl in Hinp.
      rewrite <- (pendingOf_lookup _ _ _ Hl) in Hinp.
      destruct r as [p|].
      * destruct Hres as (ci & data & Hp & _). rewrite Hp in Hinp.
        apply Hsuffix in Hinp. by apply (Hsuffix [_]) in Hinp.
      * destruct Hres as [Hp ->]. apply (Hsuffix (pendingOf reader w)).
        by rewrite app_nil_r.
    + apply lookup_lt_Some in Hk. apply lookup_ge_None in Hl. lia.
  - rewrite Hother in Hk by done. apply (Forall_lookup_1 _ _ _ _ Hin Hk).
Qed.

Lemma readNext_sourcesSorted reader v isInit w w' r :
  sourcesSorted w → readNext reader reader v isInit w = (w', r) →
  sourcesSorted w'.
Proof.
  apply (readNext_inputs_Forall (λ l, StronglySorted Z.le (stamps l))).
  intros l1 l2. rewrite stamps_app. apply StronglySorted_app_1_r.
Qed.

(** What an input holds after a read is the end of what it held. *)
Lemma readNext_stamps_suffix reader v isInit w w' r k :
  readNext reader reader v isInit w = (w', r) →
  ∃ pre, stamps (pendingOf k w) = pre ++ stamps (pendingOf k w').
Proof.
  intros Hread. destruct (decide (k = reader)) as [->|Hne].
  - apply readNext_inv in Hread
      as (_ & _ & _ & _ & _ & _ & sk & _ & _ & Hres).
    destruct r as [p|].
    + destruct Hres as (ci & data & -> & _).
      exists (stamps (map sk_outcome sk ++ [ReadOK ci data])).
      by rewrite <- stamps_app, <- app_assoc.
    + destruct Hres as [_ ->]. exists (stamps (pendingOf reader w)).
      by rewrite app_nil_r.
  - exists []. by rewrite (readNext_pendingOf_ne _ _ _ _ _ _ _ Hread).
Qed.

Lemma readNext_stamps_Forall (φ : Z → Prop) reader v isInit w w' r k :
  readNext reader reader v isInit w = (w', r) →
  Forall φ (stamps (pendingOf k w)) → Forall φ (stamps (pendingOf k w')).
Proof.
  intros [pre ->]%(readNext_stamps_suffix _ _ _ _ _ _ k).
  by intros [_ ?]%Forall_app.
Qed.

(** The packet a read returns is in the table, it carries the timestamp
    of its record, and what its input holds after it starts there. *)
Lemma readNext_packet reader v isInit w w' p :
  readNext reader reader v isInit w = (w', Some p) →
  wfPacket w' p ∧ Reader p = reader ∧
  ∃ pre, stamps (pendingOf reader w) =
           pre ++ Timestamp p :: stamps (pendingOf reader w').
Proof.
  intros (_ & _ & Hlen & _ & _ & _ & sk & _ & _ & ci & data & Hp & -> & _ & Hlt)
    %readNext_inv.
  split; [|split; [done|]].
  - unfold wfPacket. simpl. split; [lia|done].
  - exists (stamps (map sk_outcome sk)). by rewrite Hp, stamps_app.
Qed.

Lemma StronglySorted_snoc (l : list Z) x :
  StronglySorted Z.le l → Forall (λ y, y <= x) l →
  StronglySorted Z.le (l ++ [x]).
Proof.
  intros Hl Hx. apply StronglySorted_app. split; [|split; [done|]].
  - intros x1 x2 Hx1 ->%list_elem_of_singleton.
    rewrite Forall_forall in Hx. by apply Hx.
  - repeat constructor.
Qed.

Lemma StronglySorted_adjacent (l : list Z) i a b :
  StronglySorted Z.le l → l !! i = Some a → l !! S i = Some b → a <= b.
Proof.
  intros Hl Ha Hb.
  rewrite <- (take_drop_middle l i a Ha) in Hl.
  apply StronglySorted_app_1_r, StronglySorted_cons in Hl as [Hl _].
  rewrite Forall_forall in Hl. apply Hl.
  apply list_elem_of_lookup. exists 0%nat. by rewrite lookup_drop, Nat.add_0_r.
Qed.

Lemma StronglySorted_filter (P : SinkCall → Prop) `{∀ x, Decision (P x)}
    (l : list SinkCall) :
  StronglySorted Z.le (map callStamp l) →
  StronglySorted Z.le (map callStamp (filter P l)).
Proof.
  induction l as [|c l IH]; [done|]. simpl.
  intros [Hc Hl]%StronglySorted_cons. rewrite filter_cons.
  destruct (decide (P c)); [|by apply IH]. simpl.
  apply StronglySorted_cons. split; [|by apply IH].
  rewrite Forall_forall in Hc. apply Forall_forall.
  intros t (c' & Hc' & <-)%elem_of_map_inv. apply Hc.
  apply elem_of_map_1. by apply list_elem_of_filter in Hc' as [_ ?].
Qed.

Lemma pendingOf_more w w' more r :
  inputs w' = inputs w ++ more → (r < length (inputs w))%nat →
  pendingOf r w' = pendingOf r w.
Proof. intros Hi Hr. unfold pendingOf. by rewrite Hi, lookup_app_l. Qed.

Lemma inOrder_more h w w' more :
  inOrder h w →
  inputs w' = inputs w ++ more →
  sinkCalls w' = sinkCalls w →
  Forall (λ inp, StronglySorted Z.le (stamps (in_pending inp))) more →
  inOrder h w'.
Proof.
  intros (Hwf & Hord & Hsrc & Hpend & Hcalls & Hle) Hi Hc Hmore.
  split; [|split; [done|split; [|split; [|split]]]].
  - eapply Forall_impl; [done|]. intros p (? & ? & ?).
    split; [|done]. rewrite Hi, length_app. lia.
  - unfold sourcesSorted. rewrite Hi. by apply Forall_app.
  - intros p Hp. rewrite (pendingOf_more w w' more); [by apply Hpend|done|].
    rewrite Forall_forall in Hwf. by destruct (Hwf p Hp).
  - by rewrite Hc.
  - rewrite Hc. apply Hle.
Qed.

Lemma initOne_inOrder env v st path :
  (∀ lt size recs, fs env path = Pcap lt size recs → timeOrdered recs) →
  inOrder (minTimeHeap st) (world st) ∧ sinkCalls (world st) = [] →
  inOrder (minTimeHeap (initOne env v st path)) (world (initOne env v st path))
  ∧ sinkCalls (world (initOne env v st path)) = [].
Proof.
  intros Hsorted [Hin Hnil].
  pose proof (sinkCalls_initOne env v st path) as Hc.
  split; [|congruence].
  destruct (initOne_step env v st path)
    as [err _ Hi _ Hh _|err _ Hi _ Hh _|lt size recs sk _ _ _ Hi _ Hh _
       |lt size recs sk ci data rest Hfs Hrecs _ _ Hi _ Hh _]; rewrite Hh.
  - apply (inOrder_more _ (world st) _ []);
      [done|by rewrite app_nil_r|done|constructor].
  - eapply inOrder_more; [done..|]. repeat constructor.
  - eapply inOrder_more; [done..|]. repeat constructor.
  - specialize (Hsorted _ _ _ Hfs). unfold timeOrdered in Hsorted.
    apply Sorted_StronglySorted in Hsorted; [|apply _].
    rewrite Hrecs, stamps_app in Hsorted.
    apply StronglySorted_app_1_r in Hsorted. simpl in Hsorted.
    apply StronglySorted_cons in Hsorted as [Hfirst Hrest].
    assert (inOrder (minTimeHeap st) (world (initOne env v st path)))
      as (Hwf & Hord & Hsrc & Hpend & Hcalls & Hle).
    { eapply inOrder_more; [done..|]. by repeat constructor. }
    set (p := mkPacket _ _ _ _ _).
    assert (pendingOf (Reader p) (world (initOne env v st path)) = rest)
      as Hprest.
    { unfold pendingOf. rewrite Hi. simpl.
      by rewrite list_lookup_middle. }
    split; [|split; [|split; [done|split; [|split; [done|]]]]].
    + rewrite heap_facts.Push_perm. constructor; [|done].
      unfold wfPacket. rewrite Hi, length_app. simpl. split; [lia|done].
    + by apply heap_facts.Push_ordered.
    + intros q. rewrite heap_facts.Push_perm.
      intros [->|Hq]%elem_of_cons; [by rewrite Hprest|by apply Hpend].
    + intros c q. rewrite Hc, Hnil. by intros ?%elem_of_nil.
Qed.

Lemma start_inOrder env f paths prev :
  (∀ path lt size recs,
     path ∈ paths → fs env path = Pcap lt size recs → timeOrdered recs) →
  inOrder (minTimeHeap (afterInit env f paths (startWorld prev)))
    (mergeStart env f paths (startWorld prev)).
Proof.
  intros Hsorted.
  destruct (init_rule env (Verbose f)
              (λ st, inOrder (minTimeHeap st) (world st)
                     ∧ sinkCalls (world st) = []) paths
              (mkInitState 0 LinkTypeNull heap.Init
                 (logIf (Verbose f) MsgBanner (startWorld prev))))
    as [Hin _].
  - intros st path Hst Hel. apply initOne_inOrder; [|done].
    intros lt size recs. by apply Hsorted.
  - cbn [minTimeHeap world]. rewrite sinkCalls_logIf. split; [|done].
    unfold inOrder, sourcesSorted.
    rewrite inputs_logIf, sinkCalls_logIf. simpl.
    split; [constructor|]. split; [apply heap_facts.ordered_nil|].
    split; [constructor|]. split; [by intros p ?%elem_of_nil|].
    split; [constructor|]. by intros c p ?%elem_of_nil.
  - apply (inOrder_more _ _ _ [] Hin); unfold mergeStart;
      [by rewrite app_nil_r, !inputs_logIf|by rewrite !sinkCalls_logIf
      |constructor].
Qed.

Lemma threshold_min h p q :
  heap_order.ordered h → q ∈ h → Timestamp p <= thresholdOf h →
  Timestamp p <= Timestamp q.
Proof.
  destruct h as [|y t]; [by intros _ ?%elem_of_nil|]. simpl.
  intros Hord [->|Hq]%elem_of_cons Hle; [done|].
  pose proof (heap_facts.ordered_head_min y t q Hord Hq). lia.
Qed.

Lemma sorted_after w r pre t rest :
  sourcesSorted w → stamps (pendingOf r w) = pre ++ t :: rest →
  Forall (λ t', t <= t') rest.
Proof.
  intros Hsrc. unfold pendingOf.
  destruct (inputs w !! r) as [inp|] eqn:Hl; [|by destruct pre].
  pose proof (Forall_lookup_1 _ (inputs w) r inp Hsrc Hl) as Hs.
  simpl in Hs. intros Hsplit. rewrite Hsplit in Hs.
  apply StronglySorted_app_1_r in Hs.
  by apply StronglySorted_cons in Hs as [? _].
Qed.

(** One iteration of the merge keeps the invariant. *)
Lemma mergeIter_inOrder env v h w h' w' :
  inOrder h w → mergeIter env v h w = Ok (h', w') → inOrder h' w'.
Proof.
  intros (Hwf & Hord & Hsrc & Hpend & Hcalls & Hle).
  destruct h as [|x t]; [done|].
  destruct (mergeIter_cons env v x t w) as (h1 & Hperm & _ & Hord1 & ->).
  specialize (Hord1 Hord).
  apply Forall_cons in Hwf as [(Hxlt & Hxfile & Hxts) Hwft].
  assert (∀ q, q ∈ h1 → Timestamp x <= Timestamp q) as Hmin.
  { intros q Hq. rewrite Hperm in Hq.
    by apply (heap_facts.ordered_head_min x t q). }
  apply (innerLoop_rule env v x (thresholdOf h1) h1
    (λ w0,
       length (inputs w0) = length (inputs w) ∧
       sourcesSorted w0 ∧
       (∀ p, p ∈ h1 →
          Forall (λ t, Timestamp p <= t) (stamps (pendingOf (Reader p) w0))) ∧
       StronglySorted Z.le (map callStamp (sinkCalls w0)) ∧
       Forall (λ c, callStamp c <= previousTimestamp w0) (sinkCalls w0) ∧
       Forall (λ t, previousTimestamp w0 <= t)
         (stamps (pendingOf (Reader x) w0)) ∧
       (∀ q, q ∈ h1 → previousTimestamp w0 <= Timestamp q))
    inOrder).
  - (* end of the input *)
    intros w0 w1 (Hlen & Hsrc0 & Hpend0 & Hcalls0 & Hprev0 & Hnext0 & Hheap0).
    rewrite Hxfile. intros Hread.
    pose proof (readNext_inv _ _ _ _ _ _ Hread) as (Hp & Hc & Hlen1 & _).
    split; [|split; [done|split; [|split; [|split]]]].
    + rewrite <- Hperm in Hwft. eapply Forall_impl; [done|].
      intros q. apply wfPacket_length. congruence.
    + by eapply readNext_sourcesSorted.
    + intros q Hq. eapply readNext_stamps_Forall; [done|]. by apply Hpend0.
    + by rewrite Hc.
    + intros c q Hcq Hq. rewrite Hc in Hcq.
      rewrite Forall_forall in Hprev0.
      specialize (Hprev0 c Hcq). specialize (Hheap0 q Hq). lia.
  - (* a record written at once *)
    intros w0 w1 p (Hlen & Hsrc0 & Hpend0 & Hcalls0 & Hprev0 & Hnext0 & Hheap0).
    rewrite Hxfile. intros Hread Hthr.
    pose proof (readNext_inv _ _ _ _ _ _ Hread) as (Hp & Hc & Hlen1 & _).
    destruct (readNext_packet _ _ _ _ _ _ Hread)
      as ((_ & _ & Hpts) & Hpr & pre & Hsplit).
    assert (previousTimestamp w0 <= Timestamp p) as Hmono.
    { rewrite Hsplit in Hnext0. apply Forall_app in Hnext0 as [_ Hnext0].
      by apply Forall_cons in Hnext0 as [? _]. }
    assert (Forall (λ t, Timestamp p <= t) (stamps (pendingOf (Reader x) w1)))
      as Hafter.
    { by eapply sorted_after. }
    rewrite inputs_write, sinkCalls_write, previousTimestamp_write.
    unfold sourcesSorted. rewrite inputs_write.
    split; [congruence|]. split; [by eapply readNext_sourcesSorted|].
    split.
    { intros q Hq. rewrite pendingOf_write.
      eapply readNext_stamps_Forall; [done|]. by apply Hpend0. }
    split.
    { rewrite map_app. apply StronglySorted_snoc; [by rewrite Hc|].
      rewrite Hc. apply Forall_forall.
      intros ts (c & Hcin & <-)%elem_of_map_inv.
      rewrite Forall_forall in Hprev0. specialize (Hprev0 c Hcin).
      unfold callStamp at 2. simpl. rewrite <- Hpts. lia. }
    split.
    { apply Forall_app. split.
      - rewrite Hc. eapply Forall_impl; [done|]. simpl. intros c ?. lia.
      - repeat constructor. unfold callStamp. simpl. rewrite <- Hpts. lia. }
    split; [by rewrite pendingOf_write|].
    intros q Hq. by apply (threshold_min h1).
  - (* a record pushed on the heap *)
    intros w0 w1 p (Hlen & Hsrc0 & Hpend0 & Hcalls0 & Hprev0 & Hnext0 & Hheap0).
    rewrite Hxfile. intros Hread Hthr.
    pose proof (readNext_inv _ _ _ _ _ _ Hread) as (Hp & Hc & Hlen1 & _).
    destruct (readNext_packet _ _ _ _ _ _ Hread)
      as (Hpwf & Hpr & pre & Hsplit).
    assert (previousTimestamp w0 <= Timestamp p) as Hmono.
    { rewrite Hsplit in Hnext0. apply Forall_app in Hnext0 as [_ Hnext0].
      by apply Forall_cons in Hnext0 as [? _]. }
    assert (Forall (λ t, Timestamp p <= t) (stamps (pendingOf (Reader x) w1)))
      as Hafter.
    { by eapply sorted_after. }
    split; [|split; [|split; [|split; [|split]]]].
    + rewrite heap_facts.Push_perm. constructor; [done|].
      rewrite <- Hperm in Hwft. eapply Forall_impl; [done|].
      intros q. apply wfPacket_length. congruence.
    + by apply heap_facts.Push_ordered.
    + by eapply readNext_sourcesSorted.
    + intros q. rewrite heap_facts.Push_perm.
      intros [->|Hq]%elem_of_cons; [by rewrite Hpr|].
      eapply readNext_stamps_Forall; [done|]. by apply Hpend0.
    + by rewrite Hc.
    + intros c q Hcq. rewrite Hc in Hcq. rewrite heap_facts.Push_perm.
      rewrite Forall_forall in Hprev0. specialize (Hprev0 c Hcq).
      intros [->|Hq]%elem_of_cons; [lia|].
      specialize (Hheap0 q Hq). lia.
  - (* the state after the popped packet is written *)
    rewrite inputs_write, sinkCalls_write, previousTimestamp_write.
    unfold sourcesSorted. rewrite inputs_write, pendingOf_write.
    split; [done|]. split; [done|]. split.
    { intros q Hq. rewrite pendingOf_write. apply Hpend. right.
      by rewrite <- Hperm. }
    assert (Forall (λ c, callStamp c <= Timestamp x) (sinkCalls w)) as Hbelow.
    { apply Forall_forall. intros c Hc. apply Hle; [done|by left]. }
    split.
    { rewrite map_app. apply StronglySorted_snoc; [done|].
      apply Forall_forall. intros ts (c & Hcin & <-)%elem_of_map_inv.
      rewrite Forall_forall in Hbelow. specialize (Hbelow c Hcin).
      unfold callStamp at 2. simpl. rewrite <- Hxts. lia. }
    split.
    { apply Forall_app. split; [done|].
      repeat constructor. unfold callStamp. simpl. rewrite <- Hxts. lia. }
    split; [apply Hpend; by left|done].
Qed.

Lemma lookup_map {A B} (f : A → B) (l : list A) i :
  map f l !! i = f <$> (l !! i).
Proof. revert i. induction l as [|x l IH]; intros [|i]; simpl; auto. Qed.

Lemma adjacent_records (calls : list SinkCall) i a b :
  StronglySorted Z.le (map callStamp calls) →
  map (λ c, (sc_ci c, sc_data c)) calls !! i = Some a →
  map (λ c, (sc_ci c, sc_data c)) calls !! S i = Some b →
  recordStamp a <= recordStamp b.
Proof.
  intros Hsorted Ha Hb. rewrite lookup_map in Ha, Hb.
  destruct (calls !! i) as [ca|] eqn:Hca; [|done].
  destruct (calls !! S i) as [cb|] eqn:Hcb; [|done].
  simpl in Ha, Hb. injection Ha as <-. injection Hb as <-.
  apply (StronglySorted_adjacent _ i _ _ Hsorted);
    rewrite lookup_map; [by rewrite Hca|by rewrite Hcb].
Qed.

(** C1: when every capture among the inputs is in time order, a call
    that gets to the merge returns nil, and the timestamp never
    decreases from one record to the next, neither among the records
    handed to the sink nor among those the sink took. *)
Theorem C1_output_in_time_order env args f paths prev :
  Merges env args f paths →
  (∀ path lt size recs,
     path ∈ paths → fs env path = Pcap lt size recs → timeOrdered recs) →
  returned (joincap env args (startWorld prev)) = Ok None ∧
  (∀ i a b,
     handed (final (joincap env args (startWorld prev))) !! i = Some a →
     handed (final (joincap env args (startWorld prev))) !! S i = Some b →
     recordStamp a <= recordStamp b) ∧
  (∀ i a b,
     outputRecords (final (joincap env args (startWorld prev))) !! i = Some a →
     outputRecords (final (joincap env args (startWorld prev))) !! S i
       = Some b →
     recordStamp a <= recordStamp b).
Proof.
  intros Hm Hsorted.
  destruct (joincap_rule env args f paths (startWorld prev) inOrder Hm)
    as (Hret & _ & _ & _ & _ & _ & Hcalls & _).
  { by apply start_inOrder. }
  { intros h w h' w'. apply mergeIter_inOrder. }
  split; [done|]. split.
  - intros i a b. by apply adjacent_records.
  - intros i a b. apply adjacent_records. by apply StronglySorted_filter.
Qed.

Lemma C1_output_in_time_order_witness :
  Merges demo.env ["joincap"; "a.pcap"; "b.pcap"]%string
    (demo.flagsOf ["joincap"; "a.pcap"; "b.pcap"]%string)
    ["a.pcap"; "b.pcap"]%string ∧
  outputRecords (final (joincap demo.env
                          ["joincap"; "a.pcap"; "b.pcap"]%string
                          (startWorld 0))) !! 1%nat
    = Some (mkCaptureInfo 15 1 1, [0]) ∧
  outputRecords (final (joincap demo.env
                          ["joincap"; "a.pcap"; "b.pcap"]%string
                          (startWorld 0))) !! 2%nat
    = Some (mkCaptureInfo 20 1 1, [0]) ∧
  recordStamp (mkCaptureInfo 15 1 1, [0])
    <= recordStamp (mkCaptureInfo 20 1 1, [0]).
Proof.
  assert (Merges demo.env ["joincap"; "a.pcap"; "b.pcap"]%string
            (demo.flagsOf ["joincap"; "a.pcap"; "b.pcap"]%string)
            ["a.pcap"; "b.pcap"]%string) as Hm
    by (repeat split; [by exists "joincap"%string | by left]).
  split; [exact Hm|]. split; [by vm_compute|]. split; [by vm_compute|].
  destruct (C1_output_in_time_order demo.env
              ["joincap"; "a.pcap"; "b.pcap"]%string
              (demo.flagsOf ["joincap"; "a.pcap"; "b.pcap"]%string)
              ["a.pcap"; "b.pcap"]%string 0 Hm) as (_ & _ & Hout).
  - intros path lt size recs Hel Hfs.
    apply list_elem_of_In in Hel. simpl in Hel.
    destruct Hel as [<-|[<-|[]]]; injection Hfs as <- <- <-;
      unfold timeOrdered; simpl; repeat constructor; by vm_compute.
  - apply (Hout 1%nat); by vm_compute.
Defined.

(** ** [previousTimestamp] does not carry over to the next call (C8) *)

Section forget_facts.
Implicit Types (w : World).

Lemma forget_eq w w' :
  forget w = forget w' → w' = setPreviousTimestamp (previousTimestamp w') w.
Proof. destruct w, w'. unfold forget. simpl. by intros [= -> -> -> ->]. Qed.

Lemma forget_set t w : forget (setPreviousTimestamp t w) = forget w.
Proof. done. Qed.

Lemma set_logIf t v m w :
  logIf v m (setPreviousTimestamp t w) = setPreviousTimestamp t (logIf v m w).
Proof. by destruct v. Qed.

Lemma set_advance t reader rest w :
  advance reader rest (setPreviousTimestamp t w) =
    setPreviousTimestamp t (advance reader rest w).
Proof. unfold advance. simpl. by destruct (_ !! _). Qed.

Lemma set_closeFile t file w :
  closeFile file (setPreviousTimestamp t w) =
    setPreviousTimestamp t (closeFile file w).
Proof. unfold closeFile. simpl. by destruct (_ !! _). Qed.

(** An initialisation read does not look at [previousTimestamp]. *)
Lemma readLoop_init_set pending reader file v t w :
  readLoop pending reader file v true (setPreviousTimestamp t w) =
    (setPreviousTimestamp t (readLoop pending reader file v true w).1,
     (readLoop pending reader file v true w).2).
Proof.
  revert w. induction pending as [|[ci data|err] rest IH]; intros w;
    cbn [readLoop negb andb].
  - by rewrite set_logIf, set_closeFile.
  - case_bool_decide.
    + rewrite set_advance, set_logIf.
      change (noteSkip ?s (setPreviousTimestamp t ?w0))
        with (setPreviousTimestamp t (noteSkip s w0)).
      apply IH.
    + by rewrite set_advance.
  - rewrite set_advance, set_logIf.
    change (noteSkip ?s (setPreviousTimestamp t ?w0))
      with (setPreviousTimestamp t (noteSkip s w0)).
    apply IH.
Qed.

Lemma readNext_init_set reader file v t w :
  readNext reader file v true (setPreviousTimestamp t w) =
    (setPreviousTimestamp t (readNext reader file v true w).1,
     (readNext reader file v true w).2).
Proof.
  unfold readNext. simpl. destruct (inputs w !! reader); [|done].
  apply readLoop_init_set.
Qed.

Lemma initOne_forget env v st st' path :
  forgetInit st = forgetInit st' →
  forgetInit (initOne env v st path) = forgetInit (initOne env v st' path).
Proof.
  destruct st as [tot lt0 h w], st' as [tot' lt0' h' w'].
  intros Hst.
  pose proof (f_equal totalInputSizeBytes Hst) as Htot.
  pose proof (f_equal linkType Hst) as Hlt.
  pose proof (f_equal minTimeHeap Hst) as Hh.
  pose proof (f_equal world Hst) as Hw.
  cbn [forgetInit totalInputSizeBytes linkType minTimeHeap world]
    in Htot, Hlt, Hh, Hw.
  subst tot' lt0' h'. clear Hst.
  apply forget_eq in Hw. rewrite Hw. set (t := previousTimestamp w').
  unfold forgetInit.
  unfold initOne. simpl.
  destruct (fs env path) as [err|err|lt size recs]; simpl.
  - by rewrite set_logIf.
  - change (setInputs ?i (setPreviousTimestamp t ?w0))
      with (setPreviousTimestamp t (setInputs i w0)).
    by rewrite set_logIf.
  - change (setInputs ?i (setPreviousTimestamp t ?w0))
      with (setPreviousTimestamp t (setInputs i w0)).
    rewrite readNext_init_set.
    destruct (readNext _ _ v true _) as [w1 [p|]]; simpl.
    + by repeat case_bool_decide.
    + by rewrite set_logIf.
Qed.

Lemma init_forget env v paths st st' :
  forgetInit st = forgetInit st' →
  forgetInit (foldl (initOne env v) st paths) =
    forgetInit (foldl (initOne env v) st' paths).
Proof.
  revert st st'. induction paths as [|path paths IH]; intros st st' Hst;
    [done|].
  simpl. apply IH. by apply initOne_forget.
Qed.

(** Before anything else, the merge loop overwrites
    [previousTimestamp]. *)
Lemma write_forget env p v w w' :
  forget w = forget w' → write env p v w = write env p v w'.
Proof.
  intros Hw. rewrite (forget_eq _ _ Hw). generalize (previousTimestamp w').
  intros t. unfold write. simpl. by destruct (_ && _).
Qed.

Lemma mergeLoop_forget env v fuel h w w' :
  forget w = forget w' →
  match mergeLoop fuel env v h w, mergeLoop fuel env v h w' with
  | Ok w1, Ok w1' => forget w1 = forget w1'
  | Panics, Panics | OutOfFuel, OutOfFuel => True
  | _, _ => False
  end.
Proof.
  intros Hw. destruct fuel as [|fuel]; [done|].
  cbn [mergeLoop]. case_bool_decide; [|done].
  destruct (heap.Pop h) as [[p h1]|]; [|done].
  rewrite (write_forget env p v w w' Hw).
  destruct (innerLoop _ _ _ _ _ _ _) as [[h2 w2]| |]; [|done..].
  by destruct (mergeLoop fuel env v h2 w2).
Qed.

(** Whatever [previousTimestamp] holds when [joincap] is called, the
    call does the same. *)
Lemma joincap_forget env args w w' :
  forget w = forget w' →
  forgetOutcome (joincap env args w) = forgetOutcome (joincap env args w').
Proof.
  intros Hw. unfold joincap.
  assert (∀ r hd (w1 w1' : World), forget w1 = forget w1' →
            forgetOutcome (mkOutcome r hd w1) =
            forgetOutcome (mkOutcome r hd w1')) as Hout.
  { intros r hd w1 w1' H1. unfold forgetOutcome.
    cbn [returned fileHeader final]. by rewrite H1. }
  destruct (ParseArgs env args) as [| |f]; [by apply Hout..|].
  destruct (Version f); [by apply Hout|].
  assert (forget (logIf (Verbose f) MsgBanner w) =
          forget (logIf (Verbose f) MsgBanner w')) as Hb.
  { apply forget_eq in Hw. rewrite Hw, set_logIf. done. }
  destruct (InFiles f) as [|prog paths]; [by apply Hout|].
  unfold initHeapWithInputFiles.
  pose proof (init_forget env (Verbose f) paths
                (mkInitState 0 LinkTypeNull heap.Init
                   (logIf (Verbose f) MsgBanner w))
                (mkInitState 0 LinkTypeNull heap.Init
                   (logIf (Verbose f) MsgBanner w'))) as Hinit.
  set (st := foldl (initOne env (Verbose f))
               (mkInitState 0 LinkTypeNull heap.Init
                  (logIf (Verbose f) MsgBanner w)) paths) in *.
  set (st' := foldl (initOne env (Verbose f))
                (mkInitState 0 LinkTypeNull heap.Init
                   (logIf (Verbose f) MsgBanner w')) paths) in *.
  assert (forgetInit st = forgetInit st') as Hst
    by (apply Hinit; unfold forgetInit; simpl; by rewrite Hb).
  clearbody st st'. clear Hinit.
  destruct st as [tot lt h w1], st' as [tot' lt' h' w1'].
  pose proof (f_equal totalInputSizeBytes Hst) as Htot.
  pose proof (f_equal linkType Hst) as Hlt.
  pose proof (f_equal minTimeHeap Hst) as Hh.
  pose proof (f_equal world Hst) as Hw1.
  cbn [forgetInit totalInputSizeBytes linkType minTimeHeap world]
    in Htot, Hlt, Hh, Hw1.
  subst tot lt h. clear Hst.
  cbn [minTimeHeap totalInputSizeBytes linkType world].
  assert (∀ m, forget (logIf (Verbose f) m w1) =
               forget (logIf (Verbose f) m w1')) as Hlog.
  { intros m. apply forget_eq in Hw1. rewrite Hw1, set_logIf. done. }
  destruct (_ && _); [by apply Hout|].
  set (m1 := MsgMerging _ _). set (m2 := MsgWritingTo _).
  assert (forget (logIf (Verbose f) m2 (logIf (Verbose f) m1 w1)) =
          forget (logIf (Verbose f) m2 (logIf (Verbose f) m1 w1'))) as Hstart.
  { apply forget_eq in Hw1. rewrite Hw1, !set_logIf. done. }
  set (ws := logIf _ m2 (logIf _ m1 w1)) in *.
  set (ws' := logIf _ m2 (logIf _ m1 w1')) in *.
  assert (mergeFuel h' ws = mergeFuel h' ws') as ->.
  { unfold mergeFuel, totalPending.
    by rewrite (f_equal inputs Hstart : inputs ws = inputs ws'). }
  pose proof (mergeLoop_forget env (Verbose f) (mergeFuel h' ws') h' ws ws'
                Hstart) as Hloop.
  destruct (mergeLoop _ _ _ _ ws) as [w2| |],
           (mergeLoop _ _ _ _ ws') as [w2'| |]; try done.
  all: by apply Hout.
Qed.

End forget_facts.

(** The run of the late record, as a second call in its process. *)
Example second_run_scenario :
  map sk_reason
    (skipped
       (final (joincap demo.env ["joincap"; "late.pcap"]%string
                 (nextRun
                    (final (joincap demo.env ["joincap"; "late.pcap"]%string
                              freshWorld))))))
  = [TooEarly] ∧
  previousTimestamp
    (nextRun (final (joincap demo.env ["joincap"; "late.pcap"]%string
                       freshWorld)))
  = 4 * oneHour.
Proof. by vm_compute. Qed.

(** C8: a call of [joincap] that follows another call with the same
    arguments and files in the same process returns the same, writes the
    same header, hands the same records to the sink, passes over the
    same records, logs the same and leaves its inputs the same as the
    call in a fresh process: what the first call left in
    [previousTimestamp] decides nothing in the second. *)
Theorem C8_baseline_not_carried_over env args :
  forgetOutcome
    (joincap env args (nextRun (final (joincap env args freshWorld))))
  = forgetOutcome (joincap env args freshWorld).
Proof. by apply joincap_forget. Qed.

(** ** The last input left (C5) *)


Lemma handed_write env p v w :
  handed (write env p v w) = handed w ++ [(CaptureInfoOf p, Data p)].
Proof. unfold handed. by rewrite sinkCalls_write, map_app. Qed.

Lemma drain_rejected prev (sk : list Skip) l :
  Forall (λ s, judge prev false (sk_outcome s) = Reject (sk_reason s)) sk →
  drain prev (map sk_outcome sk ++ l) = drain prev l.
Proof.
  induction 1 as [|s sk Hs _ IH]; [done|]. simpl. by rewrite Hs.
Qed.

Lemma drain_accepted prev ci data l :
  judge prev false (ReadOK ci data) = Accept ci data →
  drain prev (ReadOK ci data :: l) =
    (ci, data) :: drain (UnixNano (ci_Timestamp ci)) l.
Proof. intros Hj. cbn [drain]. by rewrite Hj. Qed.

Lemma heap_Pop_singleton p : heap.Pop [p] = Some (p, []).
Proof. reflexivity. Qed.

Lemma heap_Push_nil p : heap.Push [] p = [p].
Proof. reflexivity. Qed.

(** The inner loop on the empty heap: what it hands to the sink,
    followed by the packet it pushes and what the input still yields
    after it, is what the input yielded on entry. *)
Lemma innerLoop_sole env v p fuel w h2 w2 :
  InputFile p = Reader p →
  innerLoop fuel env v p 0 [] w = Ok (h2, w2) →
  (h2 = [] ∧ pendingOf (Reader p) w2 = [] ∧
   handed w2 =
     handed w ++ drain (previousTimestamp w) (pendingOf (Reader p) w)) ∨
  (∃ n, h2 = [n] ∧ Reader n = Reader p ∧ InputFile n = Reader p ∧
        handed w2 ++ (CaptureInfoOf n, Data n)
          :: drain (Timestamp n) (pendingOf (Reader p) w2) =
        handed w ++ drain (previousTimestamp w) (pendingOf (Reader p) w)).
Proof.
  intros Hfile.
  set (K := handed w ++ drain (previousTimestamp w) (pendingOf (Reader p) w)).
  apply (innerLoop_rule env v p 0 []
    (λ w0, handed w0 ++ drain (previousTimestamp w0) (pendingOf (Reader p) w0)
           = K)
    (λ h2 w2,
       (h2 = [] ∧ pendingOf (Reader p) w2 = [] ∧ handed w2 = K) ∨
       (∃ n, h2 = [n] ∧ Reader n = Reader p ∧ InputFile n = Reader p ∧
             handed w2 ++ (CaptureInfoOf n, Data n)
               :: drain (Timestamp n) (pendingOf (Reader p) w2) = K)));
    [| | |done].
  - intros w0 w1 HK. rewrite Hfile.
    intros (_ & Hc & _ & _ & _ & _ & sk & _ & Hrej & Hp & Hp')%readNext_inv.
    left. split; [done|]. split; [done|].
    rewrite <- HK, Hp. rewrite <- (app_nil_r (map sk_outcome sk)).
    rewrite drain_rejected; [|by eapply Forall_impl; [done|]; intros s []].
    unfold handed. by rewrite Hc, app_nil_r.
  - intros w0 w1 n HK. rewrite Hfile.
    intros (_ & Hc & _ & _ & _ & _ & sk & _ & Hrej & ci & data & Hp & -> & Hacc & _)
      %readNext_inv _.
    rewrite <- HK, Hp.
    rewrite drain_rejected; [|by eapply Forall_impl; [done|]; intros s []].
    rewrite (drain_accepted _ _ _ _ Hacc).
    rewrite handed_write, previousTimestamp_write, pendingOf_write. simpl.
    unfold handed. by rewrite Hc, <- app_assoc.
  - intros w0 w1 n HK. rewrite Hfile.
    intros (_ & Hc & _ & _ & _ & _ & sk & _ & Hrej & ci & data & Hp & -> & Hacc & _)
      %readNext_inv _.
    right. eexists. split; [apply heap_Push_nil|]. simpl.
    split; [done|]. split; [done|].
    rewrite <- HK, Hp.
    rewrite drain_rejected; [|by eapply Forall_impl; [done|]; intros s []].
    rewrite (drain_accepted _ _ _ _ Hacc).
    unfold handed. by rewrite Hc.
Qed.

Lemma mergeLoop_sole env v fuel p w w' :
  InputFile p = Reader p →
  mergeLoop fuel env v [p] w = Ok w' →
  pendingOf (Reader p) w' = [] ∧
  handed w' =
    handed w ++ (CaptureInfoOf p, Data p)
      :: drain (Timestamp p) (pendingOf (Reader p) w).
Proof.
  revert p w. induction fuel as [|fuel IH]; intros p w Hfile; [done|].
  rewrite mergeLoop_S. rewrite bool_decide_eq_true_2 by (simpl; lia).
  unfold mergeIter. rewrite heap_Pop_singleton.
  destruct (innerLoop _ _ _ _ _ _ _) as [[h2 w2]| |] eqn:Hinner; [|done..].
  apply innerLoop_sole in Hinner; [|done].
  rewrite handed_write, previousTimestamp_write, pendingOf_write in Hinner.
  rewrite <- app_assoc in Hinner. simpl in Hinner.
  destruct Hinner as [(-> & Hend & Hh)|(n & -> & Hr & Hf & Hh)].
  - destruct fuel; [done|]. rewrite mergeLoop_S. simpl.
    by intros [= <-].
  - intros Hloop. apply IH in Hloop as [Hend Hh']; [|congruence].
    rewrite Hr in Hend, Hh'. split; [done|]. by rewrite Hh', Hh.
Qed.



(* ================================================================= *)
(** * Further properties of the program *)

(** ** What [joincap] returns *)

(** X1: [joincap] always comes back (each input being a finite
    sequence of reads up to [io.EOF]), and what it returns depends only
    on the command line and on whether the output can be created: nil
    for [-h] and [-V], the flags error when the command line does not
    parse, a panic when the parser leaves [InFiles] empty, the "cannot
    open for writing" error when the output is a path that cannot be
    created, and nil in every other case, whatever the inputs hold and
    whatever the sink answers.  So [main] prints an error only for a
    command line that does not parse or an output that cannot be
    created. *)
Theorem joincap_returns env args w :
  returned (joincap env args w) =
    match ParseArgs env args with
    | ParseHelp => Ok None
    | ParseError err => Ok (Some (ErrCmdFlags err))
    | Parsed f =>
        if Version f then Ok None
        else match InFiles f with
             | [] => Panics
             | _ :: _ =>
                 if negb (String.eqb (OutputFilePath f) "-")
                    && negb (canCreate env (OutputFilePath f))
                 then Ok (Some (ErrCannotOpenOutput (OutputFilePath f)))
                 else Ok None
             end
    end ∧
  ∀ err, err ∈ (main env args w).2 →
    (∃ msg, ParseArgs env args = ParseError msg ∧ err = ErrCmdFlags msg) ∨
    (∃ f, ParseArgs env args = Parsed f ∧
          err = ErrCannotOpenOutput (OutputFilePath f) ∧
          OutputFilePath f ≠ "-"%string ∧
          canCreate env (OutputFilePath f) = false).
Proof.
  assert (returned (joincap env args w) =
    match ParseArgs env args with
    | ParseHelp => Ok None
    | ParseError err => Ok (Some (ErrCmdFlags err))
    | Parsed f =>
        if Version f then Ok None
        else match InFiles f with
             | [] => Panics
             | _ :: _ =>
                 if negb (String.eqb (OutputFilePath f) "-")
                    && negb (canCreate env (OutputFilePath f))
                 then Ok (Some (ErrCannotOpenOutput (OutputFilePath f)))
                 else Ok None
             end
    end) as Hret.
  { destruct (ParseArgs env args) as [|msg|f] eqn:Hparse;
      [unfold joincap; by rewrite Hparse..|].
    destruct (Version f) eqn:Hver; [unfold joincap; by rewrite Hparse, Hver|].
    destruct (InFiles f) as [|prog paths] eqn:Hfiles;
      [unfold joincap; by rewrite Hparse, Hver, Hfiles|].
    destruct (negb (String.eqb (OutputFilePath f) "-")
              && negb (canCreate env (OutputFilePath f))) eqn:Hout.
    - unfold joincap. rewrite Hparse, Hver, Hfiles.
      unfold initHeapWithInputFiles. by rewrite Hout.
    - destruct (joincap_merges env args f paths w) as (w' & _ & ->); [|done].
      split; [done|]. split; [done|]. split; [by exists prog|].
      apply andb_false_iff in Hout as [Hout|Hout].
      + left. apply negb_false_iff in Hout. by apply String.eqb_eq.
      + right. by apply negb_false_iff in Hout. }
  split; [done|].
  intros err. unfold main. cbn [snd]. rewrite Hret.
  destruct (ParseArgs env args) as [|msg|f]; [by intros ?%elem_of_nil| |].
  - intros ->%list_elem_of_singleton. left. by exists msg.
  - destruct (Version f); [by intros ?%elem_of_nil|].
    destruct (InFiles f); [by intros ?%elem_of_nil|].
    destruct (negb _ && negb _) eqn:Hout; [|by intros ?%elem_of_nil].
    intros ->%list_elem_of_singleton. right. exists f.
    apply andb_true_iff in Hout as [Hne Hcreate].
    apply negb_true_iff in Hne, Hcreate.
    split; [done|]. split; [done|]. split; [|done].
    intros Heq. apply String.eqb_eq in Heq. congruence.
Qed.

(** X2: the output is opened only after the inputs.  When the output
    path cannot be created, [joincap] returns the "cannot open for
    writing" error having already run the whole initialisation: no file
    header is written and nothing is handed to the sink, but every input
    that survives initialisation has been opened, has had its first
    accepted record read onto the heap, and is left open. *)
Theorem output_opened_after_inputs env args f prog paths w :
  ParseArgs env args = Parsed f →
  Version f = false →
  InFiles f = prog :: paths →
  OutputFilePath f ≠ "-"%string →
  canCreate env (OutputFilePath f) = false →
  returned (joincap env args w)
    = Ok (Some (ErrCannotOpenOutput (OutputFilePath f))) ∧
  fileHeader (joincap env args w) = None ∧
  sinkCalls (final (joincap env args w)) = sinkCalls w ∧
  inputs (final (joincap env args w))
    = inputs (world (afterInit env f paths w)) ∧
  length (minTimeHeap (afterInit env f paths w))
    = length (filter (λ path, survives env path = true) paths) ∧
  NoDup (map Reader (minTimeHeap (afterInit env f paths w))) ∧
  ∀ p, p ∈ minTimeHeap (afterInit env f paths w) →
       activeReader (final (joincap env args w)) (Reader p).
Proof.
  intros Hparse Hver Hfiles Hne Hcreate.
  assert (joincap env args w =
    mkOutcome (Ok (Some (ErrCannotOpenOutput (OutputFilePath f)))) None
      (logIf (Verbose f)
         (MsgMerging (minheap.Len (minTimeHeap (afterInit env f paths w)))
            (totalInputSizeBytes (afterInit env f paths w)))
         (world (afterInit env f paths w)))) as ->.
  { unfold joincap. rewrite Hparse, Hver, Hfiles.
    unfold initHeapWithInputFiles. fold (afterInit env f paths w).
    rewrite Hcreate.
    assert (String.eqb (OutputFilePath f) "-" = false) as ->; [|done].
    apply not_true_iff_false. intros Heq. by apply String.eqb_eq in Heq. }
  cbn [returned fileHeader final].
  rewrite sinkCalls_logIf, inputs_logIf.
  destruct (init_onePerSource env (Verbose f) paths
              (mkInitState 0 LinkTypeNull heap.Init
                 (logIf (Verbose f) MsgBanner w))) as [Hnd Hact].
  { split; constructor. }
  fold (afterInit env f paths w) in Hnd, Hact.
  split; [done|]. split; [done|]. split.
  { unfold afterInit.
    apply (init_rule env (Verbose f)
             (λ st, sinkCalls (world st) = sinkCalls w)).
    - intros st path Hst _. by rewrite sinkCalls_initOne.
    - cbn [world]. by rewrite sinkCalls_logIf. }
  split; [done|]. split; [unfold afterInit; by rewrite init_heap_length|].
  split; [done|].
  intros p Hp. rewrite Forall_forall in Hact.
  destruct (Hact p Hp) as [Hopen _].
  eapply activeReader_inputs; [|done]. by rewrite inputs_logIf.
Qed.

Lemma output_opened_after_inputs_witness :
  let args := ["joincap"; "a.pcap"; "empty.pcap"; "b.pcap"]%string in
  returned (joincap scenario.readOnly args freshWorld)
    = Ok (Some (ErrCannotOpenOutput "/ro/out.pcap")) ∧
  fileHeader (joincap scenario.readOnly args freshWorld) = None ∧
  sinkCalls (final (joincap scenario.readOnly args freshWorld)) = [] ∧
  map in_closed (inputs (final (joincap scenario.readOnly args freshWorld)))
    = [false; true; false].
Proof.
  intros args.
  destruct (output_opened_after_inputs scenario.readOnly args
              (mkCmdFlags false false "/ro/out.pcap" args) "joincap"%string
              ["a.pcap"; "empty.pcap"; "b.pcap"]%string freshWorld)
    as (Hret & Hhdr & Hcalls & Hin & _); [done..|].
  split; [done|]. split; [done|]. split; [done|].
  rewrite Hin. by vm_compute.
Defined.

(** ** The file header *)

Lemma resolveLinkType_afterNull lts :
  foldl resolveLinkType LinkTypeNull lts =
    match afterNull lts with
    | [] => LinkTypeNull
    | lt :: rest =>
        if bool_decide (Forall (λ lt', lt' = lt) rest) then lt
        else LinkTypeEthernet
    end.
Proof.
  induction lts as [|lt lts IH]; [done|].
  cbn [afterNull]. case_bool_decide as Hnull.
  - subst lt. by rewrite <- IH.
  - by apply linkType_resolution.
Qed.

(** X3: a call that gets to the merge writes one file header, with the
    snapshot length 262144 and a link type decided by the inputs that
    open as captures, whether or not they hold a record: captures of
    link type 0 at the head of the list do not count; the first capture
    of another link type sets the type, which stays if every capture
    after it has the same type and is Ethernet otherwise; and the type
    is 0 when no capture has another one. *)
Theorem header_link_type env args f paths w :
  Merges env args f paths →
  fileHeader (joincap env args w) =
    Some (262144,
          match afterNull (parsedLinkTypes env paths) with
          | [] => LinkTypeNull
          | lt :: rest =>
              if bool_decide (Forall (λ lt', lt' = lt) rest) then lt
              else LinkTypeEthernet
          end).
Proof.
  intros Hm.
  destruct (joincap_merges env args f paths w Hm) as (w' & _ & ->).
  cbn [fileHeader]. unfold afterInit.
  by rewrite init_linkType, resolveLinkType_afterNull.
Qed.

Lemma header_link_type_witness :
  let args := ["joincap"; "lo.pcap"; "raw.pcap"; "empty.pcap"]%string in
  Merges demo.env args (demo.flagsOf args)
    ["lo.pcap"; "raw.pcap"; "empty.pcap"]%string ∧
  fileHeader (joincap demo.env args freshWorld)
    = Some (262144, LinkTypeEthernet).
Proof.
  intros args.
  assert (Merges demo.env args (demo.flagsOf args)
            ["lo.pcap"; "raw.pcap"; "empty.pcap"]%string) as Hm.
  { split; [done|]. split; [done|]. split; [by exists "joincap"%string|].
    by left. }
  split; [done|].
  by rewrite (header_link_type demo.env args (demo.flagsOf args)
                ["lo.pcap"; "raw.pcap"; "empty.pcap"]%string freshWorld Hm).
Defined.

(** ** The contract of [readNext] *)

(** X4: a call of [readNext] on an input of the table returns the first
    pending read that passes the checks, having passed over (and noted)
    exactly the reads before it, and leaves the input right after that
    record, as open as it was; it returns [io.EOF] exactly when every
    pending read is rejected, and then the input is at its end and
    closed.  Either way it hands nothing to the sink, keeps
    [previousTimestamp] and touches no other input. *)
Theorem readNext_first_accepted reader v isInit w inp w' r :
  inputs w !! reader = Some inp →
  readNext reader reader v isInit w = (w', r) →
  previousTimestamp w' = previousTimestamp w ∧
  sinkCalls w' = sinkCalls w ∧
  (∀ k, k ≠ reader → inputs w' !! k = inputs w !! k) ∧
  ∃ sk,
    skipped w' = skipped w ++ sk ∧
    Forall (λ s, sk_input s = reader ∧
                 judge (previousTimestamp w) isInit (sk_outcome s)
                   = Reject (sk_reason s)) sk ∧
    match r with
    | Some p =>
        ∃ ci data after,
          in_pending inp = map sk_outcome sk ++ ReadOK ci data :: after ∧
          judge (previousTimestamp w) isInit (ReadOK ci data)
            = Accept ci data ∧
          p = mkPacket (UnixNano (ci_Timestamp ci)) ci data reader reader ∧
          inputs w' !! reader =
            Some (mkOpenInput (in_name inp) (in_linkType inp) after
                    (in_closed inp))
    | None =>
        in_pending inp = map sk_outcome sk ∧
        inputs w' !! reader =
          Some (mkOpenInput (in_name inp) (in_linkType inp) [] true)
    end.
Proof.
  intros Hin Hread.
  destruct (readNext_inv _ _ _ _ _ _ Hread)
    as (Hprev & Hcalls & _ & Hother & Hself & _ & sk & Hsk & Hrej & Hres).
  specialize (Hself inp Hin). rewrite (pendingOf_lookup _ _ _ Hin) in Hres.
  split; [done|]. split; [done|]. split; [done|].
  exists sk. split; [done|]. split; [done|].
  destruct r as [p|].
  - destruct Hres as (ci & data & Hpend & -> & Hacc & _).
    by exists ci, data, (pendingOf reader w').
  - destruct Hres as [Hpend Hempty]. by rewrite Hempty in Hself.
Qed.

Lemma readNext_first_accepted_witness :
  let inp := mkOpenInput "x.pcap" LinkTypeEthernet
               [ReadErr "truncated"; ReadOK (mkCaptureInfo 40 0 0) [];
                demo.pkt 1; demo.pkt (2 * oneHour); demo.pkt 7] false in
  let w := mkWorld [inp] (2 * oneHour) [] [] [] in
  ∃ w' r sk,
    readNext 0 0 false false w = (w', r) ∧
    skipped w' = sk ∧
    map sk_reason sk = [DecodeFailed; TooEarly; TooEarly] ∧
    r = Some (mkPacket (2 * oneHour) (mkCaptureInfo (2 * oneHour) 1 1) [0]
                0 0) ∧
    inputs w' !! 0%nat =
      Some (mkOpenInput "x.pcap" LinkTypeEthernet [demo.pkt 7] false).
Proof.
  intros inp w.
  destruct (readNext 0 0 false false w) as [w' r] eqn:Hread.
  destruct (readNext_first_accepted 0 false false w inp w' r eq_refl Hread)
    as (_ & _ & _ & sk & Hsk & _ & _).
  exists w', r, sk.
  vm_compute in Hread. injection Hread as <- <-.
  split; [done|]. split; [done|].
  simpl in Hsk. subst sk. by vm_compute.
Defined.

(** ** Every read is handed to the sink or passed over, once *)

Lemma concat_insert_perm {A B} (f : A → list B) (l : list A) i x y :
  l !! i = Some x →
  concat (map f (<[i:=y]> l)) ++ f x ≡ₚ concat (map f l) ++ f y.
Proof.
  revert i. induction l as [|a l IH]; intros [|i] Hi; simplify_eq/=.
  - rewrite (Permutation_app_comm _ (f x)), <- app_assoc. f_equiv.
    apply Permutation_app_comm.
  - rewrite <- !app_assoc. f_equiv. by apply IH.
Qed.

Lemma allPending_app w w' more :
  inputs w' = inputs w ++ more →
  allPending w' = allPending w ++ concat (map in_pending more).
Proof. unfold allPending. intros ->. by rewrite map_app, concat_app. Qed.

(** What a read takes out of its input is what it passes over and what
    it returns. *)
Lemma readNext_allPending reader v isInit w w' r :
  readNext reader reader v isInit w = (w', r) →
  ∃ sk,
    skipped w' = skipped w ++ sk ∧
    allPending w ≡ₚ
      map sk_outcome sk ++
      match r with
      | Some p => ReadOK (CaptureInfoOf p) (Data p) :: allPending w'
      | None => allPending w'
      end.
Proof.
  intros Hread. destruct (inputs w !! reader) as [inp|] eqn:Hin.
  - destruct (readNext_scan _ _ _ _ _ _ _ Hin Hread)
      as (Hr & _ & _ & Hs & Hi).
    set (sc := scan (previousTimestamp w) isInit reader (in_pending inp))
      in *.
    exists sc.1. split; [done|].
    pose proof (concat_insert_perm in_pending (inputs w) reader inp
                  (afterRead inp sc.2) Hin) as Hperm.
    rewrite <- Hi in Hperm. fold (allPending w') in Hperm.
    fold (allPending w) in Hperm.
    destruct sc.2 as [[p rest]|] eqn:Hres; simpl in Hr; subst r.
    + destruct (scan_Some _ _ _ _ _ _ Hres) as (ci & data & Hpend & -> & _).
      fold sc in Hpend. simpl in Hperm. rewrite Hpend in Hperm at 1.
      simpl.
      apply (Permutation_app_inv_r rest).
      rewrite <- Hperm, (Permutation_app_comm (allPending w')).
      rewrite <- !app_assoc. f_equiv. simpl. f_equiv.
      apply Permutation_app_comm.
    + pose proof (scan_None _ _ _ _ Hres) as Hpend. fold sc in Hpend.
      simpl in Hperm. rewrite app_nil_r in Hperm.
      rewrite Hpend, <- Hperm. apply Permutation_app_comm.
  - unfold readNext in Hread. rewrite Hin in Hread.
    injection Hread as <- <-. exists []. by rewrite app_nil_r.
Qed.

Lemma handed_readNext reader v isInit w w' r :
  readNext reader reader v isInit w = (w', r) → handed w' = handed w.
Proof.
  intros (_ & Hc & _)%readNext_inv. unfold handed. by rewrite Hc.
Qed.

Lemma allPending_write env p v w : allPending (write env p v w) = allPending w.
Proof. unfold allPending. by rewrite inputs_write. Qed.

Lemma passedOver_write env p v w : passedOver (write env p v w) = passedOver w.
Proof. unfold passedOver. by rewrite skipped_write. Qed.

Lemma onHeap_perm h h' : h ≡ₚ h' → onHeap h ≡ₚ onHeap h'.
Proof. intros Hp. unfold onHeap. by rewrite Hp. Qed.

(** One iteration of the merge moves reads from the heap and the inputs
    to the sink and to the reads passed over, and loses none. *)
Lemma mergeIter_conserved env v all h w h' w' :
  Forall (λ p, InputFile p = Reader p) h →
  conserved all h w → mergeIter env v h w = Ok (h', w') →
  conserved all h' w'.
Proof.
  intros Hfile Hcons. destruct h as [|x t]; [done|].
  destruct (mergeIter_cons env v x t w) as (h1 & Hperm & _ & _ & ->).
  apply Forall_cons in Hfile as [Hfx _].
  apply (innerLoop_rule env v x (thresholdOf h1) h1
    (λ w0, readBack (handed w0) ++ passedOver w0 ++ onHeap h1
             ++ allPending w0 ≡ₚ all)
    (conserved all)).
  - intros w0 w1 HP. rewrite Hfx. intros Hread.
    destruct (readNext_allPending _ _ _ _ _ _ Hread) as (sk & Hs & Hpend).
    unfold conserved, passedOver.
    rewrite (handed_readNext _ _ _ _ _ _ Hread), Hs, map_app, <- HP.
    unfold passedOver. rewrite Hpend. solve_Permutation.
  - intros w0 w1 p HP. rewrite Hfx. intros Hread _.
    destruct (readNext_allPending _ _ _ _ _ _ Hread) as (sk & Hs & Hpend).
    rewrite handed_write, allPending_write, passedOver_write.
    unfold passedOver, readBack.
    rewrite (handed_readNext _ _ _ _ _ _ Hread), Hs, !map_app, <- HP.
    unfold passedOver, readBack. rewrite Hpend. simpl. solve_Permutation.
  - intros w0 w1 p HP. rewrite Hfx. intros Hread _.
    destruct (readNext_allPending _ _ _ _ _ _ Hread) as (sk & Hs & Hpend).
    unfold conserved, passedOver.
    rewrite (handed_readNext _ _ _ _ _ _ Hread), Hs, map_app, <- HP.
    rewrite (onHeap_perm _ _ (heap_facts.Push_perm h1 p)).
    unfold passedOver. rewrite Hpend. simpl. solve_Permutation.
  - rewrite handed_write, allPending_write, passedOver_write.
    unfold readBack. rewrite map_app, <- Hcons.
    rewrite (onHeap_perm _ _ Hperm). unfold readBack. simpl.
    solve_Permutation.
Qed.

Lemma handed_initOne env v st path :
  handed (world (initOne env v st path)) = handed (world st).
Proof. unfold handed. by rewrite sinkCalls_initOne. Qed.

Lemma initOne_conserved env v st path all :
  conserved all (minTimeHeap st) (world st) →
  conserved (all ++ recordsOf env path)
    (minTimeHeap (initOne env v st path)) (world (initOne env v st path)).
Proof.
  unfold conserved, recordsOf, passedOver. intros <-.
  rewrite handed_initOne.
  destruct (initOne_step env v st path)
    as [err Hfs Hi Hs Hh _|err Hfs Hi Hs Hh _
       |lt size recs sk Hfs Hrecs _ Hi Hs Hh _
       |lt size recs sk ci data rest Hfs Hrecs _ _ Hi Hs Hh _];
    rewrite Hfs, Hh, Hs.
  - unfold allPending. rewrite Hi. by rewrite app_nil_r.
  - rewrite (allPending_app _ _ _ Hi). simpl. by rewrite !app_nil_r.
  - rewrite (allPending_app _ _ _ Hi), Hrecs, map_app. simpl.
    solve_Permutation.
  - rewrite (allPending_app _ _ _ Hi), Hrecs, map_app.
    rewrite (onHeap_perm _ _ (heap_facts.Push_perm _ _)). simpl.
    rewrite app_nil_r. solve_Permutation.
Qed.

Lemma init_conserved env v paths st all :
  conserved all (minTimeHeap st) (world st) →
  conserved (all ++ allReads env paths)
    (minTimeHeap (foldl (initOne env v) st paths))
    (world (foldl (initOne env v) st paths)).
Proof.
  revert st all. induction paths as [|path paths IH]; intros st all Hcons.
  - unfold allReads. simpl. by rewrite app_nil_r.
  - cbn [foldl]. unfold allReads. cbn [map concat]. rewrite app_assoc.
    apply IH. by apply initOne_conserved.
Qed.

Lemma start_conserved env f paths prev :
  conserved (allReads env paths)
    (minTimeHeap (afterInit env f paths (startWorld prev)))
    (mergeStart env f paths (startWorld prev)).
Proof.
  pose proof (init_conserved env (Verbose f) paths
                (mkInitState 0 LinkTypeNull heap.Init
                   (logIf (Verbose f) MsgBanner (startWorld prev))) [])
    as Hcons.
  fold (afterInit env f paths (startWorld prev)) in Hcons.
  unfold conserved, mergeStart, passedOver, handed, allPending in *.
  rewrite !sinkCalls_logIf, !skipped_logIf, !inputs_logIf.
  apply Hcons. cbn [world minTimeHeap].
  by rewrite sinkCalls_logIf, skipped_logIf, inputs_logIf.
Qed.

(** With the empty heap, every input is at its end. *)
Lemma accounted_allPending N w : accounted N [] w → allPending w = [].
Proof.
  intros (_ & Hcover & _). unfold allPending.
  induction (inputs w) as [|inp ins IH] using rev_ind; [done|].
  rewrite map_app, concat_app. simpl. rewrite IH.
  - destruct (in_pending inp) eqn:Hp; [done|].
    destruct (Hcover (length ins) inp) as (p & Hp' & _).
    + by apply list_lookup_middle.
    + by rewrite Hp.
    + by apply elem_of_nil in Hp'.
  - intros r inp' Hin. apply (Hcover r inp'). by apply lookup_app_l_Some.
Qed.

Lemma joincap_conserved env args f paths prev :
  Merges env args f paths →
  returned (joincap env args (startWorld prev)) = Ok None ∧
  readBack (handed (final (joincap env args (startWorld prev)))) ++
    passedOver (final (joincap env args (startWorld prev)))
    ≡ₚ allReads env paths.
Proof.
  intros Hm.
  destruct (joincap_rule env args f paths (startWorld prev)
              (λ h w, accounted (totalRecords env paths) h w ∧
                      conserved (allReads env paths) h w) Hm)
    as (Hret & _ & Hacc & Hcons).
  - split; [apply start_accounted|apply start_conserved].
  - intros h w h' w' [Hacc Hcons] Hiter. split.
    + by eapply mergeIter_accounted.
    + eapply mergeIter_conserved; [|done..]. by destruct Hacc as (_ & _ & ?).
  - split; [done|]. unfold conserved in Hcons.
    rewrite (accounted_allPending _ _ Hacc) in Hcons. simpl in Hcons.
    by rewrite !app_nil_r in Hcons.
Qed.

(** C2: merging two copies of a capture in which every one of the [M]
    records decodes, in a run where neither the timestamp check nor the
    payload check drops a record, loses no record and duplicates none:
    the records handed to the sink are the records of the two copies,
    each as often as the two copies hold it, so there are exactly
    [2 * M] of them; and when the sink refuses none, the output holds
    just these records.  [prev] is whatever earlier calls in the
    process left in [previousTimestamp]. *)
Theorem C2_count_conservation env args f path lt size recs prev :
  Merges env args f [path; path] →
  fs env path = Pcap lt size recs →
  Forall decodes recs →
  anomalyRejections (final (joincap env args (startWorld prev))) = [] →
  returned (joincap env args (startWorld prev)) = Ok None ∧
  readBack (handed (final (joincap env args (startWorld prev))))
    ≡ₚ recs ++ recs ∧
  length (handed (final (joincap env args (startWorld prev))))
    = (2 * length recs)%nat ∧
  ((∀ k ci data, sinkAccepts env k ci data = true) →
   readBack (outputRecords (final (joincap env args (startWorld prev))))
     ≡ₚ recs ++ recs ∧
   length (outputRecords (final (joincap env args (startWorld prev))))
     = (2 * length recs)%nat).
Proof.
  intros Hm Hfs Hvalid Hnone.
  destruct (joincap_rule env args f [path; path] (startWorld prev)
              (λ h w, accounted (totalRecords env [path; path]) h w ∧
                      allDecode w ∧ answered env w) Hm)
    as (Hret & _ & Hacc & [_ Hreason] & Hans).
  { split; [apply start_accounted|]. split.
    - unfold allDecode, mergeStart. rewrite !inputs_logIf, !skipped_logIf.
      apply init_allDecode.
      + intros path' lt' size' recs' Hel Hfs'.
        apply list_elem_of_In in Hel. simpl in Hel.
        destruct Hel as [<-|[<-|[]]]; congruence.
      + split; cbn [world]; rewrite ?inputs_logIf, ?skipped_logIf;
          constructor.
    - unfold answered, mergeStart, afterInit. rewrite !sinkCalls_logIf.
      apply (init_rule env (Verbose f)
               (λ st, Forall _ (sinkCalls (world st)))).
      + intros st path' Hst _. by rewrite sinkCalls_initOne.
      + cbn [world]. rewrite sinkCalls_logIf. constructor. }
  { intros h w h' w' (Hacc & Hall & Hans) Hiter.
    pose proof Hacc as (_ & _ & Hfile).
    split; [by eapply mergeIter_accounted|].
    split; [by eapply mergeIter_allDecode|by eapply mergeIter_answered]. }
  assert (skipped (final (joincap env args (startWorld prev))) = []) as Hsk.
  { unfold anomalyRejections in Hnone.
    destruct (skipped (final (joincap env args (startWorld prev))))
      as [|s sk]; [done|].
    apply Forall_cons in Hreason as [Hs _].
    rewrite filter_cons, decide_True in Hnone by done. done. }
  destruct (joincap_conserved env args f [path; path] prev Hm)
    as [_ Hperm].
  unfold passedOver, allReads, recordsOf in Hperm.
  rewrite Hsk in Hperm. cbn [map concat] in Hperm.
  rewrite Hfs, !app_nil_r in Hperm.
  assert (length (handed (final (joincap env args (startWorld prev))))
          = (2 * length recs)%nat) as Hlen.
  { rewrite <- (length_map (λ r, ReadOK r.1 r.2)).
    change (map (λ r, ReadOK r.1 r.2) ?l) with (readBack l).
    rewrite Hperm, length_app. lia. }
  split; [done|]. split; [done|]. split; [done|].
  intros Hsink.
  assert (outputRecords (final (joincap env args (startWorld prev)))
          = handed (final (joincap env args (startWorld prev)))) as ->;
    [|done].
  unfold outputRecords, handed. f_equal. apply filter_all.
  eapply Forall_impl; [apply Hans|]. intros c [k ->]. apply Hsink.
Qed.

Lemma C2_count_conservation_witness :
  let args := ["joincap"; "a.pcap"; "a.pcap"]%string in
  let recs := [demo.pkt 10; demo.pkt 20; demo.pkt 30] in
  readBack (outputRecords (final (joincap demo.env args (startWorld 0))))
    ≡ₚ recs ++ recs ∧
  length (outputRecords (final (joincap demo.env args (startWorld 0))))
    = 6%nat.
Proof.
  intros args recs.
  destruct (C2_count_conservation demo.env args (demo.flagsOf args)
              "a.pcap"%string LinkTypeEthernet 72 recs 0)
    as (_ & _ & _ & Hout).
  - repeat split; [by exists "joincap"%string | by left].
  - reflexivity.
  - repeat constructor.
  - by vm_compute.
  - apply Hout. reflexivity.
Defined.

(** X5: in a call that gets to the merge, every read of every capture
    among the inputs, up to the end of each file, is either handed to
    the sink or passed over, exactly once, and nothing else is: the
    records handed to the sink together with the reads passed over are
    the reads of the inputs, counted with repetition. *)
Theorem every_read_handed_or_passed_over env args f paths prev :
  Merges env args f paths →
  readBack (handed (final (joincap env args (startWorld prev)))) ++
    passedOver (final (joincap env args (startWorld prev)))
    ≡ₚ allReads env paths.
Proof. intros Hm. by destruct (joincap_conserved env args f paths prev Hm). Qed.

Lemma every_read_handed_or_passed_over_witness :
  let args := ["joincap"; "late.pcap"; "hollow.pcap"; "junk"]%string in
  let w' := final (joincap demo.env args (startWorld 0)) in
  Merges demo.env args (demo.flagsOf args)
    ["late.pcap"; "hollow.pcap"; "junk"]%string ∧
  readBack (handed w') ++ passedOver w'
    ≡ₚ allReads demo.env ["late.pcap"; "hollow.pcap"; "junk"]%string ∧
  passedOver w' = [ReadOK (mkCaptureInfo 40 0 0) []; demo.pkt oneHour].
Proof.
  intros args w'.
  assert (Merges demo.env args (demo.flagsOf args)
            ["late.pcap"; "hollow.pcap"; "junk"]%string) as Hm.
  { split; [done|]. split; [done|]. split; [by exists "joincap"%string|].
    by left. }
  split; [done|]. split.
  - exact (every_read_handed_or_passed_over demo.env args (demo.flagsOf args)
             ["late.pcap"; "hollow.pcap"; "junk"]%string 0 Hm).
  - by vm_compute.
Defined.

(** ** No record without payload reaches the sink *)

Lemma readNext_payload reader v isInit w w' p :
  readNext reader reader v isInit w = (w', Some p) → Data p ≠ [].
Proof.
  intros (_ & _ & _ & _ & _ & _ & sk & _ & _ & ci & data & _ & -> & Hacc & _)
    %readNext_inv.
  by apply judge_Accept in Hacc as [? _].
Qed.

Lemma withPayload_write env p v w :
  Data p ≠ [] → Forall (λ c, sc_data c ≠ []) (sinkCalls w) →
  Forall (λ c, sc_data c ≠ []) (sinkCalls (write env p v w)).
Proof.
  intros Hp Hw. rewrite sinkCalls_write. apply Forall_app. split; [done|].
  by repeat constructor.
Qed.

Lemma mergeIter_withPayload env v h w h' w' :
  Forall (λ p, InputFile p = Reader p) h →
  withPayload h w → mergeIter env v h w = Ok (h', w') → withPayload h' w'.
Proof.
  intros Hfile [Hh Hw]. destruct h as [|x t]; [done|].
  destruct (mergeIter_cons env v x t w) as (h1 & Hperm & _ & _ & ->).
  apply Forall_cons in Hfile as [Hfx _].
  apply Forall_cons in Hh as [Hx Ht]. rewrite <- Hperm in Ht.
  apply (innerLoop_rule env v x (thresholdOf h1) h1
    (λ w0, Forall (λ c, sc_data c ≠ []) (sinkCalls w0)) withPayload).
  - intros w0 w1 HP. rewrite Hfx. intros (_ & Hc & _)%readNext_inv.
    split; [done|]. by rewrite Hc.
  - intros w0 w1 p HP. rewrite Hfx. intros Hread _.
    apply (withPayload_write env p v); [by eapply readNext_payload|].
    apply readNext_inv in Hread as (_ & Hc & _). by rewrite Hc.
  - intros w0 w1 p HP. rewrite Hfx. intros Hread _. split.
    + rewrite heap_facts.Push_perm. constructor; [|done].
      by eapply readNext_payload.
    + apply readNext_inv in Hread as (_ & Hc & _). by rewrite Hc.
  - by apply (withPayload_write env x v).
Qed.

Lemma init_withPayload env v paths st :
  withPayload (minTimeHeap st) (world st) →
  withPayload (minTimeHeap (foldl (initOne env v) st paths))
    (world (foldl (initOne env v) st paths)).
Proof.
  apply (init_rule env v (λ st, withPayload (minTimeHeap st) (world st))).
  clear st. intros st path [Hh Hw] _. unfold withPayload.
  rewrite sinkCalls_initOne. split; [|done].
  destruct (initOne_step env v st path)
    as [err _ _ _ Hh' _|err _ _ _ Hh' _|lt size recs sk _ _ _ _ _ Hh' _
       |lt size recs sk ci data rest _ _ _ Hdata _ _ Hh' _];
    rewrite Hh'; [done..|].
  rewrite heap_facts.Push_perm. by constructor.
Qed.

(** X6: whatever the inputs hold, a call that gets to the merge hands
    to the sink only records that a read of some input yielded, and
    none of them has an empty payload. *)
Theorem only_records_with_payload env args f paths prev :
  Merges env args f paths →
  ∀ ci data,
    (ci, data) ∈ handed (final (joincap env args (startWorld prev))) →
    data ≠ [] ∧ ReadOK ci data ∈ allReads env paths.
Proof.
  intros Hm ci data Hel. split.
  - destruct (joincap_rule env args f paths (startWorld prev)
                (λ h w, accounted (totalRecords env paths) h w ∧
                        withPayload h w) Hm)
      as (_ & _ & _ & _ & Hcalls).
    + split; [apply start_accounted|].
      unfold withPayload, mergeStart. rewrite !sinkCalls_logIf.
      apply init_withPayload. unfold withPayload. cbn [world minTimeHeap].
      rewrite sinkCalls_logIf. by split.
    + intros h w h' w' [Hacc Hpay] Hiter. split.
      * by eapply mergeIter_accounted.
      * eapply mergeIter_withPayload; [|done..].
        by destruct Hacc as (_ & _ & ?).
    + apply elem_of_map_inv in Hel as (c & Hc & Heq).
      rewrite Forall_forall in Hcalls. specialize (Hcalls c Hc).
      by injection Heq as _ <-.
  - destruct (joincap_conserved env args f paths prev Hm) as [_ Hperm].
    rewrite <- Hperm. apply elem_of_app. left.
    by apply (elem_of_map_1 (λ r, ReadOK r.1 r.2) _ (ci, data)).
Qed.

Lemma only_records_with_payload_witness :
  let args := ["joincap"; "hollow.pcap"]%string in
  Merges demo.env args (demo.flagsOf args) ["hollow.pcap"]%string ∧
  handed (final (joincap demo.env args (startWorld 0)))
    = [(mkCaptureInfo 50 1 1, [0])] ∧
  [0] ≠ @nil Z ∧
  ReadOK (mkCaptureInfo 50 1 1) [0] ∈ allReads demo.env ["hollow.pcap"]%string.
Proof.
  intros args.
  assert (Merges demo.env args (demo.flagsOf args) ["hollow.pcap"]%string)
    as Hm.
  { split; [done|]. split; [done|]. split; [by exists "joincap"%string|].
    by left. }
  assert (handed (final (joincap demo.env args (startWorld 0)))
            = [(mkCaptureInfo 50 1 1, [0])]) as Hhanded by (by vm_compute).
  split; [done|]. split; [done|].
  apply (only_records_with_payload demo.env args (demo.flagsOf args)
           ["hollow.pcap"]%string 0 Hm).
  rewrite Hhanded. by left.
Defined.

(** ** The output never steps back by more than an hour *)

Lemma tolerates_bound prev t :
  Int64.in_range t → tolerates prev t → prev - oneHour <= t.
Proof.
  unfold tolerates, Int64.add, Int64.wrap, Int64.in_range, Int64.min_int,
    Int64.max_int, oneHour.
  intros Ht [Hle|Hpass]; lia.
Qed.

Lemma withinOneHour_snoc l x :
  withinOneHour l →
  (∀ c, last l = Some c → callStamp c - oneHour <= callStamp x) →
  withinOneHour (l ++ [x]).
Proof.
  intros Hl Hx i a b Ha Hb.
  destruct (decide (S i < length l)%nat) as [Hlt|Hge].
  - rewrite lookup_app_l in Ha, Hb by lia. by eapply Hl.
  - pose proof (lookup_lt_Some _ _ _ Hb) as Hlen.
    rewrite length_app in Hlen. simpl in Hlen.
    assert (S i = length l) as Hi by lia.
    rewrite lookup_app_l in Ha by lia.
    rewrite lookup_app_r in Hb by lia.
    replace (S i - length l)%nat with 0%nat in Hb by lia.
    injection Hb as <-. apply Hx. rewrite last_lookup.
    by replace (pred (length l)) with i by lia.
Qed.

Lemma init_ordered env v paths st :
  heap_order.ordered (minTimeHeap st) →
  heap_order.ordered (minTimeHeap (foldl (initOne env v) st paths)).
Proof.
  apply (init_rule env v (λ st, heap_order.ordered (minTimeHeap st))).
  clear st. intros st path Hord _.
  destruct (initOne_step env v st path)
    as [err _ _ _ Hh' _|err _ _ _ Hh' _|lt size recs sk _ _ _ _ _ Hh' _
       |lt size recs sk ci data rest _ _ _ _ _ _ Hh' _];
    rewrite Hh'; [done..|].
  by apply heap_facts.Push_ordered.
Qed.

Lemma readNext_tolerates reader v w w' p :
  readNext reader reader v false w = (w', Some p) →
  tolerates (previousTimestamp w) (Timestamp p).
Proof.
  intros (_ & _ & _ & _ & _ & _ & sk & _ & _ & ci & data & _ & -> & Hacc & _)
    %readNext_inv.
  apply judge_Accept in Hacc as [_ Hpass]. right. by apply Hpass.
Qed.

Lemma callStamp_write env p v w c :
  wfPacket w p →
  last (sinkCalls (write env p v w)) = Some c → callStamp c = Timestamp p.
Proof.
  intros (_ & _ & Hts). rewrite sinkCalls_write, last_snoc.
  intros [= <-]. by rewrite Hts.
Qed.

Lemma mergeIter_bounded env v h w h' w' :
  bounded h w → mergeIter env v h w = Ok (h', w') → bounded h' w'.
Proof.
  intros (Hwf & Hord & Hcalls & Hlast). destruct h as [|x t]; [done|].
  destruct (mergeIter_cons env v x t w) as (h1 & Hperm & _ & Hord1 & ->).
  specialize (Hord1 Hord).
  apply Forall_cons in Hwf as [Hxwf Hwft]. rewrite <- Hperm in Hwft.
  pose proof Hxwf as (Hxlt & Hxfile & Hxts).
  assert (∀ w0, length (inputs w0) = length (inputs w) →
                Forall (wfPacket w0) h1) as Hwf1.
  { intros w0 Hlen. eapply Forall_impl; [done|].
    intros q. by apply wfPacket_length. }
  apply (innerLoop_rule env v x (thresholdOf h1) h1
    (λ w0,
       length (inputs w0) = length (inputs w) ∧
       withinOneHour (sinkCalls w0) ∧
       ∃ c, last (sinkCalls w0) = Some c ∧
            previousTimestamp w0 = callStamp c ∧
            ∀ q, q ∈ h1 → callStamp c <= Timestamp q)
    bounded).
  - (* end of the input *)
    intros w0 w1 (Hlen & Hcalls0 & c & Hc & Hprev & Hmin).
    rewrite Hxfile. intros (Hp & Hs & Hlen1 & _)%readNext_inv.
    split; [apply Hwf1; congruence|]. split; [done|].
    rewrite Hs, Hc, Hp. split; [done|]. split; [done|].
    intros q Hq. left. by apply Hmin.
  - (* a record written at once *)
    intros w0 w1 p (Hlen & Hcalls0 & c & Hc & Hprev & Hmin).
    rewrite Hxfile. intros Hread Hthr.
    pose proof (readNext_tolerates _ _ _ _ _ Hread) as Htol.
    destruct (readNext_packet _ _ _ _ _ _ Hread) as (Hpwf & _).
    pose proof Hpwf as (_ & _ & Hpts).
    apply readNext_inv in Hread as (Hp & Hs & Hlen1 & _).
    rewrite inputs_write, previousTimestamp_write.
    split; [congruence|]. split.
    + rewrite sinkCalls_write. apply withinOneHour_snoc; [by rewrite Hs|].
      intros c'. rewrite Hs, Hc. intros [= <-]. unfold callStamp at 2.
      simpl. rewrite <- Hpts. apply tolerates_bound.
      * rewrite Hpts. apply UnixNano_in_range.
      * by rewrite <- Hprev.
    + eexists. split; [by rewrite sinkCalls_write, last_snoc|].
      unfold callStamp. simpl. split; [done|]. rewrite <- Hpts.
      intros q Hq. by apply (threshold_min h1).
  - (* a record pushed on the heap *)
    intros w0 w1 p (Hlen & Hcalls0 & c & Hc & Hprev & Hmin).
    rewrite Hxfile. intros Hread Hthr.
    pose proof (readNext_tolerates _ _ _ _ _ Hread) as Htol.
    destruct (readNext_packet _ _ _ _ _ _ Hread) as (Hpwf & _).
    apply readNext_inv in Hread as (Hp & Hs & Hlen1 & _).
    split.
    { rewrite heap_facts.Push_perm. constructor; [done|].
      apply Hwf1. congruence. }
    split; [by apply heap_facts.Push_ordered|].
    rewrite Hs, Hc, Hp. split; [done|]. split; [done|].
    intros q. rewrite heap_facts.Push_perm.
    intros [->|Hq]%elem_of_cons; [by rewrite <- Hprev|].
    left. by apply Hmin.
  - (* the state after the popped packet is written *)
    rewrite inputs_write, previousTimestamp_write, sinkCalls_write.
    split; [done|]. split.
    + apply withinOneHour_snoc; [done|].
      intros c Hc. rewrite Hc in Hlast. destruct Hlast as [_ Htol].
      unfold callStamp at 2. simpl. rewrite <- Hxts.
      apply tolerates_bound.
      * rewrite Hxts. apply UnixNano_in_range.
      * apply Htol. by left.
    + eexists. split; [by rewrite last_snoc|].
      unfold callStamp. simpl. split; [done|]. rewrite <- Hxts.
      intros q Hq. rewrite Hperm in Hq.
      by apply (heap_facts.ordered_head_min x t q).
Qed.

Lemma start_bounded env f paths prev :
  bounded (minTimeHeap (afterInit env f paths (startWorld prev)))
    (mergeStart env f paths (startWorld prev)).
Proof.
  assert (sinkCalls (mergeStart env f paths (startWorld prev)) = []) as Hc.
  { unfold mergeStart. rewrite !sinkCalls_logIf. unfold afterInit.
    apply (init_rule env (Verbose f) (λ st, sinkCalls (world st) = [])).
    - intros st path Hst _. by rewrite sinkCalls_initOne.
    - cbn [world]. by rewrite sinkCalls_logIf. }
  split; [|split; [|split]].
  - eapply Forall_impl; [apply init_wf; by constructor|].
    intros p. apply wfPacket_length. unfold mergeStart.
    by rewrite !inputs_logIf.
  - apply init_ordered. apply heap_facts.ordered_nil.
  - rewrite Hc. by intros i a b ?.
  - by rewrite Hc.
Qed.

(** X7: whatever the inputs hold and in whatever order, in a call that
    gets to the merge the timestamp goes back by at most one hour from
    one record handed to the sink to the next. *)
Theorem output_steps_back_one_hour_at_most env args f paths prev :
  Merges env args f paths →
  ∀ i a b,
    handed (final (joincap env args (startWorld prev))) !! i = Some a →
    handed (final (joincap env args (startWorld prev))) !! S i = Some b →
    recordStamp a - oneHour <= recordStamp b.
Proof.
  intros Hm i a b.
  destruct (joincap_rule env args f paths (startWorld prev) bounded Hm)
    as (_ & _ & _ & _ & Hcalls & _).
  { apply start_bounded. }
  { intros h w h' w'. apply mergeIter_bounded. }
  unfold handed. rewrite !lookup_map.
  destruct (_ !! i) as [ca|] eqn:Hca; [|done].
  destruct (_ !! S i) as [cb|] eqn:Hcb; [|done].
  simpl. intros [= <-] [= <-]. by apply (Hcalls i).
Qed.

Lemma output_steps_back_one_hour_at_most_witness :
  let args := ["joincap"; "late.pcap"; "b.pcap"]%string in
  Merges demo.env args (demo.flagsOf args) ["late.pcap"; "b.pcap"]%string ∧
  map recordStamp (handed (final (joincap demo.env args (startWorld 0))))
    = [15; 25; 3 * oneHour; 4 * oneHour] ∧
  25 - oneHour <= 3 * oneHour.
Proof.
  intros args.
  assert (Merges demo.env args (demo.flagsOf args)
            ["late.pcap"; "b.pcap"]%string) as Hm.
  { split; [done|]. split; [done|]. split; [by exists "joincap"%string|].
    by left. }
  split; [done|]. split; [by vm_compute|].
  by apply (output_steps_back_one_hour_at_most demo.env args
              (demo.flagsOf args) ["late.pcap"; "b.pcap"]%string 0 Hm 1%nat
              (mkCaptureInfo 25 1 1, [0])
              (mkCaptureInfo (3 * oneHour) 1 1, [0])).
Defined.

(** ** Inputs in time order are merged without loss *)

Lemma intact_accepted prev isInit o why :
  intact o →
  (isInit = false → ∀ ci data, o = ReadOK ci data →
                    prev <= UnixNano (ci_Timestamp ci)) →
  judge prev isInit o ≠ Reject why.
Proof.
  destruct o as [ci data|err]; [|done]. intros [Hdata Hmax] Hprev.
  assert (judge prev isInit (ReadOK ci data) = Accept ci data) as ->; [|done].
  apply judge_Accept. split; [done|]. intros Hinit.
  specialize (Hprev Hinit ci data eq_refl).
  pose proof (UnixNano_in_range (ci_Timestamp ci)) as [Hlo _].
  unfold Int64.add. rewrite wrap_id.
  - unfold oneHour in *. lia.
  - unfold Int64.in_range, Int64.min_int, oneHour in *. lia.
Qed.

(** A read of an input whose pending reads are intact and, unless it is
    an initialisation read, not before [previousTimestamp], passes over
    nothing. *)
Lemma readNext_intact reader v isInit w w' r :
  allIntact w →
  (isInit = false →
   Forall (λ t, previousTimestamp w <= t) (stamps (pendingOf reader w))) →
  readNext reader reader v isInit w = (w', r) →
  skipped w' = skipped w ∧ allIntact w'.
Proof.
  intros Hall Hprev Hread. split.
  - pose proof (readNext_inv _ _ _ _ _ _ Hread)
      as (_ & _ & _ & _ & _ & _ & sk & -> & Hrej & Hres).
    destruct sk as [|s sk]; [by rewrite app_nil_r|]. exfalso.
    apply Forall_cons in Hrej as [[_ Hrej] _].
    assert (∃ rest, pendingOf reader w = sk_outcome s :: rest) as [rest Hp].
    { destruct r as [p|].
      - destruct Hres as (ci & data & -> & _). by eexists.
      - destruct Hres as [-> _]. by eexists. }
    apply (intact_accepted _ _ _ _) in Hrej; [done| |].
    + unfold pendingOf in Hp.
      destruct (inputs w !! reader) as [inp|] eqn:Hin; [|done].
      pose proof (Forall_lookup_1 _ _ _ _ Hall Hin) as Hinp. simpl in Hinp.
      rewrite Hp in Hinp. by apply Forall_cons in Hinp as [? _].
    + intros Hinit ci data Ho. specialize (Hprev Hinit).
      rewrite Hp, Ho in Hprev. simpl in Hprev.
      by apply Forall_cons in Hprev as [? _].
  - revert Hread. apply (readNext_inputs_Forall (Forall intact)); [|done].
    intros l1 l2. by intros [_ ?]%Forall_app.
Qed.

Lemma mergeIter_lossless env v h w h' w' :
  inOrder h w → allIntact w → mergeIter env v h w = Ok (h', w') →
  skipped w' = skipped w ∧ allIntact w'.
Proof.
  intros (Hwf & _ & Hsrc & Hpend & _) Hall.
  destruct h as [|x t]; [done|].
  destruct (mergeIter_cons env v x t w) as (h1 & _ & _ & _ & ->).
  apply Forall_cons in Hwf as [(_ & Hxfile & _) _].
  apply (innerLoop_rule env v x (thresholdOf h1) h1
    (λ w0,
       sourcesSorted w0 ∧ allIntact w0 ∧ skipped w0 = skipped w ∧
       Forall (λ t, previousTimestamp w0 <= t)
         (stamps (pendingOf (Reader x) w0)))
    (λ _ w0, skipped w0 = skipped w ∧ allIntact w0)).
  - intros w0 w1 (_ & Hall0 & Hs0 & Hnext0). rewrite Hxfile. intros Hread.
    destruct (readNext_intact _ _ _ _ _ _ Hall0 (λ _, Hnext0) Hread)
      as [Hs1 Hall1].
    split; [congruence|done].
  - intros w0 w1 p (Hsrc0 & Hall0 & Hs0 & Hnext0). rewrite Hxfile.
    intros Hread _.
    destruct (readNext_intact _ _ _ _ _ _ Hall0 (λ _, Hnext0) Hread)
      as [Hs1 Hall1].
    destruct (readNext_packet _ _ _ _ _ _ Hread) as (_ & _ & pre & Hsplit).
    pose proof (readNext_sourcesSorted _ _ _ _ _ _ Hsrc0 Hread) as Hsrc1.
    unfold sourcesSorted, allIntact.
    rewrite inputs_write, skipped_write, previousTimestamp_write,
      pendingOf_write.
    split; [done|]. split; [done|]. split; [congruence|].
    exact (sorted_after w0 _ _ _ _ Hsrc0 Hsplit).
  - intros w0 w1 p (_ & Hall0 & Hs0 & Hnext0). rewrite Hxfile.
    intros Hread _.
    destruct (readNext_intact _ _ _ _ _ _ Hall0 (λ _, Hnext0) Hread)
      as [Hs1 Hall1].
    split; [congruence|done].
  - unfold sourcesSorted, allIntact.
    rewrite inputs_write, skipped_write, previousTimestamp_write,
      pendingOf_write.
    split; [done|]. split; [done|]. split; [done|]. apply Hpend. by left.
Qed.

Lemma rejected_intact_nil prev reader (sk : list Skip) :
  Forall intact (map sk_outcome sk) →
  Forall (λ s, sk_input s = reader ∧
               judge prev true (sk_outcome s) = Reject (sk_reason s)) sk →
  sk = [].
Proof.
  destruct sk as [|s sk]; [done|]. simpl.
  intros [Hs _]%Forall_cons [[_ Hrej] _]%Forall_cons.
  by apply (intact_accepted prev true) in Hrej.
Qed.

Lemma init_lossless env v paths st :
  (∀ path lt size recs, path ∈ paths → fs env path = Pcap lt size recs →
                        Forall intact recs) →
  allIntact (world st) ∧ skipped (world st) = [] →
  allIntact (world (foldl (initOne env v) st paths)) ∧
  skipped (world (foldl (initOne env v) st paths)) = [].
Proof.
  intros Hintact.
  apply (init_rule env v
           (λ st, allIntact (world st) ∧ skipped (world st) = [])).
  clear st. intros st path [Hall Hnone] Hel. unfold allIntact.
  destruct (initOne_step env v st path)
    as [err _ Hi Hs _ _|err _ Hi Hs _ _
       |lt size recs sk Hfs Hrecs Hrej Hi Hs _ _
       |lt size recs sk ci data rest Hfs Hrecs Hrej _ Hi Hs _ _];
    rewrite Hi, Hs.
  - done.
  - split; [|done]. apply Forall_app. split; [done|]. by repeat constructor.
  - specialize (Hintact _ _ _ _ Hel Hfs). rewrite Hrecs in Hintact.
    rewrite (rejected_intact_nil _ _ _ Hintact Hrej), app_nil_r.
    split; [|done]. apply Forall_app. split; [done|]. by repeat constructor.
  - specialize (Hintact _ _ _ _ Hel Hfs). rewrite Hrecs in Hintact.
    apply Forall_app in Hintact as [Hsk Hrest].
    apply Forall_cons in Hrest as [_ Hrest].
    rewrite (rejected_intact_nil _ _ _ Hsk Hrej), app_nil_r.
    split; [|done]. apply Forall_app. split; [done|]. by repeat constructor.
Qed.

(** Inputs in time order whose reads are intact are merged without
    loss, in time order. *)
Lemma joincap_lossless env args f paths prev :
  Merges env args f paths →
  (∀ path lt size recs,
     path ∈ paths → fs env path = Pcap lt size recs →
     timeOrdered recs ∧ Forall intact recs) →
  skipped (final (joincap env args (startWorld prev))) = [] ∧
  readBack (handed (final (joincap env args (startWorld prev))))
    ≡ₚ allReads env paths ∧
  StronglySorted Z.le
    (map recordStamp (handed (final (joincap env args (startWorld prev))))).
Proof.
  intros Hm Hin.
  destruct (joincap_rule env args f paths (startWorld prev)
              (λ h w, inOrder h w ∧ allIntact w ∧ skipped w = []) Hm)
    as (_ & _ & Hord & _ & Hnone).
  { split.
    - apply start_inOrder. intros path lt size recs Hel Hfs.
      by destruct (Hin path lt size recs Hel Hfs).
    - unfold allIntact, mergeStart. rewrite !inputs_logIf, !skipped_logIf.
      apply init_lossless.
      + intros path lt size recs Hel Hfs.
        by destruct (Hin path lt size recs Hel Hfs).
      + cbn [world]. unfold allIntact.
        rewrite inputs_logIf, skipped_logIf. by split. }
  { intros h w h' w' (Hord & Hall & Hnone) Hiter.
    split; [by eapply mergeIter_inOrder|].
    destruct (mergeIter_lossless _ _ _ _ _ _ Hord Hall Hiter) as [Hs ?].
    split; [done|congruence]. }
  split; [done|]. split.
  - destruct (joincap_conserved env args f paths prev Hm) as [_ Hperm].
    unfold passedOver in Hperm. rewrite Hnone in Hperm. simpl in Hperm.
    by rewrite app_nil_r in Hperm.
  - destruct Hord as (_ & _ & _ & _ & Hsorted & _).
    unfold handed. rewrite map_map.
    by replace (map _ (sinkCalls _)) with
      (map callStamp
         (sinkCalls (final (joincap env args (startWorld prev))))).
Qed.

(** X8: when every capture among the inputs is in time order and each
    of its reads is intact (it decodes, the record has a payload, and
    its timestamp is more than an hour below the largest [int64]), a
    call that gets to the merge passes over nothing: the records handed
    to the sink are the records of the inputs, each as often as the
    inputs hold it, in time order. *)
Theorem lossless_sorted_merge env args f paths prev :
  Merges env args f paths →
  (∀ path lt size recs,
     path ∈ paths → fs env path = Pcap lt size recs →
     timeOrdered recs ∧ Forall intact recs) →
  skipped (final (joincap env args (startWorld prev))) = [] ∧
  readBack (handed (final (joincap env args (startWorld prev))))
    ≡ₚ allReads env paths ∧
  StronglySorted Z.le
    (map recordStamp (handed (final (joincap env args (startWorld prev))))).
Proof. apply joincap_lossless. Qed.

Lemma lossless_sorted_merge_witness :
  let args := ["joincap"; "a.pcap"; "junk"; "b.pcap"; "a.pcap"]%string in
  Merges demo.env args (demo.flagsOf args)
    ["a.pcap"; "junk"; "b.pcap"; "a.pcap"]%string ∧
  skipped (final (joincap demo.env args (startWorld 0))) = [] ∧
  map recordStamp (handed (final (joincap demo.env args (startWorld 0))))
    = [10; 10; 15; 20; 20; 25; 30; 30].
Proof.
  intros args.
  assert (Merges demo.env args (demo.flagsOf args)
            ["a.pcap"; "junk"; "b.pcap"; "a.pcap"]%string) as Hm.
  { split; [done|]. split; [done|]. split; [by exists "joincap"%string|].
    by left. }
  split; [done|].
  destruct (lossless_sorted_merge demo.env args (demo.flagsOf args)
              ["a.pcap"; "junk"; "b.pcap"; "a.pcap"]%string 0 Hm)
    as (Hnone & _ & _).
  { intros path lt size recs Hel Hfs.
    apply list_elem_of_In in Hel. simpl in Hel.
    destruct Hel as [<-|[<-|[<-|[<-|[]]]]]; vm_compute in Hfs;
      try discriminate; injection Hfs as <- <- <-;
      (split; [repeat constructor; by vm_compute
              |repeat constructor; by vm_compute]). }
  split; [done|]. by vm_compute.
Defined.

(** ** Which files are closed when the merge ends *)

Lemma readNext_names reader v isInit w w' r :
  readNext reader reader v isInit w = (w', r) →
  map in_name (inputs w') = map in_name (inputs w).
Proof.
  intros (_ & _ & Hlen & Hother & Hself & _)%readNext_inv.
  apply list_eq. intros k. rewrite !lookup_map.
  destruct (decide (k = reader)) as [->|Hne]; [|by rewrite Hother].
  destruct (inputs w !! reader) as [inp|] eqn:Hin.
  - by rewrite (Hself inp eq_refl).
  - apply lookup_ge_None in Hin. rewrite <- Hlen in Hin.
    apply lookup_ge_None in Hin. by rewrite Hin.
Qed.

Lemma mergeIter_names env v h w h' w' :
  Forall (λ p, InputFile p = Reader p) h →
  mergeIter env v h w = Ok (h', w') →
  map in_name (inputs w') = map in_name (inputs w).
Proof.
  intros Hfile. destruct h as [|x t]; [done|].
  destruct (mergeIter_cons env v x t w) as (h1 & _ & _ & _ & ->).
  apply Forall_cons in Hfile as [Hfx _].
  apply (innerLoop_rule env v x (thresholdOf h1) h1
    (λ w0, map in_name (inputs w0) = map in_name (inputs w))
    (λ _ w0, map in_name (inputs w0) = map in_name (inputs w))).
  - intros w0 w1 HP. rewrite Hfx. intros ->%readNext_names. done.
  - intros w0 w1 p HP. rewrite Hfx. intros Hread%readNext_names _.
    rewrite inputs_write. congruence.
  - intros w0 w1 p HP. rewrite Hfx. intros ->%readNext_names. done.
  - by rewrite inputs_write.
Qed.

Lemma init_names env v paths st :
  map in_name (inputs (world (foldl (initOne env v) st paths))) =
    map in_name (inputs (world st))
      ++ filter (λ path, opens env path = true) paths.
Proof.
  revert st. induction paths as [|path paths IH]; intros st.
  - simpl. by rewrite app_nil_r.
  - cbn [foldl]. rewrite IH, filter_cons.
    destruct (initOne_step env v st path)
      as [err Hfs Hi _ _ _|err Hfs Hi _ _ _|lt size recs sk Hfs _ _ Hi _ _ _
         |lt size recs sk ci data rest Hfs _ _ _ Hi _ _ _];
      rewrite Hi.
    + rewrite decide_False; [done|]. unfold opens. by rewrite Hfs.
    + rewrite decide_True by (unfold opens; by rewrite Hfs).
      by rewrite map_app, <- app_assoc.
    + rewrite decide_True by (unfold opens; by rewrite Hfs).
      by rewrite map_app, <- app_assoc.
    + rewrite decide_True by (unfold opens; by rewrite Hfs).
      by rewrite map_app, <- app_assoc.
Qed.

Lemma readNext_lookup reader v isInit w w' r k inp' :
  readNext reader reader v isInit w = (w', r) →
  inputs w' !! k = Some inp' →
  ∃ inp, inputs w !! k = Some inp ∧ in_name inp' = in_name inp ∧
         (k ≠ reader → inp' = inp) ∧
         (k = reader → r = None → in_closed inp' = true).
Proof.
  intros (_ & _ & Hlen & Hother & Hself & _)%readNext_inv Hk.
  destruct (decide (k = reader)) as [->|Hne].
  - destruct (inputs w !! reader) as [inp|] eqn:Hin.
    + rewrite (Hself inp eq_refl) in Hk. injection Hk as <-.
      exists inp. split; [done|]. split; [done|]. split; [done|].
      by intros _ ->.
    + apply lookup_lt_Some in Hk. apply lookup_ge_None in Hin. lia.
  - rewrite Hother in Hk by done. exists inp'. by repeat split.
Qed.

Lemma mergeIter_tidy env v h w h' w' :
  tidy env h w → mergeIter env v h w = Ok (h', w') → tidy env h' w'.
Proof.
  intros [Hwf Htidy]. destruct h as [|x t]; [done|].
  destruct (mergeIter_cons env v x t w) as (h1 & Hperm & _ & _ & ->).
  apply Forall_cons in Hwf as [(_ & Hxfile & _) Hwft].
  rewrite <- Hperm in Hwft.
  assert (∀ w0, length (inputs w0) = length (inputs w) →
                Forall (wfPacket w0) h1) as Hwf1.
  { intros w0 Hlen. eapply Forall_impl; [done|].
    intros q. by apply wfPacket_length. }
  set (P := λ w0 : World,
         length (inputs w0) = length (inputs w) ∧
         ∀ r inp, inputs w0 !! r = Some inp →
           if isCapture env (in_name inp)
           then r ≠ Reader x → in_closed inp = false →
                ∃ p, p ∈ h1 ∧ Reader p = r
           else in_closed inp = false ∧ r ≠ Reader x ∧
                ∀ p, p ∈ h1 → Reader p ≠ r).
  assert (∀ w0 w1 r, P w0 →
            readNext (Reader x) (Reader x) v false w0 = (w1, r) → P w1)
    as Hstep.
  { intros w0 w1 r [Hlen HP] Hread.
    split; [apply readNext_inv in Hread as (_ & _ & -> & _); done|].
    intros k inp' Hk.
    destruct (readNext_lookup _ _ _ _ _ _ _ _ Hread Hk)
      as (inp & Hin & Hname & Hsame & _).
    specialize (HP k inp Hin). rewrite Hname.
    destruct (isCapture env (in_name inp)).
    - intros Hne. rewrite (Hsame Hne). by apply HP.
    - destruct HP as (Hopen & Hne & Hnone). by rewrite (Hsame Hne). }
  apply (innerLoop_rule env v x (thresholdOf h1) h1 P (tidy env)).
  - (* end of the input *)
    intros w0 w1 HP. rewrite Hxfile. intros Hread.
    destruct (Hstep _ _ _ HP Hread) as [Hlen1 HP1].
    split; [by apply Hwf1|]. intros k inp' Hk.
    destruct (readNext_lookup _ _ _ _ _ _ _ _ Hread Hk)
      as (_ & _ & _ & _ & Hclosed).
    specialize (HP1 k inp' Hk).
    destruct (isCapture env (in_name inp')).
    + intros Hopen. apply HP1; [|done]. intros ->.
      rewrite Hclosed in Hopen; done.
    + by destruct HP1 as (? & _ & ?).
  - (* a record written at once *)
    intros w0 w1 p HP. rewrite Hxfile. intros Hread _.
    destruct (Hstep _ _ _ HP Hread) as [Hlen1 HP1].
    split; by rewrite inputs_write.
  - (* a record pushed on the heap *)
    intros w0 w1 p HP. rewrite Hxfile. intros Hread _.
    destruct (Hstep _ _ _ HP Hread) as [Hlen1 HP1].
    destruct (readNext_packet _ _ _ _ _ _ Hread) as (Hpwf & Hpr & _).
    split.
    { rewrite heap_facts.Push_perm. constructor; [done|]. by apply Hwf1. }
    intros k inp' Hk. specialize (HP1 k inp' Hk).
    destruct (isCapture env (in_name inp')).
    + intros Hopen. destruct (decide (k = Reader x)) as [->|Hne].
      * exists p. split; [|done]. rewrite heap_facts.Push_perm. by left.
      * destruct (HP1 Hne Hopen) as (q & Hq & Hqr). exists q.
        split; [|done]. rewrite heap_facts.Push_perm. by right.
    + destruct HP1 as (Hopen & Hne & Hnone). split; [done|].
      intros q. rewrite heap_facts.Push_perm.
      intros [->|Hq]%elem_of_cons; [congruence|by apply Hnone].
  - (* the state after the popped packet is written *)
    split; [by rewrite inputs_write|]. rewrite inputs_write.
    intros k inp Hk. specialize (Htidy k inp Hk).
    destruct (isCapture env (in_name inp)).
    + intros Hne Hopen. destruct (Htidy Hopen) as (q & Hq & Hqr).
      exists q. split; [|done]. rewrite Hperm.
      apply elem_of_cons in Hq as [->|Hq]; [done|done].
    + destruct Htidy as [Hopen Hnone]. split; [done|]. split.
      * intros ->. by apply (Hnone x); [left|].
      * intros q Hq. apply Hnone. right. by rewrite <- Hperm.
Qed.

Lemma init_tidy env v paths st :
  tidy env (minTimeHeap st) (world st) →
  tidy env (minTimeHeap (foldl (initOne env v) st paths))
    (world (foldl (initOne env v) st paths)).
Proof.
  apply (init_rule env v (λ st, tidy env (minTimeHeap st) (world st))).
  clear st. intros st path [Hwf Htidy] _.
  split; [apply (init_wf env v [path] st Hwf)|].
  assert (∀ p, p ∈ minTimeHeap st → Reader p ≠ length (inputs (world st)))
    as Hfresh.
  { intros p Hp. rewrite Forall_forall in Hwf.
    destruct (Hwf p Hp) as (? & _). lia. }
  destruct (initOne_step env v st path)
    as [err Hfs Hi _ Hh _|err Hfs Hi _ Hh _|lt size recs sk Hfs _ _ Hi _ Hh _
       |lt size recs sk ci data rest Hfs _ _ _ Hi _ Hh _];
    rewrite Hi, Hh.
  - done.
  - intros r inp [Hin|[Hlen Hin]]%lookup_app_Some; [by apply Htidy|].
    apply list_lookup_singleton_Some in Hin as [Hr <-].
    unfold isCapture. simpl. rewrite Hfs. split; [done|].
    intros p Hp. specialize (Hfresh p Hp). lia.
  - intros r inp [Hin|[Hlen Hin]]%lookup_app_Some; [by apply Htidy|].
    apply list_lookup_singleton_Some in Hin as [Hr <-].
    unfold isCapture. simpl. by rewrite Hfs.
  - intros r inp [Hin|[Hlen Hin]]%lookup_app_Some.
    + specialize (Htidy r inp Hin).
      destruct (isCapture env (in_name inp)).
      * intros Hopen. destruct (Htidy Hopen) as (q & Hq & Hqr).
        exists q. split; [|done]. rewrite heap_facts.Push_perm. by right.
      * destruct Htidy as [Hopen Hnone]. split; [done|].
        intros q. rewrite heap_facts.Push_perm.
        intros [->|Hq]%elem_of_cons; [|by apply Hnone].
        simpl. apply lookup_lt_Some in Hin. lia.
    + apply list_lookup_singleton_Some in Hin as [Hr <-].
      unfold isCapture. simpl. rewrite Hfs. intros _.
      eexists. split; [rewrite heap_facts.Push_perm; by left|].
      simpl. lia.
Qed.

(** X9: when a call that gets to the merge returns, the table of
    inputs lists the paths that [os.Open] opened, in the order of the
    command line; every one of them that is a capture has been closed,
    and every one that [pcapgo.NewReader] refused is still open: the
    program never closes a file that is no capture. *)
Theorem captures_closed_at_end env args f paths prev :
  Merges env args f paths →
  map in_name (inputs (final (joincap env args (startWorld prev))))
    = filter (λ path, opens env path = true) paths ∧
  ∀ inp, inp ∈ inputs (final (joincap env args (startWorld prev))) →
         in_closed inp = isCapture env (in_name inp).
Proof.
  intros Hm.
  destruct (joincap_rule env args f paths (startWorld prev)
              (λ h w, tidy env h w ∧
                      map in_name (inputs w)
                        = filter (λ path, opens env path = true) paths) Hm)
    as (_ & _ & [_ Htidy] & Hnames).
  { unfold mergeStart. split.
    - assert (tidy env (minTimeHeap (afterInit env f paths (startWorld prev)))
                (world (afterInit env f paths (startWorld prev))))
        as [Hwf Htidy].
      { apply init_tidy. split; [constructor|].
        cbn [world]. rewrite inputs_logIf. by intros r inp ?. }
      split.
      + eapply Forall_impl; [done|]. intros p. apply wfPacket_length.
        by rewrite !inputs_logIf.
      + by rewrite !inputs_logIf.
    - rewrite !inputs_logIf. unfold afterInit. rewrite init_names.
      cbn [world]. by rewrite inputs_logIf. }
  { intros h w h' w' [Htidy Hnames] Hiter.
    split; [by eapply mergeIter_tidy|].
    rewrite <- Hnames. eapply mergeIter_names; [|done].
    destruct Htidy as [Hwf _]. eapply Forall_impl; [done|].
    by intros p (_ & ? & _). }
  split; [done|]. intros inp [r Hr]%list_elem_of_lookup.
  specialize (Htidy r inp Hr).
  destruct (isCapture env (in_name inp)).
  - destruct (in_closed inp); [done|].
    destruct (Htidy eq_refl) as (p & Hp & _). by apply elem_of_nil in Hp.
  - by destruct Htidy.
Qed.

Lemma captures_closed_at_end_witness :
  let args := ["joincap"; "a.pcap"; "junk"; "nowhere"; "empty.pcap"]%string in
  Merges demo.env args (demo.flagsOf args)
    ["a.pcap"; "junk"; "nowhere"; "empty.pcap"]%string ∧
  map in_name (inputs (final (joincap demo.env args (startWorld 0))))
    = ["a.pcap"; "junk"; "empty.pcap"]%string ∧
  map in_closed (inputs (final (joincap demo.env args (startWorld 0))))
    = [true; false; true].
Proof.
  intros args.
  assert (Merges demo.env args (demo.flagsOf args)
            ["a.pcap"; "junk"; "nowhere"; "empty.pcap"]%string) as Hm.
  { split; [done|]. split; [done|]. split; [by exists "joincap"%string|].
    by left. }
  split; [done|].
  destruct (captures_closed_at_end demo.env args (demo.flagsOf args)
              ["a.pcap"; "junk"; "nowhere"; "empty.pcap"]%string 0 Hm)
    as [Hnames Hclosed].
  split; [by rewrite Hnames|]. by vm_compute.
Defined.

(** ** The helpers of the tests *)

Lemma firstError_cons o rest :
  firstError (o :: rest) =
    match o with
    | ReadErr err => Some err
    | ReadOK _ _ => firstError rest
    end.
Proof. by destruct o. Qed.

Lemma packetCountLoop_spec pending n :
  0 <= n < 2 ^ 64 →
  packetCountLoop pending n =
    match firstError pending with
    | Some err => (0, Some err)
    | None => (Uint64.wrap (n + Z.of_nat (length pending)), None)
    end.
Proof.
  revert n. induction pending as [|[ci data|err] rest IH]; intros n Hn.
  - unfold Uint64.wrap. simpl. rewrite Z.add_0_r, Z.mod_small; done.
  - cbn [packetCountLoop]. rewrite firstError_cons, IH.
    + destruct (firstError rest); [done|]. unfold Uint64.wrap.
      rewrite length_cons, Nat2Z.inj_succ, Zplus_mod_idemp_l.
      do 2 f_equal. lia.
    + unfold Uint64.wrap. lia.
  - done.
Qed.

(** X10: [packetCount] returns the error of [os.Open], of
    [pcapgo.NewReader] or of the first read that fails, and then the
    count 0 whatever it had counted; without an error it returns the
    number of reads of the capture, modulo [2 ^ 64].  The reads are
    those of the helper, under the snapshot length of the header of the
    file. *)
Theorem packetCount_spec files pcapPath :
  packetCount files pcapPath =
    match files pcapPath with
    | CannotOpen err | NotACapture err => (0, Some err)
    | Capture reads =>
        match firstError reads with
        | Some err => (0, Some err)
        | None => (Uint64.wrap (Z.of_nat (length reads)), None)
        end
    end.
Proof.
  unfold packetCount. destruct (files pcapPath) as [err|err|reads];
    [done..|].
  by rewrite packetCountLoop_spec.
Qed.

Lemma isTimeOrderedLoop_true pending prev :
  isTimeOrderedLoop pending prev = (true, None) ↔
  Forall decodes pending ∧ Sorted Z.le (prev :: stamps pending).
Proof.
  revert prev. induction pending as [|[ci data|err] rest IH]; intros prev.
  - split; [|done]. intros _. split; [constructor|]. by repeat constructor.
  - cbn [isTimeOrderedLoop]. unfold stamps. cbn [omap].
    fold (stamps rest). case_bool_decide as Hlt.
    + split; [done|]. intros [_ Hs]. apply Sorted_inv in Hs as [_ Hhd].
      apply HdRel_inv in Hhd. lia.
    + rewrite IH. split.
      * intros [Hdec Hs]. split; [by constructor|].
        constructor; [done|]. constructor. lia.
      * intros [Hdec Hs]. apply Forall_cons in Hdec as [_ Hdec].
        by apply Sorted_inv in Hs as [Hs _].
  - split; [done|]. by intros [[[] _]%Forall_cons _].
Qed.

(** X11: [isTimeOrdered] returns true without an error exactly for a
    capture all of whose reads decode and whose timestamps, as [int64]
    nanoseconds, never decrease from a record to the next and do not
    start below 0, the initial value of [previousTime]: a capture whose
    first record is before 1970 is reported as not ordered.  The reads
    are those of the helper, under the snapshot length of the header of
    the file. *)
Theorem isTimeOrdered_true files pcapPath :
  isTimeOrdered files pcapPath = (true, None) ↔
  ∃ reads,
    files pcapPath = Capture reads ∧
    Forall decodes reads ∧
    Sorted Z.le (0 :: stamps reads).
Proof.
  unfold isTimeOrdered. destruct (files pcapPath) as [err|err|reads].
  - split; [done|]. by intros (? & ? & _).
  - split; [done|]. by intros (? & ? & _).
  - rewrite isTimeOrderedLoop_true. split.
    + intros [? ?]. by exists reads.
    + by intros (? & [= <-] & ? & ?).
Qed.

(** ** What the tests check, for inputs that the helpers read as
    [joincap] does *)

Lemma stamps_readBack rs : stamps (readBack rs) = map recordStamp rs.
Proof.
  induction rs as [|r rs IH]; [done|].
  change (stamps (readBack (r :: rs)))
    with (recordStamp r :: stamps (readBack rs)).
  by rewrite IH.
Qed.

Lemma decodes_readBack rs : Forall decodes (readBack rs).
Proof. induction rs; by constructor. Qed.

Lemma elem_of_allReads env paths o :
  o ∈ allReads env paths → ∃ path, path ∈ paths ∧ o ∈ recordsOf env path.
Proof.
  unfold allReads. induction paths as [|path paths IH]; simpl.
  - by intros ?%elem_of_nil.
  - intros [Ho|Ho]%elem_of_app.
    + exists path. split; [by left|done].
    + destruct (IH Ho) as (path' & ? & ?). exists path'.
      split; [by right|done].
Qed.

Lemma elem_of_stamps ci data recs :
  ReadOK ci data ∈ recs → UnixNano (ci_Timestamp ci) ∈ stamps recs.
Proof.
  intros Hel. unfold stamps. apply list_elem_of_omap.
  by exists (ReadOK ci data).
Qed.

Lemma isTimeOrdered_Capture files path :
  isTimeOrdered files path = (true, None) →
  ∃ reads, files path = Capture reads ∧ Forall decodes reads ∧
           timeOrdered reads ∧ Forall (λ t, 0 <= t) (stamps reads).
Proof.
  unfold isTimeOrdered. destruct (files path) as [err|err|reads];
    [done..|].
  intros [Hdec Hs]%isTimeOrderedLoop_true. exists reads.
  split; [done|]. split; [done|]. split.
  - by apply Sorted_inv in Hs as [? _].
  - apply Sorted_StronglySorted in Hs; [|apply _].
    by apply StronglySorted_cons in Hs as [? _].
Qed.

Lemma readsAlike_Pcap c t lt size recs :
  readsAlike c t → c = Pcap lt size recs → t = Capture recs.
Proof. intros Halike ->. destruct t; simpl in Halike; by subst. Qed.

Lemma length_stamps reads :
  Forall decodes reads → length (stamps reads) = length reads.
Proof.
  induction 1 as [|[ci data|err] reads Ho _ IH]; [done| |done].
  change (stamps (ReadOK ci data :: reads))
    with (UnixNano (ci_Timestamp ci) :: stamps reads).
  simpl. by rewrite IH.
Qed.

Lemma StronglySorted_stored (stored : Z → Z) ts :
  (∀ a b, a ∈ ts → b ∈ ts → a <= b → stored a <= stored b) →
  StronglySorted Z.le ts → StronglySorted Z.le (map stored ts).
Proof.
  intros Hmono Hs. induction Hs as [|a ts Hs IH Hall]; [constructor|].
  simpl. constructor.
  - apply IH. intros b c Hb Hc. apply Hmono; by right.
  - apply Forall_map. apply Forall_forall. intros b Hb. simpl.
    rewrite Forall_forall in Hall.
    apply Hmono; [by left|by right|by apply Hall].
Qed.

(** X12: what [TestOrder] checks holds of all inputs that the helpers
    read as [joincap] does: when [isTimeOrdered] accepts each input, a
    call that gets to the merge returns nil, and [isTimeOrdered]
    accepts the output file, provided that the helpers find in it the
    records the sink took and that the file keeps the order of their
    timestamps, and keeps them from going below 0. *)
Theorem ordered_inputs_give_ordered_output env args f paths prev
    stored files out :
  Merges env args f paths →
  (∀ path, path ∈ paths → readsAlike (fs env path) (files path)) →
  (∀ path, path ∈ paths → isTimeOrdered files path = (true, None)) →
  holdsOutput stored files out (final (joincap env args (startWorld prev))) →
  keepsOrder stored
    (map recordStamp
       (outputRecords (final (joincap env args (startWorld prev))))) →
  returned (joincap env args (startWorld prev)) = Ok None ∧
  isTimeOrdered files out = (true, None).
Proof.
  intros Hm Halike Hin (reads & Hout & Hdec & Hstamps) [Hmono Hpos].
  assert (∀ path lt size recs,
            path ∈ paths → fs env path = Pcap lt size recs →
            timeOrdered recs ∧ Forall (λ t, 0 <= t) (stamps recs)) as Hrecs.
  { intros path lt size recs Hel Hfs.
    destruct (isTimeOrdered_Capture _ _ (Hin path Hel))
      as (reads' & Hfiles & _ & Hs & Hge).
    rewrite (readsAlike_Pcap _ _ _ _ _ (Halike path Hel) Hfs) in Hfiles.
    by injection Hfiles as <-. }
  destruct (joincap_rule env args f paths (startWorld prev) inOrder Hm)
    as (Hret & _ & _ & _ & _ & _ & Hcalls & _).
  { apply start_inOrder. intros path lt size recs Hel Hfs.
    by destruct (Hrecs path lt size recs Hel Hfs). }
  { intros h w h' w'. apply mergeIter_inOrder. }
  split; [done|].
  unfold isTimeOrdered. rewrite Hout. apply isTimeOrderedLoop_true.
  split; [done|]. rewrite Hstamps. apply StronglySorted_Sorted.
  rewrite <- (map_map recordStamp stored).
  assert (map recordStamp
            (outputRecords (final (joincap env args (startWorld prev)))) =
          map callStamp
            (filter (λ c, sc_ok c = true)
               (sinkCalls (final (joincap env args (startWorld prev))))))
    as Hts by (unfold outputRecords; by rewrite map_map).
  assert (Forall (λ t, 0 <= t)
            (map recordStamp
               (outputRecords (final (joincap env args (startWorld prev))))))
    as Hge.
  { rewrite Hts. apply Forall_forall.
    intros t (c & -> & Hc)%list_elem_of_fmap.
    apply list_elem_of_filter in Hc as [_ Hc].
    destruct (joincap_conserved env args f paths prev Hm) as [_ Hperm].
    assert (ReadOK (sc_ci c) (sc_data c) ∈ allReads env paths) as Hel.
    { rewrite <- Hperm. apply elem_of_app. left.
      apply (list_elem_of_fmap_2 (λ r, ReadOK r.1 r.2) _
               (sc_ci c, sc_data c)).
      by apply (list_elem_of_fmap_2 (λ c, (sc_ci c, sc_data c))). }
    apply elem_of_allReads in Hel as (path & Hpath & Hel).
    unfold recordsOf in Hel.
    destruct (fs env path) as [err|err|lt size recs] eqn:Hfs;
      [by apply elem_of_nil in Hel..|].
    destruct (Hrecs path lt size recs Hpath Hfs) as [_ Hge].
    rewrite Forall_forall in Hge. apply Hge.
    by apply (elem_of_stamps _ (sc_data c)). }
  apply StronglySorted_cons. split.
  - apply Forall_map. rewrite Forall_forall in Hge. apply Forall_forall.
    intros t Ht. simpl. apply Hpos; [done|by apply Hge].
  - apply StronglySorted_stored; [done|]. rewrite Hts.
    by apply StronglySorted_filter.
Qed.

Lemma ordered_inputs_give_ordered_output_witness :
  let args := ["joincap"; "a.pcap"; "b.pcap"]%string in
  let w' := final (joincap demo.env args (startWorld 0)) in
  let stored := λ t : Z, t - t mod 1000 in
  let files := λ path : string,
    if String.eqb path "out.pcap"
    then Capture (map (λ r, ReadOK (mkCaptureInfo
                                      (stored (ci_Timestamp r.1))
                                      (ci_CaptureLength r.1)
                                      (ci_Length r.1)) r.2)
                    (outputRecords w'))
    else match demo.files path with
         | NoFile err => CannotOpen err
         | NotPcap err => NotACapture err
         | Pcap _ _ recs => Capture recs
         end in
  Merges demo.env args (demo.flagsOf args) ["a.pcap"; "b.pcap"]%string ∧
  isTimeOrdered files "a.pcap" = (true, None) ∧
  isTimeOrdered files "b.pcap" = (true, None) ∧
  map recordStamp (outputRecords w') = [10; 15; 20; 25; 30] ∧
  isTimeOrdered files "out.pcap" = (true, None).
Proof.
  intros args w' stored files.
  assert (Merges demo.env args (demo.flagsOf args)
            ["a.pcap"; "b.pcap"]%string) as Hm.
  { split; [done|]. split; [done|]. split; [by exists "joincap"%string|].
    by left. }
  split; [done|]. split; [by vm_compute|]. split; [by vm_compute|].
  split; [by vm_compute|].
  refine (proj2 (ordered_inputs_give_ordered_output demo.env args
                   (demo.flagsOf args) ["a.pcap"; "b.pcap"]%string 0
                   stored files "out.pcap" Hm _ _ _ _)).
  - intros path Hel. apply list_elem_of_In in Hel. simpl in Hel.
    destruct Hel as [<-|[<-|[]]]; by vm_compute.
  - intros path Hel. apply list_elem_of_In in Hel. simpl in Hel.
    destruct Hel as [<-|[<-|[]]]; by vm_compute.
  - eexists. split; [reflexivity|]. split.
    + apply Forall_map. apply Forall_forall. by intros r _.
    + by vm_compute.
  - split.
    + intros a b _ _ Hab. unfold stored.
      pose proof (Z.div_le_mono a b 1000 ltac:(lia) Hab) as Hdiv.
      rewrite !Zmod_eq_full by lia. lia.
    + intros a _ Ha. unfold stored.
      pose proof (Z.mod_pos_bound a 1000 ltac:(lia)).
      pose proof (Z.div_pos a 1000 Ha ltac:(lia)).
      rewrite Zmod_eq_full by lia. lia.
Defined.

Lemma joincap_answered env args f paths prev :
  Merges env args f paths →
  answered env (final (joincap env args (startWorld prev))).
Proof.
  intros Hm.
  destruct (joincap_rule env args f paths (startWorld prev)
              (λ h w, accounted (totalRecords env paths) h w ∧
                      answered env w) Hm)
    as (_ & _ & _ & Hans); [| |done].
  - split; [apply start_accounted|].
    unfold answered, mergeStart, afterInit. rewrite !sinkCalls_logIf.
    apply (init_rule env (Verbose f)
             (λ st, Forall _ (sinkCalls (world st)))).
    + intros st path' Hst _. by rewrite sinkCalls_initOne.
    + cbn [world]. rewrite sinkCalls_logIf. constructor.
  - intros h w h' w' [Hacc Hans] Hiter.
    pose proof Hacc as (_ & _ & Hfile).
    split; [by eapply mergeIter_accounted|by eapply mergeIter_answered].
Qed.

(** With a sink that refuses nothing, the output holds what was handed
    over. *)
Lemma outputRecords_handed env w :
  (∀ k ci data, sinkAccepts env k ci data = true) →
  answered env w → outputRecords w = handed w.
Proof.
  intros Hacc Hans. unfold outputRecords, handed. f_equal.
  apply filter_all. eapply Forall_impl; [done|]. simpl.
  intros c [k ->]. apply Hacc.
Qed.

Lemma firstError_decodes recs : Forall decodes recs → firstError recs = None.
Proof.
  induction 1 as [|[ci data|err] recs Ho _ IH]; [done| |done].
  by rewrite firstError_cons.
Qed.

Lemma intact_decodes o : intact o → decodes o.
Proof. by destruct o. Qed.

Lemma wrap_add_wrap a b :
  Uint64.wrap (Uint64.wrap a + Uint64.wrap b) = Uint64.wrap (a + b).
Proof. unfold Uint64.wrap. by rewrite <- Zplus_mod. Qed.

Lemma wrap_wrap a : Uint64.wrap (Uint64.wrap a) = Uint64.wrap a.
Proof. unfold Uint64.wrap. by rewrite Zmod_mod. Qed.

Lemma totalCount_allReads env files paths :
  (∀ path, path ∈ paths → readsAlike (fs env path) (files path)) →
  (∀ path lt size recs, path ∈ paths → fs env path = Pcap lt size recs →
                        Forall decodes recs) →
  totalCount files paths =
    Uint64.wrap (Z.of_nat (length (allReads env paths))).
Proof.
  induction paths as [|path paths IH]; intros Halike Hdec; [done|].
  unfold totalCount, allReads in *. cbn [foldr map concat].
  rewrite IH;
    [|intros path' Hel; apply Halike; by right
     |intros path' lt size recs Hel; apply Hdec; by right].
  assert ((packetCount files path).1 =
          Uint64.wrap (Z.of_nat (length (recordsOf env path)))) as ->.
  { pose proof (Halike path ltac:(by left)) as Hp.
    unfold packetCount, recordsOf.
    destruct (fs env path) as [err|err|lt size recs] eqn:Hfs,
      (files path) as [err'|err'|reads]; try done.
    simpl in Hp. subst reads.
    rewrite packetCountLoop_spec by done.
    rewrite firstError_decodes; [done|].
    apply (Hdec path lt size recs); [by left|done]. }
  by rewrite length_app, Nat2Z.inj_add, wrap_add_wrap.
Qed.

(** X13: what [TestCount] checks holds of all inputs that the helpers
    read as [joincap] does and whose captures are in time order with
    intact reads: with a sink that refuses nothing, when the helpers
    find in the output file the records the sink took, [packetCount] of
    the output file is the sum, in [uint64] arithmetic, of
    [packetCount] of the inputs, where an input that does not open or
    is no capture counts 0. *)
Theorem output_count_is_sum_of_input_counts env args f paths prev
    stored files out :
  Merges env args f paths →
  (∀ path lt size recs,
     path ∈ paths → fs env path = Pcap lt size recs →
     timeOrdered recs ∧ Forall intact recs) →
  (∀ k ci data, sinkAccepts env k ci data = true) →
  (∀ path, path ∈ paths → readsAlike (fs env path) (files path)) →
  holdsOutput stored files out (final (joincap env args (startWorld prev))) →
  packetCount files out = (totalCount files paths, None).
Proof.
  intros Hm Hin Hsink Halike (reads & Hout & Hdec & Hstamps).
  destruct (joincap_lossless env args f paths prev Hm Hin)
    as (_ & Hperm & _).
  unfold packetCount. rewrite Hout, packetCountLoop_spec by done.
  rewrite (firstError_decodes _ Hdec).
  rewrite <- (length_stamps _ Hdec), Hstamps, length_map.
  rewrite (outputRecords_handed env) by eauto using joincap_answered.
  rewrite <- (length_map (λ r, ReadOK r.1 r.2)).
  fold (readBack (handed (final (joincap env args (startWorld prev))))).
  rewrite Hperm, Z.add_0_l, (totalCount_allReads env); [done..|].
  intros path lt' size' recs Hel Hfs.
  destruct (Hin path lt' size' recs Hel Hfs) as [_ Hint].
  eapply Forall_impl; [done|]. apply intact_decodes.
Qed.

Lemma output_count_is_sum_of_input_counts_witness :
  let args := ["joincap"; "a.pcap"; "nowhere"; "b.pcap"]%string in
  let paths := ["a.pcap"; "nowhere"; "b.pcap"]%string in
  let w' := final (joincap demo.env args (startWorld 0)) in
  let stored := λ t : Z, t - t mod 1000 in
  let files := λ path : string,
    if String.eqb path "out.pcap"
    then Capture (map (λ r, ReadOK (mkCaptureInfo
                                      (stored (ci_Timestamp r.1))
                                      (ci_CaptureLength r.1)
                                      (ci_Length r.1)) r.2)
                    (outputRecords w'))
    else match demo.files path with
         | NoFile err => CannotOpen err
         | NotPcap err => NotACapture err
         | Pcap _ _ recs => Capture recs
         end in
  Merges demo.env args (demo.flagsOf args) paths ∧
  packetCount files "a.pcap" = (3, None) ∧
  packetCount files "nowhere" = (0, Some "no such file or directory"%string) ∧
  packetCount files "b.pcap" = (2, None) ∧
  packetCount files "out.pcap" = (5, None).
Proof.
  intros args paths w' stored files.
  assert (Merges demo.env args (demo.flagsOf args) paths) as Hm.
  { split; [done|]. split; [done|]. split; [by exists "joincap"%string|].
    by left. }
  split; [done|]. split; [by vm_compute|]. split; [by vm_compute|].
  split; [by vm_compute|].
  rewrite (output_count_is_sum_of_input_counts demo.env args
             (demo.flagsOf args) paths 0 stored files "out.pcap" Hm).
  - by vm_compute.
  - intros path lt size recs Hel Hfs.
    apply list_elem_of_In in Hel. simpl in Hel.
    destruct Hel as [<-|[<-|[<-|[]]]]; vm_compute in Hfs; try done;
      injection Hfs as <- <- <-;
      (split; [repeat constructor; by vm_compute
              |repeat constructor; by vm_compute]).
  - done.
  - intros path Hel. apply list_elem_of_In in Hel. simpl in Hel.
    destruct Hel as [<-|[<-|[<-|[]]]]; by vm_compute.
  - eexists. split; [reflexivity|]. split.
    + apply Forall_map. apply Forall_forall. by intros r _.
    + by vm_compute.
Defined.

(** ** The order of the inputs on the command line *)

Lemma allReads_perm env paths1 paths2 :
  paths1 ≡ₚ paths2 → allReads env paths1 ≡ₚ allReads env paths2.
Proof.
  unfold allReads. induction 1 as [|path l1 l2 _ IH|p1 p2 l|l1 l2 l3 _ IH1 _ IH2].
  - done.
  - simpl. by rewrite IH.
  - simpl. rewrite !app_assoc. f_equiv. apply Permutation_app_comm.
  - by rewrite IH1.
Qed.

Lemma stamps_perm l1 l2 : l1 ≡ₚ l2 → stamps l1 ≡ₚ stamps l2.
Proof. intros Hp. unfold stamps. by rewrite Hp. Qed.

(** X14: for inputs in time order with intact reads, the sequence of
    timestamps handed to the sink does not depend on the order in which
    the command line names the inputs, nor on the other flags or on
    what earlier calls left in [previousTimestamp]. *)
Theorem order_of_inputs_is_irrelevant env args1 f1 paths1 prev1
    args2 f2 paths2 prev2 :
  Merges env args1 f1 paths1 →
  Merges env args2 f2 paths2 →
  paths1 ≡ₚ paths2 →
  (∀ path lt size recs,
     path ∈ paths1 → fs env path = Pcap lt size recs →
     timeOrdered recs ∧ Forall intact recs) →
  map recordStamp (handed (final (joincap env args1 (startWorld prev1)))) =
  map recordStamp (handed (final (joincap env args2 (startWorld prev2)))).
Proof.
  intros Hm1 Hm2 Hperm Hin.
  destruct (joincap_lossless env args1 f1 paths1 prev1 Hm1 Hin)
    as (_ & Hp1 & Hs1).
  destruct (joincap_lossless env args2 f2 paths2 prev2 Hm2)
    as (_ & Hp2 & Hs2).
  { intros path lt size recs Hel. apply Hin. by rewrite Hperm. }
  apply (StronglySorted_unique Z.le); [done..|].
  rewrite <- !stamps_readBack.
  apply stamps_perm. rewrite Hp1, Hp2. by apply allReads_perm.
Qed.

Lemma order_of_inputs_is_irrelevant_witness :
  let args1 := ["joincap"; "a.pcap"; "b.pcap"]%string in
  let args2 := ["joincap"; "b.pcap"; "a.pcap"]%string in
  Merges demo.env args1 (demo.flagsOf args1) ["a.pcap"; "b.pcap"]%string ∧
  Merges demo.env args2 (demo.flagsOf args2) ["b.pcap"; "a.pcap"]%string ∧
  map recordStamp (handed (final (joincap demo.env args1 (startWorld 0)))) =
  map recordStamp (handed (final (joincap demo.env args2 (startWorld 7)))).
Proof.
  intros args1 args2.
  assert (Merges demo.env args1 (demo.flagsOf args1)
            ["a.pcap"; "b.pcap"]%string) as Hm1.
  { split; [done|]. split; [done|]. split; [by exists "joincap"%string|].
    by left. }
  assert (Merges demo.env args2 (demo.flagsOf args2)
            ["b.pcap"; "a.pcap"]%string) as Hm2.
  { split; [done|]. split; [done|]. split; [by exists "joincap"%string|].
    by left. }
  split; [done|]. split; [done|].
  apply (order_of_inputs_is_irrelevant demo.env args1 (demo.flagsOf args1)
           ["a.pcap"; "b.pcap"]%string 0 args2 (demo.flagsOf args2)
           ["b.pcap"; "a.pcap"]%string 7 Hm1 Hm2).
  - apply perm_swap.
  - intros path lt size recs Hel Hfs.
    apply list_elem_of_In in Hel. simpl in Hel.
    destruct Hel as [<-|[<-|[]]]; vm_compute in Hfs;
      injection Hfs as <- <- <-;
      (split; [repeat constructor; by vm_compute
              |repeat constructor; by vm_compute]).
Defined.

(** ** The flag [-v] changes the log and nothing else *)

Section silent_facts.
Implicit Types (w : World).

Lemma silent_logIf v m w : silent (logIf v m w) = silent w.
Proof. by destruct v. Qed.

Lemma silent_noteSkip s w : silent (noteSkip s w) = noteSkip s (silent w).
Proof. done. Qed.

Lemma silent_advance reader rest w :
  silent (advance reader rest w) = advance reader rest (silent w).
Proof. unfold advance. simpl. by destruct (_ !! _). Qed.

Lemma silent_closeFile file w :
  silent (closeFile file w) = closeFile file (silent w).
Proof. unfold closeFile. simpl. by destruct (_ !! _). Qed.

Lemma silent_setInputs ins w :
  silent (setInputs ins w) = setInputs ins (silent w).
Proof. done. Qed.

Lemma readLoop_silent pending reader file v isInit w :
  readLoop pending reader file false isInit (silent w) =
    ((silent (readLoop pending reader file v isInit w).1),
     (readLoop pending reader file v isInit w).2).
Proof.
  revert w. induction pending as [|o rest IH]; intros w.
  { cbn [readLoop logIf fst snd]. by rewrite silent_closeFile, silent_logIf. }
  assert (∀ s m,
    readLoop rest reader file false isInit
      (noteSkip s (advance reader rest (silent w))) =
    ((silent (readLoop rest reader file v isInit
                (noteSkip s (logIf v m (advance reader rest w)))).1),
     (readLoop rest reader file v isInit
        (noteSkip s (logIf v m (advance reader rest w)))).2)) as Hstep.
  { intros s m. rewrite <- IH.
    by rewrite silent_noteSkip, silent_logIf, silent_advance. }
  destruct o as [ci data|err]; cbn [readLoop logIf].
  - rewrite !previousTimestamp_advance.
    change (previousTimestamp (silent w)) with (previousTimestamp w).
    destruct (negb isInit && _); [apply Hstep|].
    case_bool_decide; [apply Hstep|].
    cbn [fst snd]. by rewrite silent_advance.
  - apply Hstep.
Qed.

Lemma readNext_silent reader file v isInit w :
  readNext reader file false isInit (silent w) =
    ((silent (readNext reader file v isInit w).1),
     (readNext reader file v isInit w).2).
Proof.
  unfold readNext. simpl. destruct (inputs w !! reader); [|done].
  apply readLoop_silent.
Qed.

Lemma write_silent env p v w :
  write (silentEnv env) p false (silent w) = silent (write env p v w).
Proof.
  unfold write, silent. simpl.
  rewrite inputs_logIf, skipped_logIf, sinkCalls_logIf, andb_false_r.
  done.
Qed.

Lemma innerLoop_silent env v p0 T h fuel w :
  innerLoop fuel (silentEnv env) false p0 T h (silent w) =
    silentRun (innerLoop fuel env v p0 T h w).
Proof.
  revert w. induction fuel as [|fuel IH]; intros w; [done|].
  cbn [innerLoop]. rewrite (readNext_silent _ _ v).
  destruct (readNext _ _ v _ w) as [w1 [p|]]; simpl; [|done].
  case_bool_decide; [|done]. by rewrite (write_silent env p v), IH.
Qed.

Lemma mergeLoop_silent env v fuel h w :
  mergeLoop fuel (silentEnv env) false h (silent w) =
    match mergeLoop fuel env v h w with
    | Ok w' => Ok (silent w')
    | Panics => Panics
    | OutOfFuel => OutOfFuel
    end.
Proof.
  revert h w. induction fuel as [|fuel IH]; intros h w; [done|].
  cbn [mergeLoop]. case_bool_decide; [|done].
  destruct (heap.Pop h) as [[p h1]|]; [|done].
  rewrite (write_silent env p v).
  change (pendingOf (Reader p) (silent (write env p v w)))
    with (pendingOf (Reader p) (write env p v w)).
  rewrite (innerLoop_silent env v).
  destruct (innerLoop _ env _ _ _ _ _) as [[h2 w2]| |]; simpl; [|done..].
  apply IH.
Qed.

Lemma initOne_silent env v st path :
  initOne (silentEnv env) false (silentInit st) path =
    silentInit (initOne env v st path).
Proof.
  unfold initOne. simpl. destruct (fs env path) as [err|err|lt size recs].
  - unfold silentInit. simpl. by rewrite silent_logIf.
  - unfold silentInit. simpl. by rewrite silent_logIf.
  - rewrite <- silent_setInputs, (readNext_silent _ _ v).
    destruct (readNext _ _ v _ _) as [w1 [p|]]; simpl.
    + unfold silentInit. simpl. repeat case_bool_decide; done.
    + unfold silentInit. simpl. by rewrite silent_logIf.
Qed.

Lemma init_silent env v paths st :
  foldl (initOne (silentEnv env) false) (silentInit st) paths =
    silentInit (foldl (initOne env v) st paths).
Proof.
  revert st. induction paths as [|path paths IH]; intros st; [done|].
  simpl. by rewrite (initOne_silent env v), IH.
Qed.

End silent_facts.

(** X15: the flag [-v] changes the log and nothing else.  The call
    with [-v] dropped from the command line, from the same state with
    an empty log, returns what the call returns and writes the same file
    header; it leaves the same inputs and the same [previousTimestamp],
    has made the same calls of the sink with the same answers and passed
    over the same reads; and it has logged nothing. *)
Theorem verbose_changes_only_the_log env args w :
  joincap (silentEnv env) args (silent w) = silentOutcome (joincap env args w).
Proof.
  unfold joincap. cbn [ParseArgs canCreate silentEnv].
  destruct (ParseArgs env args) as [| |f]; [done..|].
  cbn [quietFlags Verbose Version OutputFilePath InFiles].
  destruct (Version f); [done|].
  destruct (InFiles f) as [|prog paths].
  { unfold silentOutcome. cbn [final logIf]. by rewrite silent_logIf. }
  unfold initHeapWithInputFiles. cbn [logIf].
  replace (mkInitState 0 LinkTypeNull heap.Init (silent w))
    with (silentInit (mkInitState 0 LinkTypeNull heap.Init
                        (logIf (Verbose f) MsgBanner w)))
    by (unfold silentInit; cbn [world]; by rewrite silent_logIf).
  rewrite (init_silent env (Verbose f)).
  set (st := foldl (initOne env (Verbose f)) _ paths).
  cbn [silentInit minTimeHeap world linkType].
  destruct (_ && _).
  { unfold silentOutcome. cbn [final returned fileHeader].
    by rewrite silent_logIf. }
  set (w0 := logIf (Verbose f) (MsgWritingTo _) _).
  assert (mergeFuel (minTimeHeap st) (silent (world st)) =
          mergeFuel (minTimeHeap st) w0) as ->.
  { unfold mergeFuel, totalPending, w0. cbn [silent inputs].
    by rewrite !inputs_logIf. }
  replace (silent (world st)) with (silent w0)
    by (unfold w0; by rewrite !silent_logIf).
  rewrite (mergeLoop_silent env (Verbose f)).
  by destruct (mergeLoop _ env _ _ _).
Qed.

(** ** With [-v], the log explains what is skipped *)

Lemma logged_advance reader rest w :
  logged (advance reader rest w) = logged w.
Proof. unfold advance. by destruct (_ !! _). Qed.

Lemma logged_closeFile file w : logged (closeFile file w) = logged w.
Proof. unfold closeFile. by destruct (_ !! _). Qed.

(** A line that explains nothing, and a skip with its line. *)
Lemma explained_line files m w w' :
  explained files w →
  reasonOfMsg m = None → fileOfMsg m = None →
  logged w' = logged w ++ [m] → skipped w' = skipped w →
  explained files w'.
Proof.
  intros [Hr Hf] Hm1 Hm2 Hl Hs. unfold explained.
  rewrite Hl, Hs, !omap_app. simpl. rewrite Hm1, Hm2, !app_nil_r. done.
Qed.

Lemma explained_skip files m s w w' :
  explained files w →
  reasonOfMsg m = Some (sk_reason s) → fileOfMsg m = None →
  logged w' = logged w ++ [m] → skipped w' = skipped w ++ [s] →
  explained files w'.
Proof.
  intros [Hr Hf] Hm1 Hm2 Hl Hs. unfold explained.
  rewrite Hl, Hs, !omap_app, map_app. simpl.
  rewrite Hm1, Hm2, Hr, app_nil_r. done.
Qed.

Lemma explained_same files w w' :
  explained files w → logged w' = logged w → skipped w' = skipped w →
  explained files w'.
Proof. unfold explained. by intros [? ?] -> ->. Qed.

Lemma readLoop_explained files pending reader file isInit w :
  explained files w →
  explained files (readLoop pending reader file true isInit w).1.
Proof.
  revert w. induction pending as [|o rest IH]; intros w Hw.
  { cbn [readLoop fst].
    apply (explained_line files (MsgDone (fileName file w)) w);
      [done|done|done| |].
    - by rewrite logged_closeFile.
    - by rewrite skipped_closeFile. }
  assert (∀ s m, reasonOfMsg m = Some (sk_reason s) → fileOfMsg m = None →
    explained files
      (readLoop rest reader file true isInit
         (noteSkip s (logIf true m (advance reader rest w)))).1) as Hstep.
  { intros s m Hm1 Hm2. apply IH.
    apply (explained_skip files m s w); [done|done|done| |].
    - simpl. by rewrite logged_advance.
    - simpl. by rewrite skipped_advance. }
  destruct o as [ci data|err]; cbn [readLoop].
  - destruct (negb isInit && _); [by apply Hstep|].
    case_bool_decide; [by apply Hstep|].
    cbn [fst]. eapply explained_same; [done|..].
    + by rewrite logged_advance.
    + by rewrite skipped_advance.
  - by apply Hstep.
Qed.

Lemma readNext_explained files reader file isInit w w' r :
  explained files w → readNext reader file true isInit w = (w', r) →
  explained files w'.
Proof.
  intros Hw. unfold readNext. destruct (inputs w !! reader) as [inp|].
  - intros Hread.
    pose proof (readLoop_explained files (in_pending inp) reader file
                  isInit w Hw) as H.
    by rewrite Hread in H.
  - by intros [= <- _].
Qed.

Lemma write_explained files env p v w :
  explained files w → explained files (write env p v w).
Proof.
  intros Hw. unfold write. cbv zeta.
  destruct (negb _ && v).
  - by apply (explained_line files MsgWriteFailed w).
  - by apply (explained_same files w).
Qed.

Lemma mergeIter_explained files env h w h' w' :
  explained files w → mergeIter env true h w = Ok (h', w') →
  explained files w'.
Proof.
  intros Hw. destruct h as [|x t]; [done|].
  destruct (mergeIter_cons env true x t w) as (h1 & _ & _ & _ & ->).
  apply (innerLoop_rule env true x (thresholdOf h1) h1
    (explained files) (λ _, explained files)).
  - intros w0 w1 HP Hread. by eapply readNext_explained.
  - intros w0 w1 p HP Hread _. apply write_explained.
    by eapply readNext_explained.
  - intros w0 w1 p HP Hread _. by eapply readNext_explained.
  - by apply write_explained.
Qed.

Lemma initOne_explained files env st path :
  explained files (world st) →
  explained (files ++ if survives env path then [] else [path])
    (world (initOne env true st path)).
Proof.
  intros Hw. pose proof (initOne_heap_length env true st path) as Hlen.
  revert Hlen. unfold initOne, survives.
  destruct (fs env path) as [err|err|lt size recs]; cbv zeta.
  - intros _. cbn [world].
    destruct Hw as [Hr Hf]. unfold explained. simpl.
    by rewrite !omap_app, Hr, Hf, app_nil_r.
  - intros _. cbn [world].
    destruct Hw as [Hr Hf]. unfold explained. simpl.
    by rewrite !omap_app, Hr, Hf, app_nil_r.
  - destruct (readNext _ _ _ _ _) as [w2 [p|]] eqn:Hread.
    + cbn [minTimeHeap world]. rewrite heap_facts.Push_length.
      intros Hlen. destruct (existsb acceptsInit recs); [|lia].
      rewrite app_nil_r.
      assert (explained files w2) as Hw2.
      { eapply readNext_explained; [|done]. by destruct Hw. }
      repeat case_bool_decide; by apply (explained_same files w2).
    + cbn [minTimeHeap world].
      intros Hlen. destruct (existsb acceptsInit recs); [lia|].
      assert (explained files w2) as [Hr Hf].
      { eapply readNext_explained; [|done]. by destruct Hw. }
      unfold explained. simpl.
      by rewrite !omap_app, Hr, Hf, app_nil_r.
Qed.

Lemma init_explained files env paths st :
  explained files (world st) →
  explained (files ++ filter (λ path, survives env path = false) paths)
    (world (foldl (initOne env true) st paths)).
Proof.
  revert files st. induction paths as [|path paths IH]; intros files st Hw.
  - by rewrite app_nil_r.
  - cbn [foldl]. rewrite filter_cons.
    pose proof (initOne_explained files env st path Hw) as Hone.
    apply IH in Hone. revert Hone.
    destruct (survives env path).
    + rewrite decide_False by done. by rewrite app_nil_r.
    + rewrite decide_True by done. by rewrite <- app_assoc.
Qed.

(** X16: with [-v], the log of a call that gets to the merge explains
    what is skipped.  It holds one line for each read passed over, in
    the order of the reads passed over and with the reason (the read
    failed, the timestamp is more than an hour early, the payload is
    empty); and it holds one "skipping this file" line for each input
    that contributes no record (it does not open, is no capture, or
    yields no record before its end), in the order of the command line,
    and for no other. *)
Theorem verbose_log_explains_skips env args f paths prev :
  Merges env args f paths →
  Verbose f = true →
  omap reasonOfMsg (logged (final (joincap env args (startWorld prev))))
    = map sk_reason (skipped (final (joincap env args (startWorld prev)))) ∧
  omap fileOfMsg (logged (final (joincap env args (startWorld prev))))
    = filter (λ path, survives env path = false) paths.
Proof.
  intros Hm Hv.
  destruct (joincap_rule env args f paths (startWorld prev)
              (λ _ w, explained
                        (filter (λ path, survives env path = false) paths) w)
              Hm) as (_ & _ & Hfinal); [| |done].
  - assert (explained (filter (λ path, survives env path = false) paths)
              (world (afterInit env f paths (startWorld prev)))) as Hinit.
    { unfold afterInit. rewrite Hv. by apply (init_explained []). }
    unfold mergeStart. rewrite Hv.
    eapply (explained_line _ (MsgWritingTo _)); [|done|done|done|done].
    by eapply (explained_line _ (MsgMerging _ _)).
  - intros h w h' w' Hw. rewrite Hv. by apply mergeIter_explained.
Qed.

Lemma verbose_log_explains_skips_witness :
  let args := ["joincap"; "late.pcap"; "nowhere"; "hollow.pcap"; "junk";
               "empty.pcap"]%string in
  let paths := ["late.pcap"; "nowhere"; "hollow.pcap"; "junk";
                "empty.pcap"]%string in
  let env := mkEnv (demo.parse true) demo.files (λ _, true) (λ _ _ _, true) in
  Merges env args (mkCmdFlags true false "-" args) paths ∧
  omap reasonOfMsg (logged (final (joincap env args (startWorld 0))))
    = [EmptyPayload; TooEarly] ∧
  omap fileOfMsg (logged (final (joincap env args (startWorld 0))))
    = ["nowhere"; "junk"; "empty.pcap"]%string.
Proof.
  intros args paths env.
  assert (Merges env args (mkCmdFlags true false "-" args) paths) as Hm.
  { split; [done|]. split; [done|]. split; [by exists "joincap"%string|].
    by left. }
  split; [done|].
  destruct (verbose_log_explains_skips env args
              (mkCmdFlags true false "-" args) paths 0 Hm eq_refl)
    as [Hr Hf].
  split; [rewrite Hr|rewrite Hf]; by vm_compute.
Defined.

(** ** The packet written next, and [previousTimestamp] *)

Lemma last_map {A B} (f : A → B) (l : list A) :
  last (map f l) = f <$> last l.
Proof. by rewrite !last_lookup, length_map, lookup_map. Qed.

(** X17: whatever the inputs hold, at the head of every iteration of
    the merge loop the heap is in heap order, so the packet the
    iteration pops and writes is a packet of the heap with the least
    timestamp. *)
Theorem earliest_packet_is_popped env f paths prev h w p h1 :
  Reachable env (Verbose f)
    (minTimeHeap (afterInit env f paths (startWorld prev)))
    (mergeStart env f paths (startWorld prev)) h w →
  heap.Pop h = Some (p, h1) →
  heap_order.ordered h ∧
  h ≡ₚ p :: h1 ∧
  ∀ q, q ∈ h → Timestamp p <= Timestamp q.
Proof.
  intros Hreach.
  assert (bounded h w) as (_ & Hord & _).
  { induction Hreach as [|h w h' w' _ IH Hiter].
    - apply start_bounded.
    - by eapply mergeIter_bounded. }
  intros Hpop. destruct h as [|x t]; [done|].
  destruct (heap_facts.Pop_cons x t) as (h' & Hpop' & Hperm & _).
  rewrite Hpop in Hpop'. injection Hpop' as <- <-.
  split; [done|]. split; [by rewrite Hperm|].
  intros q [->|Hq]%elem_of_cons; [done|].
  by apply (heap_facts.ordered_head_min p t q).
Qed.

Lemma earliest_packet_is_popped_witness :
  let paths := ["late.pcap"; "b.pcap"; "a.pcap"]%string in
  let f := demo.flagsOf ("joincap"%string :: paths) in
  let h := minTimeHeap (afterInit demo.env f paths (startWorld 0)) in
  map Timestamp h = [10; 3 * oneHour; 15] ∧
  ∃ p h1, heap.Pop h = Some (p, h1) ∧ Timestamp p = 10 ∧
          ∀ q, q ∈ h → Timestamp p <= Timestamp q.
Proof.
  intros paths f h. split; [by vm_compute|].
  destruct (heap.Pop h) as [[p h1]|] eqn:Hpop; [|by vm_compute in Hpop].
  exists p, h1. split; [done|].
  destruct (earliest_packet_is_popped demo.env f paths 0 h
              (mergeStart demo.env f paths (startWorld 0)) p h1)
    as (_ & _ & Hmin); [constructor|done|].
  split; [|done]. vm_compute in Hpop. by injection Hpop as <- _.
Defined.

(** X18: in a call that gets to the merge and hands at least one
    record to the sink, the package-level variable [previousTimestamp]
    is left at the timestamp of the last record handed to the sink,
    which is what the next call of [joincap] in the same process finds
    there. *)
Theorem previousTimestamp_is_last_written env args f paths prev r :
  Merges env args f paths →
  last (handed (final (joincap env args (startWorld prev)))) = Some r →
  previousTimestamp (final (joincap env args (startWorld prev)))
    = recordStamp r.
Proof.
  intros Hm.
  destruct (joincap_rule env args f paths (startWorld prev) bounded Hm)
    as (_ & _ & _ & _ & _ & Hlast).
  { apply start_bounded. }
  { intros h w h' w'. apply mergeIter_bounded. }
  unfold handed. rewrite last_map.
  destruct (last (sinkCalls _)) as [c|]; [|done].
  simpl. intros [= <-]. by destruct Hlast.
Qed.

Lemma previousTimestamp_is_last_written_witness :
  let args := ["joincap"; "a.pcap"; "b.pcap"]%string in
  Merges demo.env args (demo.flagsOf args) ["a.pcap"; "b.pcap"]%string ∧
  last (handed (final (joincap demo.env args (startWorld 0))))
    = Some (mkCaptureInfo 30 1 1, [0]) ∧
  previousTimestamp (final (joincap demo.env args (startWorld 0))) = 30.
Proof.
  intros args.
  assert (Merges demo.env args (demo.flagsOf args)
            ["a.pcap"; "b.pcap"]%string) as Hm.
  { split; [done|]. split; [done|]. split; [by exists "joincap"%string|].
    by left. }
  assert (last (handed (final (joincap demo.env args (startWorld 0))))
            = Some (mkCaptureInfo 30 1 1, [0])) as Hlast by (by vm_compute).
  split; [done|]. split; [done|].
  by rewrite (previousTimestamp_is_last_written demo.env args
                (demo.flagsOf args) ["a.pcap"; "b.pcap"]%string 0 _ Hm Hlast).
Defined.

(** ** Inputs that contribute no record do not change the output *)

Section reindex_facts.
Context (ρ : nat → nat).

Lemma map_insert {A B} (g : A → B) (l : list A) i x :
  map g (<[i:=x]> l) = <[i:=g x]> (map g l).
Proof.
  revert i. induction l as [|a l IH]; intros [|i]; simpl; try done.
  by rewrite IH.
Qed.

Lemma Less_reindex h i j :
  minheap.Less (map (reindex ρ) h) i j = minheap.Less h i j.
Proof.
  unfold minheap.Less. rewrite !lookup_map.
  by destruct (h !! i), (h !! j).
Qed.

Lemma Swap_reindex h i j :
  minheap.Swap (map (reindex ρ) h) i j = map (reindex ρ) (minheap.Swap h i j).
Proof.
  unfold minheap.Swap. rewrite !lookup_map.
  destruct (h !! i), (h !! j); simpl; try done.
  by rewrite !map_insert.
Qed.

Lemma up_reindex fuel h j :
  heap.up fuel (map (reindex ρ) h) j = map (reindex ρ) (heap.up fuel h j).
Proof.
  revert h j. induction fuel as [|fuel IH]; intros h j; [done|].
  rewrite !heap_facts.up_S, Less_reindex.
  destruct (_ || _); [done|]. by rewrite Swap_reindex, IH.
Qed.

Lemma down_reindex fuel h i n :
  heap.down fuel (map (reindex ρ) h) i n =
    map (reindex ρ) (heap.down fuel h i n).
Proof.
  revert h i. induction fuel as [|fuel IH]; intros h i; [done|].
  rewrite !heap_facts.down_S, !Less_reindex.
  case_bool_decide; [done|]. cbv zeta.
  set (j := if _ && _ then _ else _). rewrite Less_reindex.
  destruct (negb _); [done|]. by rewrite Swap_reindex, IH.
Qed.

Lemma Push_reindex h x :
  heap.Push (map (reindex ρ) h) (reindex ρ x) =
    map (reindex ρ) (heap.Push h x).
Proof.
  unfold heap.Push, minheap.Push, minheap.Len. cbv zeta.
  rewrite <- up_reindex, map_app. simpl.
  by rewrite !length_app, !length_map.
Qed.

Lemma Pop_reindex h :
  heap.Pop (map (reindex ρ) h) =
    (λ r, (reindex ρ r.1, map (reindex ρ) r.2)) <$> heap.Pop h.
Proof.
  destruct h as [|x t]; [done|].
  unfold heap.Pop. change (map (reindex ρ) (x :: t))
    with (reindex ρ x :: map (reindex ρ) t).
  cbv zeta. unfold minheap.Len.
  change (reindex ρ x :: map (reindex ρ) t)
    with (map (reindex ρ) (x :: t)).
  rewrite length_map, Swap_reindex, down_reindex.
  unfold minheap.Pop. rewrite last_map, length_map.
  destruct (last _) as [y|]; [|done]. simpl.
  by rewrite firstn_map.
Qed.

Lemma thresholdOf_reindex h :
  thresholdOf (map (reindex ρ) h) = thresholdOf h.
Proof. by destruct h. Qed.

End reindex_facts.

Lemma scan_reader prev isInit r1 r2 pending :
  (scan prev isInit r2 pending).2 =
    (λ x, (mkPacket (Timestamp x.1) (CaptureInfoOf x.1) (Data x.1) r2 r2,
           x.2)) <$> (scan prev isInit r1 pending).2.
Proof.
  induction pending as [|o rest IH]; [done|]. cbn [scan].
  destruct (judge prev isInit o) as [why|ci data]; [|done].
  destruct (scan prev isInit r1 rest) as [sk1 res1].
  by destruct (scan prev isInit r2 rest) as [sk2 res2].
Qed.

(** A read of an input of [ws] and the read of the input that [ρ]
    names in [wb] return the same record and keep the states alike,
    whether or not they log. *)
Lemma readNext_sameRun ρ v v' isInit ws wb r ws' res :
  sameRun ρ ws wb → (r < length (inputs ws))%nat →
  readNext r r v isInit ws = (ws', res) →
  ∃ wb', readNext (ρ r) (ρ r) v' isInit wb = (wb', reindex ρ <$> res) ∧
         sameRun ρ ws' wb'.
Proof.
  intros (Hprev & Hcalls & Hinj & Hin) Hr Hread.
  destruct (lookup_lt_is_Some_2 (inputs ws) r Hr) as [inp Hinp].
  destruct (Hin r inp Hinp) as (inp' & Hinp' & Hpend).
  destruct (readNext (ρ r) (ρ r) v' isInit wb) as [wb' res'] eqn:Hread'.
  destruct (readNext_scan _ _ _ _ _ _ _ Hinp Hread)
    as (Hres & Hp & Hc & _ & Hi).
  destruct (readNext_scan _ _ _ _ _ _ _ Hinp' Hread')
    as (Hres' & Hp' & Hc' & _ & Hi').
  rewrite Hpend, <- Hprev, (scan_reader _ _ r (ρ r)) in Hres', Hi'.
  set (sc := scan (previousTimestamp ws) isInit r (in_pending inp)) in *.
  exists wb'. split.
  - f_equal. rewrite Hres', Hres.
    destruct sc.2 as [[p rest]|] eqn:Hsc; [|done]. simpl.
    destruct (scan_Some _ _ _ _ _ _ Hsc) as (ci & data & _ & -> & _).
    done.
  - split; [congruence|]. split; [congruence|]. split.
    { rewrite Hi, length_insert. apply Hinj. }
    intros i inp_i. rewrite Hi. destruct (decide (i = r)) as [->|Hne].
    + rewrite list_lookup_insert_eq by done. intros [= <-].
      rewrite Hi', list_lookup_insert_eq by (by eapply lookup_lt_Some).
      eexists. split; [done|].
      destruct sc.2 as [[p rest]|]; simpl; done.
    + rewrite list_lookup_insert_ne by done. intros Hl.
      destruct (Hin i inp_i Hl) as (inp_b & Hl' & Hpend').
      exists inp_b. split; [|done].
      rewrite Hi', list_lookup_insert_ne; [done|].
      intros Heq. apply Hne. symmetry. apply Hinj; [done| |done].
      by eapply lookup_lt_Some.
Qed.

Lemma write_sameRun ρ env v v' p ws wb :
  sameRun ρ ws wb →
  sameRun ρ (write env p v ws) (write env (reindex ρ p) v' wb).
Proof.
  intros (Hprev & Hcalls & Hinj & Hin).
  split; [by rewrite !previousTimestamp_write|].
  split; [by rewrite !sinkCalls_write, Hcalls|].
  by rewrite !inputs_write.
Qed.

Lemma innerLoop_sameRun ρ env v v' p0 T fs :
  ∀ fb hs ws wb hs' ws' hb' wb',
    sameRun ρ ws wb → (Reader p0 < length (inputs ws))%nat →
    InputFile p0 = Reader p0 →
    innerLoop fs env v p0 T hs ws = Ok (hs', ws') →
    innerLoop fb env v' (reindex ρ p0) T (map (reindex ρ) hs) wb
      = Ok (hb', wb') →
    hb' = map (reindex ρ) hs' ∧ sameRun ρ ws' wb'.
Proof.
  induction fs as [|fs IH]; intros fb hs ws wb hs' ws' hb' wb' Hsame Hr Hfile;
    [done|].
  destruct fb as [|fb]; [done|]. cbn [innerLoop reindex Reader InputFile].
  rewrite Hfile.
  destruct (readNext (Reader p0) (Reader p0) v false ws) as [ws1 res]
    eqn:Hread.
  destruct (readNext_sameRun ρ v v' false ws wb _ ws1 res Hsame Hr Hread)
    as (wb1 & -> & Hsame1).
  pose proof (readNext_inv _ _ _ _ _ _ Hread) as (_ & _ & Hlen & _).
  destruct res as [p|]; simpl.
  - case_bool_decide.
    + apply IH; [by apply write_sameRun| |done].
      rewrite inputs_write. lia.
    + intros [= <- <-] [= <- <-]. by rewrite Push_reindex.
  - by intros [= <- <-] [= <- <-].
Qed.

Lemma mergeIter_sameRun ρ env v v' hs ws wb hs' ws' hb' wb' :
  sameRun ρ ws wb → Forall (wfPacket ws) hs →
  mergeIter env v hs ws = Ok (hs', ws') →
  mergeIter env v' (map (reindex ρ) hs) wb = Ok (hb', wb') →
  hb' = map (reindex ρ) hs' ∧ sameRun ρ ws' wb'.
Proof.
  intros Hsame Hwf. unfold mergeIter. rewrite Pop_reindex.
  destruct hs as [|x t]; [done|].
  destruct (heap_facts.Pop_cons x t) as (h1 & -> & _).
  apply Forall_cons in Hwf as [(Hx & Hfile & _) _].
  cbn [fmap option_fmap option_map fst snd].
  replace (match map (reindex ρ) h1 with
           | [] => 0
           | p :: _ => Timestamp p
           end)
    with (match h1 with [] => 0 | p :: _ => Timestamp p end)
    by (by destruct h1).
  apply innerLoop_sameRun; [by apply write_sameRun| |done].
  by rewrite inputs_write.
Qed.

Lemma mergeLoop_sameRun ρ env v v' fs :
  ∀ fb hs ws wb ws' wb',
    sameRun ρ ws wb → Forall (wfPacket ws) hs →
    mergeLoop fs env v hs ws = Ok ws' →
    mergeLoop fb env v' (map (reindex ρ) hs) wb = Ok wb' →
    sameRun ρ ws' wb'.
Proof.
  induction fs as [|fs IH]; intros fb hs ws wb ws' wb' Hsame Hwf; [done|].
  destruct fb as [|fb]; [done|]. rewrite !mergeLoop_S.
  unfold minheap.Len. rewrite length_map.
  case_bool_decide; [|by intros [= <-] [= <-]].
  destruct (mergeIter env v hs ws) as [[hs1 ws1]| |] eqn:Hs; [|done..].
  destruct (mergeIter env v' _ wb) as [[hb1 wb1]| |] eqn:Hb; [|done..].
  destruct (mergeIter_sameRun _ _ _ _ _ _ _ _ _ _ _ Hsame Hwf Hs Hb)
    as [-> Hsame1].
  apply IH; [done|]. by destruct (mergeIter_measure _ _ _ _ _ _ Hwf Hs).
Qed.

Lemma initOne_Pcap_None env v st path lt size recs w2 :
  fs env path = Pcap lt size recs →
  readNext (length (inputs (world st))) (length (inputs (world st))) v true
    (setInputs (inputs (world st) ++ [mkOpenInput path lt recs false])
       (world st)) = (w2, None) →
  minTimeHeap (initOne env v st path) = minTimeHeap st ∧
  world (initOne env v st path) = logIf v (MsgNoFirstPacket path) w2.
Proof. intros Hfs Hread. unfold initOne. by rewrite Hfs, Hread. Qed.

Lemma initOne_Pcap_Some env v st path lt size recs w2 p :
  fs env path = Pcap lt size recs →
  readNext (length (inputs (world st))) (length (inputs (world st))) v true
    (setInputs (inputs (world st) ++ [mkOpenInput path lt recs false])
       (world st)) = (w2, Some p) →
  minTimeHeap (initOne env v st path) = heap.Push (minTimeHeap st) p ∧
  world (initOne env v st path) =
    if bool_decide (previousTimestamp w2 = 0)
    then setPreviousTimestamp (Timestamp p) w2
    else if bool_decide (Timestamp p < previousTimestamp w2)
    then setPreviousTimestamp (Timestamp p) w2
    else w2.
Proof. intros Hfs Hread. unfold initOne. by rewrite Hfs, Hread. Qed.

Lemma initOne_previousTimestamp env v st path :
  length (minTimeHeap (initOne env v st path)) = length (minTimeHeap st) →
  previousTimestamp (world (initOne env v st path))
    = previousTimestamp (world st).
Proof.
  unfold initOne. destruct (fs env path) as [err|err|lt size recs]; cbv zeta.
  - intros _. cbn [world]. by rewrite previousTimestamp_logIf.
  - intros _. cbn [world]. by rewrite previousTimestamp_logIf.
  - destruct (readNext _ _ _ _ _) as [w2 [p|]] eqn:Hread.
    + cbn [minTimeHeap]. rewrite heap_facts.Push_length. lia.
    + intros _. cbn [world]. rewrite previousTimestamp_logIf.
      by apply readNext_inv in Hread as (-> & _).
Qed.

(** An input that does not survive leaves the heap, [previousTimestamp]
    and the inputs opened before it as they were. *)
Lemma initOne_skip ρ env v sts stb path :
  survives env path = false →
  initRel ρ sts stb → initRel ρ sts (initOne env v stb path).
Proof.
  intros Hsurv (Hheap & (Hprev & Hcalls & Hinj & Hin) & Hwf).
  pose proof (initOne_heap_length env v stb path) as Hlen.
  rewrite Hsurv, Nat.add_0_r in Hlen.
  pose proof (initOne_previousTimestamp env v stb path Hlen) as Hp.
  assert (minTimeHeap (initOne env v stb path) = minTimeHeap stb ∧
          ∃ more, inputs (world (initOne env v stb path))
                    = inputs (world stb) ++ more) as (Hh & more & Hi).
  { destruct (initOne_step env v stb path)
      as [err _ Hi _ Hh _|err _ Hi _ Hh _|lt size recs sk _ _ _ Hi _ Hh _
         |lt size recs sk ci data rest _ _ _ _ _ _ Hh _].
    - split; [done|]. exists []. by rewrite app_nil_r.
    - split; [done|]. by eexists.
    - split; [done|]. by eexists.
    - rewrite Hh, heap_facts.Push_length in Hlen. lia. }
  split; [congruence|]. split; [|done].
  split; [congruence|]. split; [by rewrite sinkCalls_initOne|].
  split; [done|]. intros i inp Hl.
  destruct (Hin i inp Hl) as (inp' & Hl' & Hpend). exists inp'.
  split; [|done]. rewrite Hi. by apply lookup_app_l_Some.
Qed.

Lemma reindex_ext ρ ρ' (h : list Packet) n :
  (∀ i, (i < n)%nat → ρ' i = ρ i) →
  Forall (λ p, (Reader p < n)%nat ∧ InputFile p = Reader p) h →
  map (reindex ρ) h = map (reindex ρ') h.
Proof.
  intros Hext. induction 1 as [|p h [Hp Hfile] _ IH]; [done|].
  simpl. rewrite IH. f_equal. unfold reindex.
  by rewrite Hfile, (Hext _ Hp).
Qed.

Lemma sameRun_set ρ t ws wb :
  sameRun ρ ws wb →
  sameRun ρ (setPreviousTimestamp t ws) (setPreviousTimestamp t wb).
Proof. by intros (_ & ? & ? & ?). Qed.

Lemma sameRun_logIf ρ v v' m m' ws wb :
  sameRun ρ ws wb → sameRun ρ (logIf v m ws) (logIf v' m' wb).
Proof.
  unfold sameRun.
  by rewrite !previousTimestamp_logIf, !sinkCalls_logIf, !inputs_logIf.
Qed.

(** An input that survives is opened and read alike in both runs. *)
Lemma initOne_both ρ env v v' sts stb path :
  survives env path = true →
  initRel ρ sts stb →
  ∃ ρ', initRel ρ' (initOne env v sts path) (initOne env v' stb path).
Proof.
  intros Hsurv (Hheap & (Hprev & Hcalls & Hinj & Hin) & Hwf).
  pose proof (initOne_heap_length env v sts path) as Hlen.
  rewrite Hsurv in Hlen.
  destruct (fs env path) as [err|err|lt size recs] eqn:Hfs;
    [by unfold survives in Hsurv; rewrite Hfs in Hsurv..|].
  set (ns := length (inputs (world sts))) in *.
  set (nb := length (inputs (world stb))) in *.
  set (new := mkOpenInput path lt recs false).
  set (ρ' := λ i, if decide (i = ns) then nb else ρ i).
  assert (∀ i, (i < ns)%nat → ρ' i = ρ i) as Hext.
  { intros i Hi. unfold ρ'. rewrite decide_False; [done|lia]. }
  assert (∀ i, (i < ns)%nat → (ρ i < nb)%nat) as Hrange.
  { intros i Hi.
    destruct (lookup_lt_is_Some_2 (inputs (world sts)) i Hi) as [inp Hl].
    destruct (Hin i inp Hl) as (inp' & Hl' & _).
    by eapply lookup_lt_Some. }
  assert (sameRun ρ' (setInputs (inputs (world sts) ++ [new]) (world sts))
            (setInputs (inputs (world stb) ++ [new]) (world stb))) as Hsame.
  { split; [done|]. split; [done|]. cbn [setInputs inputs]. split.
    - intros i j. rewrite length_app. simpl. fold ns. intros Hi Hj.
      unfold ρ'. repeat case_decide; subst; try done.
      + intros Heq. specialize (Hrange j). lia.
      + intros Heq. specialize (Hrange i). lia.
      + apply Hinj; lia.
    - intros i inp [Hl|[Hge Hl]]%lookup_app_Some.
      + pose proof (lookup_lt_Some _ _ _ Hl) as Hi.
        rewrite (Hext i Hi). destruct (Hin i inp Hl) as (inp' & Hl' & Hp).
        exists inp'. split; [|done]. by apply lookup_app_l_Some.
      + apply list_lookup_singleton_Some in Hl as [Hi <-].
        assert (i = ns) as -> by (fold ns in Hge; lia).
        exists new. split; [|done]. unfold ρ'. rewrite decide_True by done.
        rewrite lookup_app_r by done. unfold nb. by rewrite Nat.sub_diag. }
  destruct (readNext ns ns v true
              (setInputs (inputs (world sts) ++ [new]) (world sts)))
    as [ws2 res] eqn:Hread.
  destruct (readNext_sameRun ρ' v v' true _ _ ns ws2 res Hsame)
    as (wb2 & Hread' & Hsame2); [|done|].
  { cbn [setInputs inputs]. rewrite length_app. simpl. fold ns. lia. }
  assert (ρ' ns = nb) as Hns by (unfold ρ'; by rewrite decide_True).
  rewrite Hns in Hread'.
  destruct res as [p|].
  - destruct (initOne_Pcap_Some _ _ _ _ _ _ _ _ _ Hfs Hread) as [Hhs Hws].
    destruct (initOne_Pcap_Some _ _ _ _ _ _ _ _ _ Hfs Hread') as [Hhb Hwb].
    exists ρ'. split; [|split].
    + rewrite Hhb, Hhs, Hheap, <- Push_reindex. f_equal.
      apply (reindex_ext _ _ _ ns); [done|].
      eapply Forall_impl; [done|]. by intros q (? & ? & _).
    + rewrite Hws, Hwb. destruct Hsame2 as (Hp2 & Hrest). rewrite <- Hp2.
      change (Timestamp (reindex ρ' p)) with (Timestamp p).
      repeat case_bool_decide; try (by apply sameRun_set); by split.
    + apply (init_wf env v [path] sts Hwf).
  - destruct (initOne_Pcap_None _ _ _ _ _ _ _ _ Hfs Hread) as [Hhs _].
    rewrite Hhs in Hlen. lia.
Qed.

Lemma init_sameRun env v v' paths :
  ∀ ρ sts stb,
    initRel ρ sts stb →
    ∃ ρ', initRel ρ'
            (foldl (initOne env v) sts
               (filter (λ path, survives env path = true) paths))
            (foldl (initOne env v') stb paths).
Proof.
  induction paths as [|path paths IH]; intros ρ sts stb Hrel.
  - by exists ρ.
  - rewrite filter_cons. cbn [foldl].
    destruct (survives env path) eqn:Hsurv.
    + rewrite decide_True by done. cbn [foldl].
      destruct (initOne_both ρ env v v' sts stb path Hsurv Hrel)
        as [ρ' Hrel'].
      by apply (IH ρ').
    + rewrite decide_False by done. apply (IH ρ).
      by apply initOne_skip.
Qed.

(** X19: the inputs that contribute no record (a path that does not
    open, a file that is no capture, a capture without a record that an
    initialisation read accepts) do not change what is written: the
    call on all the inputs makes the calls of the sink, with the same
    records in the same order and with the same answers, that the call
    on the surviving inputs alone makes, and leaves the same
    [previousTimestamp]; both return nil.  (The link type of the file
    header can differ.) *)
Theorem inputs_without_records_do_not_matter env args f paths args' f' prev :
  Merges env args f paths →
  Merges env args' f' (filter (λ path, survives env path = true) paths) →
  returned (joincap env args (startWorld prev)) = Ok None ∧
  returned (joincap env args' (startWorld prev)) = Ok None ∧
  sinkCalls (final (joincap env args (startWorld prev)))
    = sinkCalls (final (joincap env args' (startWorld prev))) ∧
  previousTimestamp (final (joincap env args (startWorld prev)))
    = previousTimestamp (final (joincap env args' (startWorld prev))).
Proof.
  intros Hm Hm'.
  set (paths' := filter (λ path, survives env path = true) paths) in *.
  destruct (joincap_merges env args f paths (startWorld prev) Hm)
    as (wb' & Hloopb & ->).
  destruct (joincap_merges env args' f' paths' (startWorld prev) Hm')
    as (ws' & Hloops & ->).
  cbn [returned final]. split; [done|]. split; [done|].
  destruct (init_sameRun env (Verbose f') (Verbose f) paths id
              (mkInitState 0 LinkTypeNull heap.Init
                 (logIf (Verbose f') MsgBanner (startWorld prev)))
              (mkInitState 0 LinkTypeNull heap.Init
                 (logIf (Verbose f) MsgBanner (startWorld prev))))
    as (ρ & Hheap & Hsame & Hwf).
  { split; [done|]. split; [|constructor].
    apply sameRun_logIf. split; [done|]. split; [done|].
    split; [by intros i j ? ?|]. by intros i inp ?. }
  fold paths' in Hheap, Hsame, Hwf.
  fold (afterInit env f' paths' (startWorld prev)) in Hheap, Hsame, Hwf.
  fold (afterInit env f paths (startWorld prev)) in Hheap, Hsame.
  rewrite Hheap in Hloopb.
  assert (sameRun ρ ws' wb') as (Hprev & Hcalls & _).
  { eapply (mergeLoop_sameRun ρ env (Verbose f') (Verbose f));
      [| |exact Hloops|exact Hloopb].
    - unfold mergeStart. by do 2 apply sameRun_logIf.
    - eapply Forall_impl; [done|]. intros p. apply wfPacket_length.
      unfold mergeStart. by rewrite !inputs_logIf. }
  by split.
Qed.

Lemma inputs_without_records_do_not_matter_witness :
  let args := ["joincap"; "junk"; "a.pcap"; "empty.pcap"; "nowhere";
               "b.pcap"]%string in
  let args' := ["joincap"; "a.pcap"; "b.pcap"]%string in
  Merges demo.env args (demo.flagsOf args)
    ["junk"; "a.pcap"; "empty.pcap"; "nowhere"; "b.pcap"]%string ∧
  Merges demo.env args' (demo.flagsOf args') ["a.pcap"; "b.pcap"]%string ∧
  sinkCalls (final (joincap demo.env args (startWorld 0)))
    = sinkCalls (final (joincap demo.env args' (startWorld 0))).
Proof.
  intros args args'.
  assert (Merges demo.env args (demo.flagsOf args)
            ["junk"; "a.pcap"; "empty.pcap"; "nowhere"; "b.pcap"]%string)
    as Hm.
  { split; [done|]. split; [done|]. split; [by exists "joincap"%string|].
    by left. }
  assert (Merges demo.env args' (demo.flagsOf args')
            ["a.pcap"; "b.pcap"]%string) as Hm'.
  { split; [done|]. split; [done|]. split; [by exists "joincap"%string|].
    by left. }
  split; [done|]. split; [done|].
  by destruct (inputs_without_records_do_not_matter demo.env args
                 (demo.flagsOf args)
                 ["junk"; "a.pcap"; "empty.pcap"; "nowhere"; "b.pcap"]%string
                 args' (demo.flagsOf args') 0 Hm Hm') as (_ & _ & ? & _).
Defined.

(** ** No record is dropped without cause *)

Lemma judge_Reject prev isInit o why :
  judge prev isInit o = Reject why →
  match o, why with
  | ReadErr _, DecodeFailed => True
  | ReadOK _ data, EmptyPayload => data = []
  | ReadOK ci _, TooEarly =>
      isInit = false ∧ Int64.add (UnixNano (ci_Timestamp ci)) oneHour < prev
  | _, _ => False
  end.
Proof.
  destruct o as [ci data|err]; simpl; [|by intros [= <-]].
  destruct isInit; simpl.
  - case_bool_decide as He; [|done]. intros [= <-]. by destruct data.
  - case_bool_decide as Hlt; [by intros [= <-]|].
    case_bool_decide as He; [|done]. intros [= <-]. by destruct data.
Qed.

Lemma justified_more calls calls' s :
  justified calls s → justified (calls ++ calls') s.
Proof.
  unfold justified. destruct (sk_outcome s) as [ci data|err],
    (sk_reason s); try done.
  intros (c & Hc & Hlt). exists c. split; [|done].
  apply elem_of_app. by left.
Qed.

(** The reads an initialisation read passes over have their cause
    whatever was written; those another read passes over have it once
    [previousTimestamp] is the timestamp of a record written. *)
Lemma readNext_justified reader v isInit w w' r :
  (isInit = false →
   ∃ c, c ∈ sinkCalls w ∧ previousTimestamp w = callStamp c) →
  Forall (justified (sinkCalls w)) (skipped w) →
  readNext reader reader v isInit w = (w', r) →
  Forall (justified (sinkCalls w')) (skipped w').
Proof.
  intros Hprev Hall
    (_ & -> & _ & _ & _ & _ & sk & -> & Hrej & _)%readNext_inv.
  apply Forall_app. split; [done|].
  eapply Forall_impl; [done|]. simpl. intros s [_ Hj].
  apply judge_Reject in Hj. unfold justified.
  destruct (sk_outcome s) as [ci data|err], (sk_reason s); try done.
  destruct Hj as [Hinit Hlt]. destruct (Hprev Hinit) as (c & Hc & Heq).
  exists c. split; [done|]. by rewrite <- Heq.
Qed.

Lemma last_elem_of {A} (l : list A) x : last l = Some x → x ∈ l.
Proof. rewrite last_lookup. apply list_elem_of_lookup_2. Qed.

Lemma mergeIter_droppedForCause env v h w h' w' :
  Forall (wfPacket w) h →
  droppedForCause w → mergeIter env v h w = Ok (h', w') →
  droppedForCause w'.
Proof.
  intros Hwf [Hlast Hall]. destruct h as [|x t]; [done|].
  destruct (mergeIter_cons env v x t w) as (h1 & _ & _ & _ & ->).
  apply Forall_cons in Hwf as [(_ & Hxfile & Hxts) _].
  set (P := λ w0 : World,
         (∃ c, last (sinkCalls w0) = Some c ∧
               previousTimestamp w0 = callStamp c) ∧
         Forall (justified (sinkCalls w0)) (skipped w0)).
  assert (∀ w0 w1 r, P w0 →
            readNext (Reader x) (Reader x) v false w0 = (w1, r) → P w1)
    as Hstep.
  { intros w0 w1 r [(c & Hc & Hp) Hall0] Hread. split.
    - apply readNext_inv in Hread as (-> & -> & _). by exists c.
    - eapply readNext_justified; [|done..]. intros _. exists c.
      split; [by apply last_elem_of|done]. }
  assert (∀ p w0, Timestamp p = UnixNano (ci_Timestamp (CaptureInfoOf p)) →
            Forall (justified (sinkCalls w0)) (skipped w0) →
            P (write env p v w0)) as Hwrite.
  { intros p w0 Hts Hall0. split.
    - eexists. rewrite sinkCalls_write, last_snoc, previousTimestamp_write.
      split; [done|]. by rewrite Hts.
    - rewrite sinkCalls_write, skipped_write.
      eapply Forall_impl; [done|]. intros s. apply justified_more. }
  apply (innerLoop_rule env v x (thresholdOf h1) h1 P
           (λ _, droppedForCause)).
  - intros w0 w1 HP. rewrite Hxfile. intros Hread.
    destruct (Hstep _ _ _ HP Hread) as [(c & Hc & Hp) Hall1].
    split; [|done]. intros c'. rewrite Hc. by intros [= <-].
  - intros w0 w1 p HP. rewrite Hxfile. intros Hread _.
    destruct (Hstep _ _ _ HP Hread) as [_ Hall1].
    apply Hwrite; [|done].
    by destruct (readNext_packet _ _ _ _ _ _ Hread) as ((_ & _ & ?) & _).
  - intros w0 w1 p HP. rewrite Hxfile. intros Hread _.
    destruct (Hstep _ _ _ HP Hread) as [(c & Hc & Hp) Hall1].
    split; [|done]. intros c'. rewrite Hc. by intros [= <-].
  - by apply Hwrite.
Qed.

Lemma init_droppedForCause env v paths st :
  sinkCalls (world st) = [] → skipped (world st) = [] →
  sinkCalls (world (foldl (initOne env v) st paths)) = [] ∧
  Forall (justified []) (skipped (world (foldl (initOne env v) st paths))).
Proof.
  intros Hc Hs.
  apply (init_rule env v
           (λ st, sinkCalls (world st) = [] ∧
                  Forall (justified []) (skipped (world st))));
    [|by rewrite Hc, Hs].
  clear. intros st path [Hc Hall] _.
  split; [by rewrite sinkCalls_initOne|].
  destruct (initOne_step env v st path)
    as [err _ _ Hs _ _|err _ _ Hs _ _|lt size recs sk _ _ Hrej _ Hs _ _
       |lt size recs sk ci data rest _ _ Hrej _ _ Hs _ _];
    rewrite Hs; try done.
  - apply Forall_app. split; [done|].
    eapply Forall_impl; [done|]. simpl. intros s [_ Hj].
    apply judge_Reject in Hj. unfold justified.
    destruct (sk_outcome s), (sk_reason s); try done. by destruct Hj.
  - apply Forall_app. split; [done|].
    eapply Forall_impl; [done|]. simpl. intros s [_ Hj].
    apply judge_Reject in Hj. unfold justified.
    destruct (sk_outcome s), (sk_reason s); try done. by destruct Hj.
Qed.

(** X20: no read is passed over without cause, and the cause is there
    by the end of the iteration that passes the read over.  In a call
    that gets to the merge, at the head of every iteration of the merge
    loop and at the end of the call, each read passed over so far
    either failed, or gave a record without payload, or gave a record
    whose timestamp plus one hour (as an [int64]) is below the
    timestamp of one of the records handed to the sink so far.  The
    states at the head of the iterations are those [mergeLoop] goes
    through; in the first of them nothing was handed to the sink, so
    that [initHeapWithInputFiles] passes over no record for its
    timestamp. *)
Theorem no_record_dropped_without_cause env args f paths prev :
  Merges env args f paths →
  Forall (justified (sinkCalls (final (joincap env args (startWorld prev)))))
    (skipped (final (joincap env args (startWorld prev)))) ∧
  Forall (justified [])
    (skipped (initHeapWithInputFiles env paths heap.Init (Verbose f)
                (logIf (Verbose f) MsgBanner (startWorld prev))).2) ∧
  ∀ h w,
    Reachable env (Verbose f)
      (minTimeHeap (afterInit env f paths (startWorld prev)))
      (mergeStart env f paths (startWorld prev)) h w →
    (∃ k, ∀ n,
       mergeLoop (k + n) env (Verbose f)
         (minTimeHeap (afterInit env f paths (startWorld prev)))
         (mergeStart env f paths (startWorld prev))
       = mergeLoop n env (Verbose f) h w) ∧
    Forall (justified (sinkCalls w)) (skipped w).
Proof.
  intros Hm.
  destruct (init_droppedForCause env (Verbose f) paths
              (mkInitState 0 LinkTypeNull heap.Init
                 (logIf (Verbose f) MsgBanner (startWorld prev))))
    as [Hc Hs];
    [cbn [world]; by rewrite sinkCalls_logIf
    |cbn [world]; by rewrite skipped_logIf|].
  fold (afterInit env f paths (startWorld prev)) in Hc, Hs.
  assert (Forall (wfPacket (mergeStart env f paths (startWorld prev)))
            (minTimeHeap (afterInit env f paths (startWorld prev))) ∧
          droppedForCause (mergeStart env f paths (startWorld prev)))
    as Hstart.
  { split.
    - eapply Forall_impl; [apply init_wf; by constructor|].
      intros p. apply wfPacket_length. unfold mergeStart.
      by rewrite !inputs_logIf.
    - unfold droppedForCause, mergeStart.
      rewrite !sinkCalls_logIf, !skipped_logIf, Hc. by split. }
  assert (∀ h w h' w',
            Forall (wfPacket w) h ∧ droppedForCause w →
            mergeIter env (Verbose f) h w = Ok (h', w') →
            Forall (wfPacket w') h' ∧ droppedForCause w') as Hstep.
  { intros h w h' w' [Hwf Hd] Hiter. split.
    - by destruct (mergeIter_measure _ _ _ _ _ _ Hwf Hiter).
    - by eapply mergeIter_droppedForCause. }
  split; [|split].
  - by destruct (joincap_rule env args f paths (startWorld prev)
                   (λ h w, Forall (wfPacket w) h ∧ droppedForCause w)
                   Hm Hstart Hstep) as (_ & _ & _ & _ & Hall).
  - unfold initHeapWithInputFiles. cbn [snd]. rewrite skipped_logIf.
    exact Hs.
  - intros h w Hreach. split; [by apply Reachable_mergeLoop|].
    assert (Forall (wfPacket w) h ∧ droppedForCause w) as [_ [_ Hall]];
      [|done].
    induction Hreach as [|h w h' w' _ IH Hiter]; [done|].
    by apply (Hstep h w).
Qed.

Lemma no_record_dropped_without_cause_witness :
  let args := ["joincap"; "late.pcap"; "hollow.pcap"]%string in
  let w' := final (joincap demo.env args (startWorld 0)) in
  Merges demo.env args (demo.flagsOf args) ["late.pcap"; "hollow.pcap"]%string ∧
  skipped w' = [mkSkip 1 (ReadOK (mkCaptureInfo 40 0 0) []) EmptyPayload;
                mkSkip 0 (demo.pkt oneHour) TooEarly] ∧
  Forall (justified (sinkCalls w')) (skipped w').
Proof.
  intros args w'.
  assert (Merges demo.env args (demo.flagsOf args)
            ["late.pcap"; "hollow.pcap"]%string) as Hm.
  { split; [done|]. split; [done|]. split; [by exists "joincap"%string|].
    by left. }
  split; [done|]. split; [by vm_compute|].
  exact (proj1 (no_record_dropped_without_cause demo.env args
                  (demo.flagsOf args) ["late.pcap"; "hollow.pcap"]%string
                  0 Hm)).
Defined.

(** ** One input alone *)

Lemma firstAccepted_split prev reader (sk : list Skip) ci data rest :
  Forall (λ s, sk_input s = reader ∧
               judge prev true (sk_outcome s) = Reject (sk_reason s)) sk →
  data ≠ [] →
  firstAccepted (map sk_outcome sk ++ ReadOK ci data :: rest)
    = Some ((ci, data), rest).
Proof.
  intros Hrej Hdata. induction Hrej as [|s sk [_ Hs] _ IH].
  - cbn [map app firstAccepted].
    assert (judge 0 true (ReadOK ci data) = Accept ci data) as ->; [|done].
    apply judge_Accept. by split.
  - cbn [map app firstAccepted]. by rewrite (judge_init_prev 0 prev), Hs.
Qed.

Lemma firstAccepted_none prev reader (sk : list Skip) :
  Forall (λ s, sk_input s = reader ∧
               judge prev true (sk_outcome s) = Reject (sk_reason s)) sk →
  firstAccepted (map sk_outcome sk) = None.
Proof.
  induction 1 as [|s sk [_ Hs] _ IH]; [done|].
  cbn [map firstAccepted]. by rewrite (judge_init_prev 0 prev), Hs.
Qed.

(** Merged alone, a capture is filtered: the records handed to the
    sink are the records kept, in the order of the capture. *)
Lemma joincap_single env args f path lt size recs prev :
  Merges env args f [path] →
  fs env path = Pcap lt size recs →
  handed (final (joincap env args (startWorld prev))) = kept recs.
Proof.
  intros Hm Hfs.
  destruct (joincap_merges env args f [path] (startWorld prev) Hm)
    as (w' & Hloop & ->).
  cbn [final]. revert Hloop.
  set (w0 := mergeStart env f [path] (startWorld prev)).
  assert (handed w0 = []) as Hnone.
  { unfold handed, w0, mergeStart, afterInit. rewrite !sinkCalls_logIf.
    cbn [foldl]. rewrite sinkCalls_initOne. cbn [world].
    by rewrite sinkCalls_logIf. }
  assert (inputs w0 =
          inputs (world (afterInit env f [path] (startWorld prev)))) as Hin
    by (unfold w0, mergeStart; by rewrite !inputs_logIf).
  revert Hin. unfold afterInit. cbn [foldl].
  set (st0 := mkInitState 0 LinkTypeNull heap.Init
                (logIf (Verbose f) MsgBanner (startWorld prev))).
  assert (inputs (world st0) = []) as Hempty
    by (unfold st0; cbn [world]; by rewrite inputs_logIf).
  unfold kept.
  destruct (initOne_step env (Verbose f) st0 path)
    as [err Hfs' _ _ _ _|err Hfs' _ _ _ _
       |lt' size' recs' sk Hfs' Hrecs Hrej Hi _ Hh _
       |lt' size' recs' sk ci data rest Hfs' Hrecs Hrej Hdata Hi _ Hh _];
    [congruence..| |]; rewrite Hfs in Hfs'; injection Hfs' as <- <- <-;
    rewrite Hh, Hi, Hempty.
  - intros _. rewrite Hrecs, (firstAccepted_none _ _ _ Hrej).
    unfold mergeFuel. rewrite mergeLoop_S.
    rewrite bool_decide_eq_false_2 by (simpl; lia). by intros [= <-].
  - intros Hin. rewrite Hrecs, (firstAccepted_split _ _ _ _ _ _ Hrej Hdata).
    cbn [minTimeHeap st0]. rewrite heap_Push_nil. intros Hloop.
    apply mergeLoop_sole in Hloop as [_ ->]; [|done].
    rewrite Hnone. cbn [app Reader CaptureInfoOf Data Timestamp length].
    unfold pendingOf. by rewrite Hin.
Qed.

Lemma drain_intact prev rest :
  Forall intact rest →
  StronglySorted Z.le (stamps rest) →
  Forall (λ t, prev <= t) (stamps rest) →
  readBack (drain prev rest) = rest.
Proof.
  revert prev. induction rest as [|[ci data|err] rest IH]; intros prev;
    [done| |by intros [[] _]%Forall_cons].
  intros [[Hdata Hmax] Hrest]%Forall_cons.
  change (stamps (ReadOK ci data :: rest))
    with (UnixNano (ci_Timestamp ci) :: stamps rest).
  intros [Hle Hs]%StronglySorted_cons [Hprev _]%Forall_cons.
  assert (judge prev false (ReadOK ci data) = Accept ci data) as Hacc.
  { destruct (judge prev false (ReadOK ci data)) as [why|ci' data'] eqn:Hj.
    - exfalso. apply (intact_accepted prev false _ why) in Hj; [done..|].
      by intros _ ? ? [= <- <-].
    - unfold judge in Hj. repeat case_match; by simplify_eq. }
  rewrite (drain_accepted _ _ _ _ Hacc).
  change (readBack ((ci, data) :: ?l)) with (ReadOK ci data :: readBack l).
  by rewrite IH.
Qed.

Lemma kept_intact recs :
  timeOrdered recs → Forall intact recs → readBack (kept recs) = recs.
Proof.
  unfold timeOrdered, kept. destruct recs as [|[ci data|err] rest];
    [done| |by intros _ [[] _]%Forall_cons].
  change (stamps (ReadOK ci data :: rest))
    with (UnixNano (ci_Timestamp ci) :: stamps rest).
  intros Hs [[Hdata Hmax] Hrest]%Forall_cons.
  apply Sorted_StronglySorted in Hs; [|apply _].
  apply StronglySorted_cons in Hs as [Hle Hs].
  cbn [firstAccepted].
  assert (judge 0 true (ReadOK ci data) = Accept ci data) as ->
    by (apply judge_Accept; by split).
  change (readBack ((ci, data) :: ?l)) with (ReadOK ci data :: readBack l).
  by rewrite drain_intact.
Qed.

(** X21: merged alone, a capture is filtered and otherwise copied.
    The records handed to the sink are, in the order of the capture,
    its first record that decodes and has a payload and then each
    record that decodes, has a payload and is not more than an hour
    before the record kept last; for a capture in time order with
    intact reads these are all its records. *)
Theorem single_input_is_filtered env args f path lt size recs prev :
  Merges env args f [path] →
  fs env path = Pcap lt size recs →
  handed (final (joincap env args (startWorld prev))) = kept recs ∧
  (timeOrdered recs → Forall intact recs →
   readBack (handed (final (joincap env args (startWorld prev)))) = recs).
Proof.
  intros Hm Hfs.
  rewrite (joincap_single env args f path lt size recs prev Hm Hfs).
  split; [done|]. apply kept_intact.
Qed.

Lemma single_input_is_filtered_witness :
  let args := ["joincap"; "late.pcap"]%string in
  Merges demo.env args (demo.flagsOf args) ["late.pcap"]%string ∧
  handed (final (joincap demo.env args (startWorld 0)))
    = [(mkCaptureInfo (3 * oneHour) 1 1, [0]);
       (mkCaptureInfo (4 * oneHour) 1 1, [0])].
Proof.
  intros args.
  assert (Merges demo.env args (demo.flagsOf args) ["late.pcap"]%string)
    as Hm.
  { split; [done|]. split; [done|]. split; [by exists "joincap"%string|].
    by left. }
  split; [done|].
  by destruct (single_input_is_filtered demo.env args (demo.flagsOf args)
                 "late.pcap"%string LinkTypeEthernet 56
                 [demo.pkt (3 * oneHour); demo.pkt oneHour;
                  demo.pkt (4 * oneHour)] 0 Hm eq_refl) as [-> _].
Defined.

Lemma judge_Accept_inv prev isInit o ci data :
  judge prev isInit o = Accept ci data → o = ReadOK ci data.
Proof. unfold judge. intros Hj. repeat case_match; by simplify_eq. Qed.

Lemma drain_idempotent prev l :
  drain prev (readBack (drain prev l)) = drain prev l.
Proof.
  revert prev. induction l as [|o rest IH]; intros prev; [done|].
  cbn [drain]. destruct (judge prev false o) as [why|ci data] eqn:Hj;
    [apply IH|].
  apply judge_Accept_inv in Hj as Ho. subst o.
  change (readBack ((ci, data) :: ?l)) with (ReadOK ci data :: readBack l).
  by rewrite (drain_accepted _ _ _ _ Hj), IH.
Qed.

Lemma firstAccepted_Some recs ci data rest :
  firstAccepted recs = Some ((ci, data), rest) →
  judge 0 true (ReadOK ci data) = Accept ci data.
Proof.
  induction recs as [|o recs IH]; [done|]. cbn [firstAccepted].
  destruct (judge 0 true o) as [why|ci' data'] eqn:Hj; [done|].
  intros [= <- <- <-]. by apply judge_Accept_inv in Hj as Ho; subst o.
Qed.

Lemma kept_idempotent recs : kept (readBack (kept recs)) = kept recs.
Proof.
  unfold kept at 2 3.
  destruct (firstAccepted recs) as [[[ci data] rest]|] eqn:Hfirst; [|done].
  change (readBack ((ci, data) :: ?l)) with (ReadOK ci data :: readBack l).
  unfold kept. cbn [firstAccepted].
  by rewrite (firstAccepted_Some _ _ _ _ Hfirst), drain_idempotent.
Qed.

(** X22: merging is idempotent on one capture.  Merging alone a
    capture that holds the records a first call, on one capture alone,
    handed to the sink, hands over the same records in the same order:
    nothing more is dropped the second time. *)
Theorem merging_alone_is_idempotent env args f path lt size recs prev
    env' args' f' path' lt' size' prev' :
  Merges env args f [path] →
  fs env path = Pcap lt size recs →
  Merges env' args' f' [path'] →
  fs env' path' =
    Pcap lt' size'
      (readBack (handed (final (joincap env args (startWorld prev))))) →
  handed (final (joincap env' args' (startWorld prev')))
    = handed (final (joincap env args (startWorld prev))).
Proof.
  intros Hm Hfs Hm' Hfs'.
  rewrite (joincap_single env' args' f' path' _ _ _ prev' Hm' Hfs').
  rewrite (joincap_single env args f path lt size recs prev Hm Hfs).
  apply kept_idempotent.
Qed.

Lemma merging_alone_is_idempotent_witness :
  let args := ["joincap"; "late.pcap"]%string in
  let out := readBack
               (handed (final (joincap demo.env args (startWorld 0)))) in
  let env' := mkEnv (demo.parse false) (λ _, Pcap LinkTypeEthernet 56 out)
                (λ _, true) (λ _ _ _, true) in
  Merges demo.env args (demo.flagsOf args) ["late.pcap"]%string ∧
  Merges env' args (demo.flagsOf args) ["late.pcap"]%string ∧
  handed (final (joincap env' args (startWorld 0)))
    = handed (final (joincap demo.env args (startWorld 0))).
Proof.
  intros args out env'.
  assert (Merges demo.env args (demo.flagsOf args) ["late.pcap"]%string)
    as Hm.
  { split; [done|]. split; [done|]. split; [by exists "joincap"%string|].
    by left. }
  assert (Merges env' args (demo.flagsOf args) ["late.pcap"]%string) as Hm'.
  { split; [done|]. split; [done|]. split; [by exists "joincap"%string|].
    by left. }
  split; [done|]. split; [done|].
  exact (merging_alone_is_idempotent demo.env args (demo.flagsOf args)
           "late.pcap"%string LinkTypeEthernet 56
           [demo.pkt (3 * oneHour); demo.pkt oneHour; demo.pkt (4 * oneHour)]
           0 env' args (demo.flagsOf args) "late.pcap"%string
           LinkTypeEthernet 56 0 Hm eq_refl Hm' eq_refl).
Defined.
